(** * s3-check: the permission checker of [internal/checker]

    A shallow embedding of the two [package checker] sources of the
    repository and of the claims made about them:

    - the variant that shells out to the AWS CLI for every call and runs
      the eight checks of a bucket as goroutines (module [Cli]; the source
      that imports [sync]);
    - the variant that asks the SDK client for the public-access-block and
      the bucket policy and runs the eight checks one after the other
      (module [Sdk]; the source that imports [aws-sdk-go-v2]).

    Five checks ([checkGetACLWithContext], [checkPutACLWithContext],
    [checkAuthGet], [checkAuthWrite], [checkAuthDel]) have the same text in
    both sources and are embedded once.

    Everything a check does to the outside (running [aws], staging a
    temporary file, reading the clock, calling the SDK) is a [Call] answered
    by the world; what it writes to standard error is kept apart.  A check
    is a finite tree of such calls ([Prog]); [run] plays it against a world
    and yields the verdict and the trace of calls with their answers.

    The command of [cmd/check.go] is embedded over the AWS CLI checker
    (module [Cmd]): it picks the identifiers, sets the width of the first
    column and prints the table, the sink of the stream driver being
    [printResult]. *)

From Stdlib Require Import String Ascii ZArith List Bool Lia DecimalString.
From stdpp Require Import base list strings.

Local Open Scope string_scope.
Local Open Scope list_scope.

(** ** Go library functions used by the checker *)

Module Go.

(** Go's [error]: [None] is [nil], [Some msg] an error whose [Error()]
    text is [msg]. *)
Definition error : Type := option string.

Definition dquote : string := String (ascii_of_nat 34) EmptyString.
Definition newline : string := String (ascii_of_nat 10) EmptyString.

(** [quoted s] is [s] between two double-quote characters. *)
Definition quoted (s : string) : string := dquote +:+ s +:+ dquote.

(** [strings.Contains(s, substr)] *)
Fixpoint Contains (s substr : string) : bool :=
  if String.prefix substr s then true
  else match s with
       | EmptyString => false
       | String _ s' => Contains s' substr
       end.

(** [%d] of an [int64] *)
Definition itoa (n : Z) : string := NilZero.string_of_int (Z.to_int n).

Definition isByte (n : nat) (c : ascii) : bool := Nat.eqb (nat_of_ascii c) n.

(** The ASCII white space of [strings.TrimSpace]:
    tab, line feed, vertical tab, form feed, carriage return, space. *)
Definition asciiSpace (c : ascii) : bool :=
  isByte 9 c || isByte 10 c || isByte 11 c || isByte 12 c || isByte 13 c
  || isByte 32 c.

(** The other code points of [unicode.IsSpace], by their UTF-8 bytes:
    U+0085 and U+00A0 (two bytes), U+1680, U+2000..U+200A, U+2028,
    U+2029, U+202F, U+205F and U+3000 (three bytes). *)
Definition space2 (a b : ascii) : bool :=
  isByte 194 a && (isByte 133 b || isByte 160 b).

Definition space3 (a b c : ascii) : bool :=
  (isByte 225 a && isByte 154 b && isByte 128 c)
  || (isByte 226 a && isByte 128 b
      && ((Nat.leb 128 (nat_of_ascii c) && Nat.leb (nat_of_ascii c) 138)
          || isByte 168 c || isByte 169 c || isByte 175 c))
  || (isByte 226 a && isByte 129 b && isByte 159 c)
  || (isByte 227 a && isByte 128 b && isByte 128 c).

(** Width in bytes of the white-space rune the bytes start with, [0] when
    they start with none. *)
Definition leadingSpace (bs : list ascii) : nat :=
  match bs with
  | a :: r1 =>
      if asciiSpace a then 1
      else match r1 with
           | b :: r2 =>
               if space2 a b then 2
               else match r2 with
                    | c :: _ => if space3 a b c then 3 else 0
                    | [] => 0
                    end
           | [] => 0
           end
  | [] => 0
  end.

(** The same for the rune the bytes end with, on the reversed bytes. *)
Definition trailingSpace (rbs : list ascii) : nat :=
  match rbs with
  | c :: r1 =>
      if asciiSpace c then 1
      else match r1 with
           | b :: r2 =>
               if space2 b c then 2
               else match r2 with
                    | a :: _ => if space3 a b c then 3 else 0
                    | [] => 0
                    end
           | [] => 0
           end
  | [] => 0
  end.

Fixpoint trimWith (width : list ascii -> nat) (fuel : nat)
    (bs : list ascii) : list ascii :=
  match fuel with
  | O => bs
  | S fuel' =>
      match width bs with
      | O => bs
      | S w => trimWith width fuel' (drop (S w) bs)
      end
  end.

(** [strings.TrimSpace(s)]: the leading and the trailing white-space
    runes are cut off. *)
Definition TrimSpace (s : string) : string :=
  let bs := list_ascii_of_string s in
  let l := trimWith leadingSpace (length bs) bs in
  let r := trimWith trailingSpace (length l) (rev l) in
  string_of_list_ascii (rev r).


(** [len(s)], the number of bytes *)
Definition len (s : string) : Z := Z.of_nat (String.length s).

(** [strings.Repeat(s, count)] for a count that is not negative (Go panics
    on a negative one; the callers never pass one) *)
Definition Repeat (s : string) (count : Z) : string :=
  Nat.iter (Z.to_nat count) (String.append s) EmptyString.

Definition inRange (lo hi : nat) (c : ascii) : bool :=
  Nat.leb lo (nat_of_ascii c) && Nat.leb (nat_of_ascii c) hi.

(** The table [first] of package [utf8]: the size of the encoding a byte
    starts and the range its second byte must lie in; [None] for a byte
    that starts no encoding. *)
Definition firstByte (c : ascii) : option (nat * (nat * nat)) :=
  let n := nat_of_ascii c in
  if Nat.leb 194 n && Nat.leb n 223 then Some (2, (128, 191))
  else if Nat.eqb n 224 then Some (3, (160, 191))
  else if Nat.leb 225 n && Nat.leb n 236 then Some (3, (128, 191))
  else if Nat.eqb n 237 then Some (3, (128, 159))
  else if Nat.leb 238 n && Nat.leb n 239 then Some (3, (128, 191))
  else if Nat.eqb n 240 then Some (4, (144, 191))
  else if Nat.leb 241 n && Nat.leb n 243 then Some (4, (128, 191))
  else if Nat.eqb n 244 then Some (4, (128, 143))
  else None.

(** The width in bytes of the rune the bytes start with, as
    [utf8.RuneCountInString] steps: one byte for ASCII, for a byte that
    starts no encoding and for an encoding that is cut short or broken. *)
Definition runeWidth (bs : list ascii) : nat :=
  match bs with
  | [] => 0
  | c :: rest =>
      if Nat.ltb (nat_of_ascii c) 128 then 1
      else match firstByte c with
           | None => 1
           | Some (size, (lo, hi)) =>
               if Nat.ltb (length bs) size then 1
               else match rest with
                    | [] => 1
                    | c1 :: rest1 =>
                        if negb (inRange lo hi c1) then 1
                        else if Nat.eqb size 2 then 2
                        else match rest1 with
                             | [] => 1
                             | c2 :: rest2 =>
                                 if negb (inRange 128 191 c2) then 1
                                 else if Nat.eqb size 3 then 3
                                 else match rest2 with
                                      | [] => 1
                                      | c3 :: _ =>
                                          if negb (inRange 128 191 c3)
                                          then 1 else 4
                                      end
                             end
                    end
           end
  end.

Fixpoint countRunes (fuel : nat) (bs : list ascii) : nat :=
  match fuel with
  | O => O
  | S fuel' =>
      match bs with
      | [] => O
      | _ :: _ => S (countRunes fuel' (drop (runeWidth bs) bs))
      end
  end.

(** [utf8.RuneCountInString(s)] *)
Definition RuneCountInString (s : string) : Z :=
  let bs := list_ascii_of_string s in
  Z.of_nat (countRunes (length bs) bs).

(** The fields of the bytes still to be read; [field] holds the bytes of
    the field being read.  A white-space rune ends the field. *)
Fixpoint fieldsFrom (fuel : nat) (bs field : list ascii)
    : list (list ascii) :=
  let flush := match field with
               | [] => []
               | _ :: _ => [field]
               end in
  match fuel with
  | O => flush
  | S fuel' =>
      match bs with
      | [] => flush
      | c :: rest =>
          match leadingSpace bs with
          | O => fieldsFrom fuel' rest (field ++ [c])
          | S w => flush ++ fieldsFrom fuel' (drop w rest) []
          end
      end
  end.

(** [strings.Fields(s)]: the pieces of [s] between runs of white space. *)
Definition Fields (s : string) : list string :=
  let bs := list_ascii_of_string s in
  map string_of_list_ascii (fieldsFrom (length bs) bs []).


(** The verb [%-Ns] of package [fmt] ([padString] with the minus flag):
    [s], then blanks up to [wid] runes; a width of [0] counts as none. *)
Definition padString (wid : Z) (s : string) : string :=
  if (wid =? 0)%Z then s
  else
    let width := (wid - RuneCountInString s)%Z in
    if (width <=? 0)%Z then s else s +:+ Repeat " " width.

(** [tooLarge] of package [fmt]: a width taken from an argument must
    lie within a million either way. *)
Definition tooLarge (x : Z) : bool :=
  (x >? 1000000)%Z || (x <? -1000000)%Z.

(** The verb [%-*s]: the width is an argument.  One that is too large is
    reported in the output and the text then written as it is; a negative
    one counts as its absolute value. *)
Definition padStar (wid : Z) (s : string) : string :=
  if tooLarge wid then "%!(BADWIDTH)" +:+ s
  else padString (Z.abs wid) s.

(** [fmt.Errorf(prefix + "%w", err)] *)
Definition Errorf (prefix : string) (err : string) : error :=
  Some (prefix +:+ err).
End Go.

Import Go.

(** ** The data model *)

(** [type Checker struct]: of its fields only [verbose] is read by the
    checks. *)
Record Checker : Type := { verbose : bool }.

(** [func (c *Checker) SetVerbose(v bool)] *)
Definition SetVerbose (c : Checker) (v : bool) : Checker :=
  {| verbose := v |}.

(** [type BucketResult struct] *)
Record BucketResult : Type := {
  BucketName : string;
  GetACL : string;
  PutACL : string;
  AnonGet : string;
  AuthGet : string;
  AnonWrite : string;
  AuthWrite : string;
  AnonDel : string;
  AuthDel : string
}.

(** The SDK's answer to [GetPublicAccessBlock]: the configuration and each
    of its four flags are pointers, [None] standing for [nil]. *)
Record types_PublicAccessBlockConfiguration : Type := {
  BlockPublicAcls : option bool;
  BlockPublicPolicy : option bool;
  IgnorePublicAcls : option bool;
  RestrictPublicBuckets : option bool
}.

Record GetPublicAccessBlockOutput : Type := {
  PublicAccessBlockConfiguration : option types_PublicAccessBlockConfiguration
}.

(** The SDK's answer to [GetBucketPolicy]; the source reads [*policy.Policy]
    without a test, so the field is the string the pointer holds. *)
Record GetBucketPolicyOutput : Type := { Policy : string }.

(** ** Calls to the outside and programs over them *)

(** What the checker asks of the world, indexed by the type of the answer:
    the clock ([time.Now().UnixNano()]), a command run with its combined
    output collected or without ([cmd.CombinedOutput()], [cmd.Run()]), the
    temporary file ([os.WriteFile], [os.Remove]), the two SDK operations,
    the pause between buckets ([time.Sleep]) and the result sink. *)
Inductive Call : Type -> Type :=
| Now : Call Z
| CombinedOutput (argv : list string) : Call (string * error)
| Run (argv : list string) : Call error
| WriteFile (name data : string) (perm : Z) : Call error
| Remove (name : string) : Call error
| GetPublicAccessBlock (bucket : string)
    : Call (GetPublicAccessBlockOutput * error)
| GetBucketPolicy (bucket : string) : Call (GetBucketPolicyOutput * error)
| Sleep (d : Z) : Call unit
| Callback (r : BucketResult) : Call unit.

(** A program is a finite tree: it returns, makes a call and goes on with
    the answer, or writes a line to standard error and goes on. *)
Inductive Prog (A : Type) : Type :=
| Ret (a : A)
| Vis {X : Type} (c : Call X) (k : X -> Prog A)
| Fprintf_Stderr (msg : string) (k : Prog A).

Arguments Ret {A} a.
Arguments Vis {A X} c k.
Arguments Fprintf_Stderr {A} msg k.

Fixpoint bind {A B : Type} (p : Prog A) (f : A -> Prog B) : Prog B :=
  match p with
  | Ret a => f a
  | Vis c k => Vis c (fun x => bind (k x) f)
  | Fprintf_Stderr msg k => Fprintf_Stderr msg (bind k f)
  end.

#[global] Instance Prog_ret : MRet Prog := @Ret.
#[global] Instance Prog_bind : MBind Prog := fun A B f p => bind p f.

Definition call {X : Type} (c : Call X) : Prog X := Vis c Ret.

(** [if c.verbose { fmt.Fprintf(os.Stderr, ...) }] *)
Definition verbosef (c : Checker) (msg : string) : Prog unit :=
  if verbose c then Fprintf_Stderr msg (Ret tt) else Ret tt.

(** [defer os.Remove(tmpFile)]: the file is removed when the rest of the
    function has produced its result; the outcome of the removal is
    dropped. *)
Definition defer_Remove {A : Type} (tmpFile : string) (body : Prog A)
    : Prog A :=
  a ← body; _ ← call (Remove tmpFile); mret a.

(** One entry of a trace: a call with the answer it got, or a line written
    to standard error. *)
Inductive Event : Type :=
| EvNow (t : Z)
| EvCombinedOutput (argv : list string) (output : string) (err : error)
| EvRun (argv : list string) (err : error)
| EvWriteFile (name data : string) (perm : Z) (err : error)
| EvRemove (name : string) (err : error)
| EvGetPublicAccessBlock (bucket : string)
    (out : GetPublicAccessBlockOutput) (err : error)
| EvGetBucketPolicy (bucket : string) (out : GetBucketPolicyOutput)
    (err : error)
| EvSleep (d : Z)
| EvCallback (r : BucketResult)
| EvStderr (msg : string).

Definition event_of {X : Type} (c : Call X) : X -> Event :=
  match c in Call X return X -> Event with
  | Now => fun t => EvNow t
  | CombinedOutput argv => fun r => EvCombinedOutput argv (fst r) (snd r)
  | Run argv => fun e => EvRun argv e
  | WriteFile name data perm => fun e => EvWriteFile name data perm e
  | Remove name => fun e => EvRemove name e
  | GetPublicAccessBlock b => fun r => EvGetPublicAccessBlock b (fst r) (snd r)
  | GetBucketPolicy b => fun r => EvGetBucketPolicy b (fst r) (snd r)
  | Sleep d => fun _ => EvSleep d
  | Callback r => fun _ => EvCallback r
  end.

(** A world answers every call from its state and moves to a new state.
    Lines on standard error do not reach it. *)
Record World : Type := {
  state : Type;
  handle : forall X : Type, Call X -> state -> X * state
}.

Fixpoint run (W : World) {A : Type} (p : Prog A) (w : state W)
    : A * state W * list Event :=
  match p with
  | Ret a => (a, w, [])
  | Vis c k =>
      let '(x, w1) := handle W _ c w in
      let '(a, w2, tr) := run W (k x) w1 in
      (a, w2, event_of c x :: tr)
  | Fprintf_Stderr msg k =>
      let '(a, w1, tr) := run W k w in
      (a, w1, EvStderr msg :: tr)
  end.

Definition result_of {A St : Type} (r : A * St * list Event) : A :=
  fst (fst r).

Definition trace_of {A St : Type} (r : A * St * list Event) : list Event :=
  snd r.

(** [observed W p w Q]: the run of [p] in world [W] from state [w] makes
    calls and returns a value that satisfy [Q]. *)
Definition observed (W : World) {A : Type} (p : Prog A) (w : state W)
    (Q : list Event -> A -> Prop) : Prop :=
  Q (trace_of (run W p w)) (result_of (run W p w)).

(** ** The checks whose text is the same in both sources *)

Definition checkGetACLWithContext (c : Checker) (bucketName : string)
    : Prog string :=
  '(output, err) ← call (CombinedOutput
      ["aws"; "s3api"; "get-bucket-acl"; "--bucket"; bucketName]);
  match err with
  | Some _ =>
      _ ← verbosef c ("[GET-ACL] " +:+ bucketName +:+ ": " +:+ output
                       +:+ newline);
      let errStr := output in
      if Contains errStr "AccessDenied" || Contains errStr "403"
         || Contains errStr "Forbidden"
      then mret "DENIED"
      else mret "DENIED"
  | None => mret "OK"
  end.

Definition checkPutACLWithContext (c : Checker) (bucketName : string)
    : Prog string :=
  '(getOutput, err) ← call (CombinedOutput
      ["aws"; "s3api"; "get-bucket-acl"; "--bucket"; bucketName]);
  match err with
  | Some _ =>
      _ ← verbosef c ("[PUT-ACL] " +:+ bucketName +:+ " (get): "
                       +:+ getOutput +:+ newline);
      let errStr := getOutput in
      if Contains errStr "AccessDenied" || Contains errStr "403"
         || Contains errStr "Forbidden"
      then mret "DENIED"
      else mret "DENIED"
  | None =>
      now ← call Now;
      let tmpFile := "/tmp/acl-" +:+ bucketName +:+ "-" +:+ itoa now
                     +:+ ".json" in
      err ← call (WriteFile tmpFile getOutput 420);
      match err with
      | Some e =>
          _ ← verbosef c ("[PUT-ACL] " +:+ bucketName +:+ " (write temp): "
                           +:+ e +:+ newline);
          mret "DENIED"
      | None =>
          defer_Remove tmpFile (
            '(putOutput, err) ← call (CombinedOutput
                ["aws"; "s3api"; "put-bucket-acl"; "--bucket"; bucketName;
                 "--access-control-policy"; "file://" +:+ tmpFile]);
            match err with
            | Some _ =>
                _ ← verbosef c ("[PUT-ACL] " +:+ bucketName +:+ " (put): "
                                 +:+ putOutput +:+ newline);
                let errStr := putOutput in
                if Contains errStr "AccessDenied" || Contains errStr "403"
                   || Contains errStr "Forbidden"
                then mret "DENIED"
                else mret "DENIED"
            | None => mret "OK"
            end)
      end
  end.

Definition checkAuthGet (c : Checker) (bucketName : string) : Prog string :=
  now ← call Now;
  let testKey := "test-" +:+ itoa now in
  '(output, err) ← call (CombinedOutput
      ["aws"; "s3api"; "head-object"; "--bucket"; bucketName;
       "--key"; testKey]);
  match err with
  | Some _ =>
      let errStr := output in
      _ ← verbosef c ("[AUTH-GET] " +:+ bucketName +:+ ": " +:+ errStr
                       +:+ newline);
      if Contains errStr "NoSuchKey" || Contains errStr "404"
      then mret "OK"
      else if Contains errStr "AccessDenied" || Contains errStr "403"
              || Contains errStr "Forbidden"
      then mret "DENIED"
      else mret "DENIED"
  | None => mret "OK"
  end.

Definition checkAuthWrite (c : Checker) (bucketName : string)
    : Prog string :=
  now ← call Now;
  let testKey := "test-auth-write-" +:+ itoa now in
  now ← call Now;
  let tmpFile := "/tmp/test-" +:+ bucketName +:+ "-" +:+ itoa now in
  err ← call (WriteFile tmpFile "test" 420);
  match err with
  | Some e =>
      _ ← verbosef c ("[AUTH-WRITE] " +:+ bucketName +:+ " (write temp): "
                       +:+ e +:+ newline);
      mret "DENIED"
  | None =>
      defer_Remove tmpFile (
        '(output, err) ← call (CombinedOutput
            ["aws"; "s3api"; "put-object"; "--bucket"; bucketName;
             "--key"; testKey; "--body"; tmpFile]);
        match err with
        | Some _ =>
            _ ← verbosef c ("[AUTH-WRITE] " +:+ bucketName +:+ " (put): "
                             +:+ output +:+ newline);
            let errStr := output in
            if Contains errStr "AccessDenied" || Contains errStr "403"
               || Contains errStr "Forbidden"
            then mret "DENIED"
            else mret "DENIED"
        | None =>
            _ ← call (Run ["aws"; "s3api"; "delete-object"; "--bucket";
                           bucketName; "--key"; testKey]);
            mret "OK"
        end)
  end.

Definition checkAuthDel (c : Checker) (bucketName : string) : Prog string :=
  now ← call Now;
  let testKey := "test-auth-del-" +:+ itoa now in
  now ← call Now;
  let tmpFile := "/tmp/test-" +:+ bucketName +:+ "-" +:+ itoa now in
  err ← call (WriteFile tmpFile "test" 420);
  match err with
  | Some e =>
      _ ← verbosef c ("[AUTH-DEL] " +:+ bucketName +:+ " (write temp): "
                       +:+ e +:+ newline);
      mret "DENIED"
  | None =>
      defer_Remove tmpFile (
        '(putOutput, err) ← call (CombinedOutput
            ["aws"; "s3api"; "put-object"; "--bucket"; bucketName;
             "--key"; testKey; "--body"; tmpFile]);
        match err with
        | Some _ =>
            _ ← verbosef c ("[AUTH-DEL] " +:+ bucketName +:+ " (put): "
                             +:+ putOutput +:+ newline);
            let errStr := putOutput in
            if Contains errStr "AccessDenied" || Contains errStr "403"
               || Contains errStr "Forbidden"
            then mret "DENIED"
            else mret "DENIED"
        | None =>
            '(delOutput, err) ← call (CombinedOutput
                ["aws"; "s3api"; "delete-object"; "--bucket"; bucketName;
                 "--key"; testKey]);
            match err with
            | Some _ =>
                _ ← verbosef c ("[AUTH-DEL] " +:+ bucketName
                                 +:+ " (delete): " +:+ delOutput
                                 +:+ newline);
                let errStr := delOutput in
                if Contains errStr "AccessDenied" || Contains errStr "403"
                   || Contains errStr "Forbidden"
                then mret "DENIED"
                else mret "DENIED"
            | None => mret "OK"
            end
        end)
  end.

(** [func (c *Checker) checkGetACL(bucketName string) string], the check
    under the checker's own context *)
Definition checkGetACL (c : Checker) (bucketName : string) : Prog string :=
  checkGetACLWithContext c bucketName.

(** [func (c *Checker) checkPutACL(bucketName string) string] *)
Definition checkPutACL (c : Checker) (bucketName : string) : Prog string :=
  checkPutACLWithContext c bucketName.

(** ** The AWS CLI variant *)

Module Cli.

Definition checkBucketPolicyForAnonGet (c : Checker) (bucketName : string)
    : Prog string :=
  '(output, err) ← call (CombinedOutput
      ["aws"; "s3api"; "get-bucket-policy"; "--bucket"; bucketName]);
  match err with
  | Some _ =>
      _ ← verbosef c ("[ANON-GET] " +:+ bucketName +:+ " (policy): "
                       +:+ output +:+ newline);
      mret "DENIED"
  | None =>
      let policyStr := output in
      if Contains policyStr (quoted "Principal" +:+ ":" +:+ quoted "*")
         || Contains policyStr (quoted "Principal" +:+ ":{"
                                +:+ quoted "AWS" +:+ ":" +:+ quoted "*"
                                +:+ "}")
      then
        if Contains policyStr (quoted "s3:GetObject")
           || Contains policyStr (quoted "s3:Get*")
        then mret "OK"
        else mret "DENIED"
      else mret "DENIED"
  end.

Definition checkAnonGet (c : Checker) (bucketName : string)
    : Prog string :=
  now ← call Now;
  let testKey := "test-" +:+ itoa now in
  let probe : Prog string :=
    '(output, err) ← call (CombinedOutput
        ["aws"; "s3api"; "head-object"; "--bucket"; bucketName;
         "--key"; testKey; "--no-sign-request"]);
    match err with
    | Some _ =>
        let errStr := output in
        _ ← verbosef c ("[ANON-GET] " +:+ bucketName +:+ ": " +:+ errStr
                         +:+ newline);
        if Contains errStr "NoSuchKey" || Contains errStr "404"
        then mret "OK"
        else if Contains errStr "AccessDenied" || Contains errStr "403"
                || Contains errStr "Forbidden"
        then mret "DENIED"
        else checkBucketPolicyForAnonGet c bucketName
    | None => mret "OK"
    end in
  '(pabOutput, pabErr) ← call (CombinedOutput
      ["aws"; "s3api"; "get-public-access-block"; "--bucket"; bucketName]);
  match pabErr with
  | Some _ =>
      let errStr := pabOutput in
      _ ← (if verbose c
              && negb (Contains errStr "NoSuchPublicAccessBlockConfiguration")
           then Fprintf_Stderr ("[ANON-GET] " +:+ bucketName
                                +:+ " (public-access-block): " +:+ errStr
                                +:+ newline) (Ret tt)
           else Ret tt);
      probe
  | None =>
      let pabStr := pabOutput in
      if Contains pabStr (quoted "BlockPublicAcls" +:+ ": true")
         || Contains pabStr (quoted "BlockPublicPolicy" +:+ ": true")
         || Contains pabStr (quoted "IgnorePublicAcls" +:+ ": true")
         || Contains pabStr (quoted "RestrictPublicBuckets" +:+ ": true")
      then mret "DENIED"
      else probe
  end.

Definition checkAnonWrite (c : Checker) (bucketName : string)
    : Prog string :=
  let probe : Prog string :=
    now ← call Now;
    let testKey := "test-anon-write-" +:+ itoa now in
    now ← call Now;
    let tmpFile := "/tmp/test-" +:+ bucketName +:+ "-" +:+ itoa now in
    err ← call (WriteFile tmpFile "test" 420);
    match err with
    | Some e =>
        _ ← verbosef c ("[ANON-WRITE] " +:+ bucketName
                         +:+ " (write temp): " +:+ e +:+ newline);
        mret "DENIED"
    | None =>
        defer_Remove tmpFile (
          '(output, err) ← call (CombinedOutput
              ["aws"; "s3api"; "put-object"; "--bucket"; bucketName;
               "--key"; testKey; "--body"; tmpFile; "--no-sign-request"]);
          match err with
          | Some _ =>
              _ ← verbosef c ("[ANON-WRITE] " +:+ bucketName +:+ ": "
                               +:+ output +:+ newline);
              let errStr := output in
              if Contains errStr "AccessDenied" || Contains errStr "403"
                 || Contains errStr "Forbidden"
              then mret "DENIED"
              else mret "DENIED"
          | None =>
              _ ← call (Run ["aws"; "s3api"; "delete-object"; "--bucket";
                             bucketName; "--key"; testKey;
                             "--no-sign-request"]);
              mret "OK"
          end)
    end in
  '(pabOutput, pabErr) ← call (CombinedOutput
      ["aws"; "s3api"; "get-public-access-block"; "--bucket"; bucketName]);
  match pabErr with
  | Some _ =>
      let errStr := pabOutput in
      _ ← (if verbose c
              && negb (Contains errStr "NoSuchPublicAccessBlockConfiguration")
           then Fprintf_Stderr ("[ANON-WRITE] " +:+ bucketName
                                +:+ " (public-access-block): " +:+ errStr
                                +:+ newline) (Ret tt)
           else Ret tt);
      probe
  | None =>
      let pabStr := pabOutput in
      if Contains pabStr (quoted "BlockPublicAcls" +:+ ": true")
         || Contains pabStr (quoted "BlockPublicPolicy" +:+ ": true")
         || Contains pabStr (quoted "IgnorePublicAcls" +:+ ": true")
         || Contains pabStr (quoted "RestrictPublicBuckets" +:+ ": true")
      then mret "DENIED"
      else probe
  end.

Definition checkAnonDel (c : Checker) (bucketName : string)
    : Prog string :=
  let probe : Prog string :=
    now ← call Now;
    let testKey := "test-anon-del-" +:+ itoa now in
    now ← call Now;
    let tmpFile := "/tmp/test-" +:+ bucketName +:+ "-" +:+ itoa now in
    err ← call (WriteFile tmpFile "test" 420);
    match err with
    | Some e =>
        _ ← verbosef c ("[ANON-DEL] " +:+ bucketName +:+ " (write temp): "
                         +:+ e +:+ newline);
        mret "DENIED"
    | None =>
        defer_Remove tmpFile (
          '(putOutput, err) ← call (CombinedOutput
              ["aws"; "s3api"; "put-object"; "--bucket"; bucketName;
               "--key"; testKey; "--body"; tmpFile]);
          match err with
          | Some _ =>
              _ ← verbosef c ("[ANON-DEL] " +:+ bucketName
                               +:+ " (create test object): " +:+ putOutput
                               +:+ newline);
              mret "DENIED"
          | None =>
              '(delOutput, err) ← call (CombinedOutput
                  ["aws"; "s3api"; "delete-object"; "--bucket"; bucketName;
                   "--key"; testKey; "--no-sign-request"]);
              match err with
              | Some _ =>
                  _ ← verbosef c ("[ANON-DEL] " +:+ bucketName +:+ ": "
                                   +:+ delOutput +:+ newline);
                  _ ← call (Run ["aws"; "s3api"; "delete-object";
                                 "--bucket"; bucketName; "--key"; testKey]);
                  let errStr := delOutput in
                  if Contains errStr "AccessDenied" || Contains errStr "403"
                     || Contains errStr "Forbidden"
                  then mret "DENIED"
                  else mret "DENIED"
              | None => mret "OK"
              end
          end)
    end in
  '(pabOutput, pabErr) ← call (CombinedOutput
      ["aws"; "s3api"; "get-public-access-block"; "--bucket"; bucketName]);
  match pabErr with
  | Some _ =>
      let errStr := pabOutput in
      _ ← (if verbose c
              && negb (Contains errStr "NoSuchPublicAccessBlockConfiguration")
           then Fprintf_Stderr ("[ANON-DEL] " +:+ bucketName
                                +:+ " (public-access-block): " +:+ errStr
                                +:+ newline) (Ret tt)
           else Ret tt);
      probe
  | None =>
      let pabStr := pabOutput in
      if Contains pabStr (quoted "BlockPublicAcls" +:+ ": true")
         || Contains pabStr (quoted "BlockPublicPolicy" +:+ ": true")
         || Contains pabStr (quoted "IgnorePublicAcls" +:+ ": true")
         || Contains pabStr (quoted "RestrictPublicBuckets" +:+ ": true")
      then mret "DENIED"
      else probe
  end.

(** *** The driver: eight goroutines per bucket *)

(** [type checkResult struct] of [CheckBucketsStream] *)
Record checkResult : Type := { field : string; value : string }.

(** [go func() { defer wg.Done(); resultsChan <- checkResult{f, check} }()] *)
Definition goroutine (f : string) (check : Prog string) : Prog checkResult :=
  v ← check; mret {| field := f; value := v |}.

(** The eight goroutines in the order the source starts them; [None]
    will stand for one that has sent its result and is done. *)
Definition goroutines (c : Checker) (bucketName : string)
    : list (option (Prog checkResult)) :=
  [ Some (goroutine "GetACL" (checkGetACLWithContext c bucketName));
    Some (goroutine "PutACL" (checkPutACLWithContext c bucketName));
    Some (goroutine "AnonGet" (checkAnonGet c bucketName));
    Some (goroutine "AuthGet" (checkAuthGet c bucketName));
    Some (goroutine "AnonWrite" (checkAnonWrite c bucketName));
    Some (goroutine "AuthWrite" (checkAuthWrite c bucketName));
    Some (goroutine "AnonDel" (checkAnonDel c bucketName));
    Some (goroutine "AuthDel" (checkAuthDel c bucketName)) ].

(** The goroutines of one bucket while they run: what is left of each,
    the buffered channel, the world and the calls made so far. *)
Record Pool (W : World) : Type := {
  threads : list (option (Prog checkResult));
  resultsChan : list checkResult;
  world : state W;
  events : list Event
}.

Arguments threads {W} _.
Arguments resultsChan {W} _.
Arguments world {W} _.
Arguments events {W} _.

(** Goroutine [i] takes one step: its next call is answered, its next
    line is written, or, its check done, it sends the result on the
    channel (which has room for all eight) and ends.  A number that names
    no running goroutine changes nothing. *)
Definition step (W : World) (p : Pool W) (i : nat) : Pool W :=
  match threads p !! i with
  | Some (Some (Ret m)) =>
      {| threads := <[i := None]> (threads p);
         resultsChan := resultsChan p ++ [m];
         world := world p;
         events := events p |}
  | Some (Some (Vis c k)) =>
      let '(x, w1) := handle W _ c (world p) in
      {| threads := <[i := Some (k x)]> (threads p);
         resultsChan := resultsChan p;
         world := w1;
         events := events p ++ [event_of c x] |}
  | Some (Some (Fprintf_Stderr msg k)) =>
      {| threads := <[i := Some k]> (threads p);
         resultsChan := resultsChan p;
         world := world p;
         events := events p ++ [EvStderr msg] |}
  | _ => p
  end.

(** [wg.Wait()]: every goroutine still running is run to its end, in the
    order of the pool. *)
Fixpoint wait (W : World) (ts : list (option (Prog checkResult)))
    (chan : list checkResult) (w : state W) (tr : list Event)
    : list checkResult * state W * list Event :=
  match ts with
  | [] => (chan, w, tr)
  | None :: ts' => wait W ts' chan w tr
  | Some t :: ts' =>
      let '(m, w1, tr1) := run W t w in
      wait W ts' (chan ++ [m]) w1 (tr ++ tr1)
  end.

(** The goroutines run interleaved as the schedule [sched] says, one step
    of the named goroutine at a time; when the schedule is used up the
    rest runs to completion.  Every interleaving is the run of some
    schedule.  The result is the channel's content in the order sent. *)
Definition parallel (W : World) (sched : list nat)
    (ts : list (option (Prog checkResult))) (w : state W)
    : list checkResult * state W * list Event :=
  let p := fold_left (step W) sched
             {| threads := ts; resultsChan := []; world := w;
                events := [] |} in
  wait W (threads p) (resultsChan p) (world p) (events p).

(** The [switch res.field] of the collecting loop. *)
Definition store (result : BucketResult) (res : checkResult)
    : BucketResult :=
  let v := value res in
  if String.eqb (field res) "GetACL" then
    {| BucketName := BucketName result; GetACL := v;
       PutACL := PutACL result; AnonGet := AnonGet result;
       AuthGet := AuthGet result; AnonWrite := AnonWrite result;
       AuthWrite := AuthWrite result; AnonDel := AnonDel result;
       AuthDel := AuthDel result |}
  else if String.eqb (field res) "PutACL" then
    {| BucketName := BucketName result; GetACL := GetACL result;
       PutACL := v; AnonGet := AnonGet result;
       AuthGet := AuthGet result; AnonWrite := AnonWrite result;
       AuthWrite := AuthWrite result; AnonDel := AnonDel result;
       AuthDel := AuthDel result |}
  else if String.eqb (field res) "AnonGet" then
    {| BucketName := BucketName result; GetACL := GetACL result;
       PutACL := PutACL result; AnonGet := v;
       AuthGet := AuthGet result; AnonWrite := AnonWrite result;
       AuthWrite := AuthWrite result; AnonDel := AnonDel result;
       AuthDel := AuthDel result |}
  else if String.eqb (field res) "AuthGet" then
    {| BucketName := BucketName result; GetACL := GetACL result;
       PutACL := PutACL result; AnonGet := AnonGet result;
       AuthGet := v; AnonWrite := AnonWrite result;
       AuthWrite := AuthWrite result; AnonDel := AnonDel result;
       AuthDel := AuthDel result |}
  else if String.eqb (field res) "AnonWrite" then
    {| BucketName := BucketName result; GetACL := GetACL result;
       PutACL := PutACL result; AnonGet := AnonGet result;
       AuthGet := AuthGet result; AnonWrite := v;
       AuthWrite := AuthWrite result; AnonDel := AnonDel result;
       AuthDel := AuthDel result |}
  else if String.eqb (field res) "AuthWrite" then
    {| BucketName := BucketName result; GetACL := GetACL result;
       PutACL := PutACL result; AnonGet := AnonGet result;
       AuthGet := AuthGet result; AnonWrite := AnonWrite result;
       AuthWrite := v; AnonDel := AnonDel result;
       AuthDel := AuthDel result |}
  else if String.eqb (field res) "AnonDel" then
    {| BucketName := BucketName result; GetACL := GetACL result;
       PutACL := PutACL result; AnonGet := AnonGet result;
       AuthGet := AuthGet result; AnonWrite := AnonWrite result;
       AuthWrite := AuthWrite result; AnonDel := v;
       AuthDel := AuthDel result |}
  else if String.eqb (field res) "AuthDel" then
    {| BucketName := BucketName result; GetACL := GetACL result;
       PutACL := PutACL result; AnonGet := AnonGet result;
       AuthGet := AuthGet result; AnonWrite := AnonWrite result;
       AuthWrite := AuthWrite result; AnonDel := AnonDel result;
       AuthDel := v |}
  else result.

(** [for res := range resultsChan { switch res.field ... }] *)
Definition collect (chan : list checkResult) (result : BucketResult)
    : BucketResult :=
  fold_left store chan result.

(** [100 * time.Millisecond], a [time.Duration] in nanoseconds *)
Definition pause : Z := 100 * 1000000.

(** The loop of [CheckBucketsStream] from index [i] on; [len] is
    [len(bucketNames)] of the whole input and [scheds] holds one schedule
    for each bucket still to be probed. *)
Fixpoint CheckBucketsStream_from (W : World) (c : Checker) (len i : Z)
    (bucketNames : list string) (scheds : list (list nat)) (w : state W)
    : error * state W * list Event :=
  match bucketNames with
  | [] => (None, w, [])
  | bucketName :: rest =>
      let bucketName := TrimSpace bucketName in
      if String.eqb bucketName EmptyString
      then CheckBucketsStream_from W c len (i + 1) rest scheds w
      else
        let result :=
          {| BucketName := bucketName; GetACL := EmptyString;
             PutACL := EmptyString; AnonGet := EmptyString;
             AuthGet := EmptyString; AnonWrite := EmptyString;
             AuthWrite := EmptyString; AnonDel := EmptyString;
             AuthDel := EmptyString |} in
        let '(chan, w1, tr1) :=
          parallel W (hd [] scheds) (goroutines c bucketName) w in
        let result := collect chan result in
        let '(_, w2) := handle W _ (Callback result) w1 in
        let '(w3, tr3) :=
          if (i <? len - 1)%Z
          then let '(_, w3) := handle W _ (Sleep pause) w2 in
               (w3, [EvSleep pause])
          else (w2, []) in
        let '(e, w4, tr4) :=
          CheckBucketsStream_from W c len (i + 1) rest (tl scheds) w3 in
        (e, w4, tr1 ++ EvCallback result :: tr3 ++ tr4)
  end.

Definition CheckBucketsStream (W : World) (c : Checker)
    (bucketNames : list string) (scheds : list (list nat)) (w : state W)
    : error * state W * list Event :=
  CheckBucketsStream_from W c (Z.of_nat (length bucketNames)) 0
    bucketNames scheds w.


(** *** The batch driver *)

(** The loop of [CheckBuckets]; [results] is the slice built so far. *)
Fixpoint CheckBuckets_from (c : Checker) (bucketNames : list string)
    (results : list BucketResult) : Prog (list BucketResult * error) :=
  match bucketNames with
  | [] => mret (results, None)
  | bucketName :: rest =>
      getACL ← checkGetACL c bucketName;
      putACL ← checkPutACL c bucketName;
      anonGet ← checkAnonGet c bucketName;
      authGet ← checkAuthGet c bucketName;
      anonWrite ← checkAnonWrite c bucketName;
      authWrite ← checkAuthWrite c bucketName;
      anonDel ← checkAnonDel c bucketName;
      authDel ← checkAuthDel c bucketName;
      CheckBuckets_from c rest
        (results ++ [{| BucketName := bucketName; GetACL := getACL;
                        PutACL := putACL; AnonGet := anonGet;
                        AuthGet := authGet; AnonWrite := anonWrite;
                        AuthWrite := authWrite; AnonDel := anonDel;
                        AuthDel := authDel |}])
  end.

Definition CheckBuckets (c : Checker) (bucketNames : list string)
    : Prog (list BucketResult * error) :=
  CheckBuckets_from c bucketNames [].

(** *** Bucket discovery *)

(** [func NewChecker()]: the checker with [verbose] off and the error
    [nil]; it cannot fail. *)
Definition NewChecker : Checker * error := ({| verbose := false |}, None).

Definition ListAllBuckets (c : Checker) : Prog (list string * error) :=
  '(output, err) ← call (CombinedOutput
      ["aws"; "s3api"; "list-buckets"; "--query"; "Buckets[].Name";
       "--output"; "text"]);
  match err with
  | Some e => mret ([], Some ("error listing buckets: " +:+ e))
  | None => mret (Fields output, None)
  end.

End Cli.

(** ** The SDK variant *)

Module Sdk.

(** [p != nil && *p] for a flag of the public-access-block *)
Definition flagSet (p : option bool) : bool :=
  match p with
  | Some b => b
  | None => false
  end.

Definition checkBucketPolicyForAnonGet (c : Checker) (bucketName : string)
    : Prog string :=
  '(policy, err) ← call (GetBucketPolicy bucketName);
  match err with
  | Some e =>
      _ ← verbosef c ("[ANON-GET] " +:+ bucketName +:+ " (policy): "
                       +:+ e +:+ newline);
      mret "DENIED"
  | None =>
      let policyStr := Policy policy in
      if Contains policyStr (quoted "Principal" +:+ ":" +:+ quoted "*")
         || Contains policyStr (quoted "Principal" +:+ ":{"
                                +:+ quoted "AWS" +:+ ":" +:+ quoted "*"
                                +:+ "}")
      then
        if Contains policyStr (quoted "s3:GetObject")
           || Contains policyStr (quoted "s3:Get*")
        then mret "OK"
        else mret "DENIED"
      else mret "DENIED"
  end.

Definition checkAnonGet (c : Checker) (bucketName : string)
    : Prog string :=
  now ← call Now;
  let testKey := "test-" +:+ itoa now in
  let probe : Prog string :=
    '(output, err) ← call (CombinedOutput
        ["aws"; "s3api"; "head-object"; "--bucket"; bucketName;
         "--key"; testKey; "--no-sign-request"]);
    match err with
    | Some _ =>
        let errStr := output in
        _ ← verbosef c ("[ANON-GET] " +:+ bucketName +:+ ": " +:+ errStr
                         +:+ newline);
        if Contains errStr "NoSuchKey" || Contains errStr "404"
        then mret "OK"
        else if Contains errStr "AccessDenied" || Contains errStr "403"
                || Contains errStr "Forbidden"
        then mret "DENIED"
        else checkBucketPolicyForAnonGet c bucketName
    | None => mret "OK"
    end in
  '(pab, err) ← call (GetPublicAccessBlock bucketName);
  _ ← match err with
      | Some errStr =>
          if verbose c
          then if negb (Contains errStr
                          "NoSuchPublicAccessBlockConfiguration")
               then Fprintf_Stderr ("[ANON-GET] " +:+ bucketName
                                    +:+ " (public-access-block): "
                                    +:+ errStr +:+ newline) (Ret tt)
               else Ret tt
          else Ret tt
      | None => Ret tt
      end;
  match err, PublicAccessBlockConfiguration pab with
  | None, Some cfg =>
      if flagSet (BlockPublicAcls cfg) then mret "DENIED"
      else if flagSet (BlockPublicPolicy cfg) then mret "DENIED"
      else if flagSet (IgnorePublicAcls cfg) then mret "DENIED"
      else if flagSet (RestrictPublicBuckets cfg) then mret "DENIED"
      else probe
  | _, _ => probe
  end.

Definition checkAnonWrite (c : Checker) (bucketName : string)
    : Prog string :=
  let probe : Prog string :=
    now ← call Now;
    let testKey := "test-anon-write-" +:+ itoa now in
    now ← call Now;
    let tmpFile := "/tmp/test-" +:+ bucketName +:+ "-" +:+ itoa now in
    err ← call (WriteFile tmpFile "test" 420);
    match err with
    | Some e =>
        _ ← verbosef c ("[ANON-WRITE] " +:+ bucketName
                         +:+ " (write temp): " +:+ e +:+ newline);
        mret "DENIED"
    | None =>
        defer_Remove tmpFile (
          '(output, err) ← call (CombinedOutput
              ["aws"; "s3api"; "put-object"; "--bucket"; bucketName;
               "--key"; testKey; "--body"; tmpFile; "--no-sign-request"]);
          match err with
          | Some _ =>
              _ ← verbosef c ("[ANON-WRITE] " +:+ bucketName +:+ ": "
                               +:+ output +:+ newline);
              let errStr := output in
              if Contains errStr "AccessDenied" || Contains errStr "403"
                 || Contains errStr "Forbidden"
              then mret "DENIED"
              else mret "DENIED"
          | None =>
              _ ← call (Run ["aws"; "s3api"; "delete-object"; "--bucket";
                             bucketName; "--key"; testKey;
                             "--no-sign-request"]);
              mret "OK"
          end)
    end in
  '(pab, err) ← call (GetPublicAccessBlock bucketName);
  _ ← match err with
      | Some errStr =>
          if verbose c
          then if negb (Contains errStr
                          "NoSuchPublicAccessBlockConfiguration")
               then Fprintf_Stderr ("[ANON-WRITE] " +:+ bucketName
                                    +:+ " (public-access-block): "
                                    +:+ errStr +:+ newline) (Ret tt)
               else Ret tt
          else Ret tt
      | None => Ret tt
      end;
  match err, PublicAccessBlockConfiguration pab with
  | None, Some cfg =>
      if flagSet (BlockPublicAcls cfg) then mret "DENIED"
      else if flagSet (BlockPublicPolicy cfg) then mret "DENIED"
      else if flagSet (IgnorePublicAcls cfg) then mret "DENIED"
      else if flagSet (RestrictPublicBuckets cfg) then mret "DENIED"
      else probe
  | _, _ => probe
  end.

Definition checkAnonDel (c : Checker) (bucketName : string)
    : Prog string :=
  let probe : Prog string :=
    now ← call Now;
    let testKey := "test-anon-del-" +:+ itoa now in
    now ← call Now;
    let tmpFile := "/tmp/test-" +:+ bucketName +:+ "-" +:+ itoa now in
    err ← call (WriteFile tmpFile "test" 420);
    match err with
    | Some e =>
        _ ← verbosef c ("[ANON-DEL] " +:+ bucketName +:+ " (write temp): "
                         +:+ e +:+ newline);
        mret "DENIED"
    | None =>
        defer_Remove tmpFile (
          '(putOutput, err) ← call (CombinedOutput
              ["aws"; "s3api"; "put-object"; "--bucket"; bucketName;
               "--key"; testKey; "--body"; tmpFile]);
          match err with
          | Some _ =>
              _ ← verbosef c ("[ANON-DEL] " +:+ bucketName
                               +:+ " (create test object): " +:+ putOutput
                               +:+ newline);
              mret "DENIED"
          | None =>
              '(delOutput, err) ← call (CombinedOutput
                  ["aws"; "s3api"; "delete-object"; "--bucket"; bucketName;
                   "--key"; testKey; "--no-sign-request"]);
              match err with
              | Some _ =>
                  _ ← verbosef c ("[ANON-DEL] " +:+ bucketName +:+ ": "
                                   +:+ delOutput +:+ newline);
                  _ ← call (Run ["aws"; "s3api"; "delete-object";
                                 "--bucket"; bucketName; "--key"; testKey]);
                  let errStr := delOutput in
                  if Contains errStr "AccessDenied" || Contains errStr "403"
                     || Contains errStr "Forbidden"
                  then mret "DENIED"
                  else mret "DENIED"
              | None => mret "OK"
              end
          end)
    end in
  '(pab, err) ← call (GetPublicAccessBlock bucketName);
  _ ← match err with
      | Some errStr =>
          if verbose c
          then if negb (Contains errStr
                          "NoSuchPublicAccessBlockConfiguration")
               then Fprintf_Stderr ("[ANON-DEL] " +:+ bucketName
                                    +:+ " (public-access-block): "
                                    +:+ errStr +:+ newline) (Ret tt)
               else Ret tt
          else Ret tt
      | None => Ret tt
      end;
  match err, PublicAccessBlockConfiguration pab with
  | None, Some cfg =>
      if flagSet (BlockPublicAcls cfg) then mret "DENIED"
      else if flagSet (BlockPublicPolicy cfg) then mret "DENIED"
      else if flagSet (IgnorePublicAcls cfg) then mret "DENIED"
      else if flagSet (RestrictPublicBuckets cfg) then mret "DENIED"
      else probe
  | _, _ => probe
  end.

(** *** The driver: the eight checks one after the other *)

Fixpoint CheckBucketsStream (c : Checker) (bucketNames : list string)
    : Prog error :=
  match bucketNames with
  | [] => mret None
  | bucketName :: rest =>
      let bucketName := TrimSpace bucketName in
      if String.eqb bucketName EmptyString
      then CheckBucketsStream c rest
      else
        getACL ← checkGetACLWithContext c bucketName;
        putACL ← checkPutACLWithContext c bucketName;
        anonGet ← checkAnonGet c bucketName;
        authGet ← checkAuthGet c bucketName;
        anonWrite ← checkAnonWrite c bucketName;
        authWrite ← checkAuthWrite c bucketName;
        anonDel ← checkAnonDel c bucketName;
        authDel ← checkAuthDel c bucketName;
        _ ← call (Callback
               {| BucketName := bucketName; GetACL := getACL;
                  PutACL := putACL; AnonGet := anonGet;
                  AuthGet := authGet; AnonWrite := anonWrite;
                  AuthWrite := authWrite; AnonDel := anonDel;
                  AuthDel := authDel |});
        CheckBucketsStream c rest
  end.


(** *** The batch driver *)

(** The loop of [CheckBuckets]; [results] is the slice built so far. *)
Fixpoint CheckBuckets_from (c : Checker) (bucketNames : list string)
    (results : list BucketResult) : Prog (list BucketResult * error) :=
  match bucketNames with
  | [] => mret (results, None)
  | bucketName :: rest =>
      getACL ← checkGetACL c bucketName;
      putACL ← checkPutACL c bucketName;
      anonGet ← checkAnonGet c bucketName;
      authGet ← checkAuthGet c bucketName;
      anonWrite ← checkAnonWrite c bucketName;
      authWrite ← checkAuthWrite c bucketName;
      anonDel ← checkAnonDel c bucketName;
      authDel ← checkAuthDel c bucketName;
      CheckBuckets_from c rest
        (results ++ [{| BucketName := bucketName; GetACL := getACL;
                        PutACL := putACL; AnonGet := anonGet;
                        AuthGet := authGet; AnonWrite := anonWrite;
                        AuthWrite := authWrite; AnonDel := anonDel;
                        AuthDel := authDel |}])
  end.

Definition CheckBuckets (c : Checker) (bucketNames : list string)
    : Prog (list BucketResult * error) :=
  CheckBuckets_from c bucketNames [].

End Sdk.

(** ** The command [check] of [cmd/check.go], over the AWS CLI checker *)

Module Cmd.

Definition escape : string := String (ascii_of_nat 27) EmptyString.
Definition colorReset : string := escape +:+ "[0m".
Definition colorRed : string := escape +:+ "[31m".
Definition colorGreen : string := escape +:+ "[32m".

(** The package variables the flags set. *)
Record Flags : Type := {
  fromFile : string;
  fromStdin : bool;
  verbose : bool
}.

(** What the command holds while it runs: the package variable
    [maxBucketWidth] and what it has written to standard output. *)
Record Process : Type := { maxBucketWidth : Z; stdout : string }.

(** [fmt.Printf], the text being what the verbs make of the arguments *)
Definition fmt_Printf (text : string) (p : Process) : Process :=
  {| maxBucketWidth := maxBucketWidth p; stdout := stdout p +:+ text |}.

(** [fmt.Println(line)] *)
Definition fmt_Println (line : string) (p : Process) : Process :=
  fmt_Printf (line +:+ newline) p.

(** What a [bufio.Scanner] gives: the lines [scanner.Text()] shows while
    [scanner.Scan()] is true, and [scanner.Err()] at the end. *)
Record Scanner : Type := { Text : list string; Err : error }.

(** What the operating system answers: the standard input, the answer of
    [os.Stdin.Stat()] (the mode bits and the error) and of [os.Open]. *)
Record Os : Type := {
  Stdin : Scanner;
  Stdin_Stat : Z * error;
  Open : string -> Scanner * error
}.

(** The loop [for scanner.Scan() { ... }] of both readers. *)
Definition scan (scanner : Scanner) : list string * error :=
  (fold_left
     (fun buckets text =>
        let line := TrimSpace text in
        if negb (String.eqb line EmptyString)
        then buckets ++ [line]
        else buckets)
     (Text scanner) [],
   Err scanner).

Definition readFromStdin (os : Os) : list string * error :=
  scan (Stdin os).

(** The file is closed when the function returns ([defer file.Close()]);
    nothing here depends on it. *)
Definition readFromFile (os : Os) (filename : string)
    : list string * error :=
  let '(file, err) := Open os filename in
  match err with
  | Some e => ([], Some e)
  | None => scan file
  end.

(** [os.ModeCharDevice] *)
Definition ModeCharDevice : Z := Z.shiftl 1 21.

Definition isStdinPipe (os : Os) : bool :=
  let '(mode, err) := Stdin_Stat os in
  match err with
  | Some _ => false
  | None => (Z.land mode ModeCharDevice =? 0)%Z
  end.

Definition calculateMaxBucketWidth (buckets : list string) : Z :=
  fold_left
    (fun maxWidth bucket =>
       if (len bucket >? maxWidth)%Z then len bucket else maxWidth)
    buckets (len "BUCKET").

(** [strings.Repeat] panics on a negative count; [runCheck], the only
    caller, sets the width to 6 at least before it prints. *)
Definition printHeader (p : Process) : Process :=
  let p := fmt_Println EmptyString p in
  let p :=
    fmt_Printf (padStar (maxBucketWidth p) "BUCKET" +:+ " | "
           +:+ padString 8 "GET-ACL" +:+ " | "
           +:+ padString 8 "PUT-ACL" +:+ " | "
           +:+ padString 9 "ANON-GET" +:+ " | "
           +:+ padString 9 "AUTH-GET" +:+ " | "
           +:+ padString 10 "ANON-WRITE" +:+ " | "
           +:+ padString 10 "AUTH-WRITE" +:+ " | "
           +:+ padString 9 "ANON-DEL" +:+ " | "
           +:+ padString 9 "AUTH-DEL" +:+ newline) p in
  let separator :=
    Repeat "-" (maxBucketWidth p) +:+ "-+-"
    +:+ Repeat "-" 8 +:+ "-+-" +:+ Repeat "-" 8 +:+ "-+-"
    +:+ Repeat "-" 9 +:+ "-+-" +:+ Repeat "-" 9 +:+ "-+-"
    +:+ Repeat "-" 10 +:+ "-+-" +:+ Repeat "-" 10 +:+ "-+-"
    +:+ Repeat "-" 9 +:+ "-+-" +:+ Repeat "-" 9 in
  fmt_Println separator p.

Definition colorizeStatus (status : string) (width : Z) : string :=
  let color := if String.eqb status "OK" then colorGreen else colorRed in
  let padding := (width - len status)%Z in
  if (padding >? 0)%Z
  then color +:+ status +:+ Repeat " " padding +:+ colorReset
  else color +:+ status +:+ colorReset.

Definition printResult (result : BucketResult) (p : Process) : Process :=
  fmt_Printf (padStar (maxBucketWidth p) (BucketName result) +:+ " | "
         +:+ colorizeStatus (GetACL result) 8 +:+ " | "
         +:+ colorizeStatus (PutACL result) 8 +:+ " | "
         +:+ colorizeStatus (AnonGet result) 9 +:+ " | "
         +:+ colorizeStatus (AuthGet result) 9 +:+ " | "
         +:+ colorizeStatus (AnonWrite result) 10 +:+ " | "
         +:+ colorizeStatus (AuthWrite result) 10 +:+ " | "
         +:+ colorizeStatus (AnonDel result) 9 +:+ " | "
         +:+ colorizeStatus (AuthDel result) 9 +:+ newline) p.

Definition printLegend (p : Process) : Process :=
  let p := fmt_Println EmptyString p in
  let p := fmt_Println "Legend:" p in
  let p := fmt_Println "  ANON - Anonymous (unauthenticated) access" p in
  let p := fmt_Println "  AUTH - Authenticated access" p in
  fmt_Println EmptyString p.

(** The world of the command: the world [W] of the checker together with
    the process; the sink of the stream driver is [printResult], every
    other call goes to [W]. *)
Definition terminal (W : World) : World :=
  {| state := state W * Process;
     handle := fun X c s =>
       match c in Call X return X * (state W * Process) with
       | Callback result => (tt, (fst s, printResult result (snd s)))
       | c' => let '(x, w) := handle W _ c' (fst s) in (x, (w, snd s))
       end |}.

(** [maxBucketWidth = width] *)
Definition set_maxBucketWidth (width : Z) (p : Process) : Process :=
  {| maxBucketWidth := width; stdout := stdout p |}.

(** [runCheck]: one schedule of the goroutines for each bucket.  It
    returns the error, the world and the process it ends in and the calls
    it has made. *)
Definition runCheck (W : World) (fl : Flags) (args : list string) (os : Os)
    (scheds : list (list nat)) (s : state W * Process)
    : error * (state W * Process) * list Event :=
  let isStdinPipe := isStdinPipe os in
  (* the identifiers, or the error the command ends with *)
  let '(chosen, s, tr) :=
    if fromStdin fl then
      let '(buckets, err) := readFromStdin os in
      match err with
      | Some e => (inr (Errorf "error reading from stdin: " e), s, [])
      | None => (inl buckets, s, [])
      end
    else if negb (String.eqb (fromFile fl) EmptyString) then
      let '(buckets, err) := readFromFile os (fromFile fl) in
      match err with
      | Some e => (inr (Errorf "error reading from file: " e), s, [])
      | None => (inl buckets, s, [])
      end
    else if (Z.of_nat (length args) >? 0)%Z then (inl args, s, [])
    else if isStdinPipe then
      let '(buckets, err) := readFromStdin os in
      match err with
      | Some e => (inr (Errorf "error reading from stdin: " e), s, [])
      | None =>
          if (Z.of_nat (length buckets) =? 0)%Z
          then (inr (Some "no buckets provided via stdin"), s, [])
          else (inl buckets, s, [])
      end
    else
      let '(checker, err) := Cli.NewChecker in
      match err with
      | Some e => (inr (Errorf "error initializing checker: " e), s, [])
      | None =>
          let '(buckets, err, s, tr) :=
            run (terminal W) (Cli.ListAllBuckets checker) s in
          match err with
          | Some e => (inr (Errorf "error listing buckets: " e), s, tr)
          | None => (inl buckets, s, tr)
          end
      end in
  match chosen with
  | inr err => (err, s, tr)
  | inl buckets =>
      if (Z.of_nat (length buckets) =? 0)%Z
      then (Some "no buckets to check", s, tr)
      else
        let p := set_maxBucketWidth (calculateMaxBucketWidth buckets)
                   (snd s) in
        let p := if (maxBucketWidth p <? len "BUCKET")%Z
                 then set_maxBucketWidth (len "BUCKET") p
                 else p in
        let '(checker, err) := Cli.NewChecker in
        match err with
        | Some e =>
            (Errorf "error initializing checker: " e, (fst s, p), tr)
        | None =>
            let checker := SetVerbose checker (verbose fl) in
            let p := printHeader p in
            let '(err, s, tr') :=
              Cli.CheckBucketsStream (terminal W) checker buckets scheds
                (fst s, p) in
            match err with
            | Some e => (Errorf "error checking buckets: " e, s, tr ++ tr')
            | None => (None, (fst s, printLegend (snd s)), tr ++ tr')
            end
        end
  end.

End Cmd.

(** ** What is observed of a run *)

(** The two values of a verdict, as the source writes them. *)
Definition verdict (s : string) : Prop := s = "OK" \/ s = "DENIED".

Definition all_verdicts (r : BucketResult) : Prop :=
  verdict (GetACL r) /\ verdict (PutACL r) /\ verdict (AnonGet r)
  /\ verdict (AuthGet r) /\ verdict (AnonWrite r) /\ verdict (AuthWrite r)
  /\ verdict (AnonDel r) /\ verdict (AuthDel r).

Definition all_denied (r : BucketResult) : Prop :=
  GetACL r = "DENIED" /\ PutACL r = "DENIED" /\ AnonGet r = "DENIED"
  /\ AuthGet r = "DENIED" /\ AnonWrite r = "DENIED" /\ AuthWrite r = "DENIED"
  /\ AnonDel r = "DENIED" /\ AuthDel r = "DENIED".

(** The results handed to the sink, in the order handed over. *)
Fixpoint sink_calls (tr : list Event) : list BucketResult :=
  match tr with
  | [] => []
  | EvCallback r :: tr' => r :: sink_calls tr'
  | _ :: tr' => sink_calls tr'
  end.

(** The sink calls and the pauses of a trace, nothing else. *)
Fixpoint pacing (tr : list Event) : list Event :=
  match tr with
  | [] => []
  | EvCallback r :: tr' => EvCallback r :: pacing tr'
  | EvSleep d :: tr' => EvSleep d :: pacing tr'
  | _ :: tr' => pacing tr'
  end.

Definition is_sleep (ev : Event) : bool :=
  match ev with
  | EvSleep _ => true
  | _ => false
  end.

(** A call made by a check, as opposed to the driver's own two. *)
Definition probe_event (ev : Event) : Prop :=
  match ev with
  | EvSleep _ | EvCallback _ => False
  | _ => True
  end.

(** The trace without the lines written to standard error. *)
Fixpoint calls_only (tr : list Event) : list Event :=
  match tr with
  | [] => []
  | EvStderr _ :: tr' => calls_only tr'
  | ev :: tr' => ev :: calls_only tr'
  end.

(** The options of a command line hold the switch [--no-sign-request]:
    it stands where an option stands, not where the value of another
    option does (a bucket may have any name). *)
Fixpoint unsigned (options : list string) : bool :=
  match options with
  | [] => false
  | o :: rest =>
      if String.eqb o "--no-sign-request" then true
      else match rest with
           | [] => false
           | _ :: rest' => unsigned rest'
           end
  end.

(** A command line [aws s3api <op> ...] made without credentials. *)
Definition anonymous (argv : list string) : bool :=
  match argv with
  | _ :: _ :: _ :: options => unsigned options
  | _ => false
  end.

(** [aws s3api <op> ...] *)
Definition operation (op : string) (argv : list string) : bool :=
  match argv with
  | a :: b :: o :: _ =>
      String.eqb a "aws" && String.eqb b "s3api" && String.eqb o op
  | _ => false
  end.

(** An [aws] command run without credentials. *)
Definition anonymous_attempt (ev : Event) : bool :=
  match ev with
  | EvCombinedOutput argv _ _ => anonymous argv
  | EvRun argv _ => anonymous argv
  | _ => false
  end.

(** An [aws s3api <op>] command run without credentials, whatever came of
    it. *)
Definition anonymous_run (op : string) (ev : Event) : bool :=
  match ev with
  | EvCombinedOutput argv _ _ => anonymous argv && operation op argv
  | EvRun argv _ => anonymous argv && operation op argv
  | _ => false
  end.

(** The error texts the checks look for. *)
Definition notFoundSignal (errStr : string) : bool :=
  Contains errStr "NoSuchKey" || Contains errStr "404".

Definition deniedSignal (errStr : string) : bool :=
  Contains errStr "AccessDenied" || Contains errStr "403"
  || Contains errStr "Forbidden".

(** The public-access-block flags as [aws s3api get-public-access-block]
    prints them when set. *)
Definition flagPrinted (pabStr : string) : bool :=
  Contains pabStr (quoted "BlockPublicAcls" +:+ ": true")
  || Contains pabStr (quoted "BlockPublicPolicy" +:+ ": true")
  || Contains pabStr (quoted "IgnorePublicAcls" +:+ ": true")
  || Contains pabStr (quoted "RestrictPublicBuckets" +:+ ": true").

(** The flags of the SDK's configuration, read through their pointers. *)
Definition flagTrue (cfg : types_PublicAccessBlockConfiguration) : bool :=
  Sdk.flagSet (BlockPublicAcls cfg) || Sdk.flagSet (BlockPublicPolicy cfg)
  || Sdk.flagSet (IgnorePublicAcls cfg)
  || Sdk.flagSet (RestrictPublicBuckets cfg).

(** The two halves of the bucket-policy heuristic. *)
Definition wildcardPrincipal (policyStr : string) : bool :=
  Contains policyStr (quoted "Principal" +:+ ":" +:+ quoted "*")
  || Contains policyStr (quoted "Principal" +:+ ":{" +:+ quoted "AWS"
                         +:+ ":" +:+ quoted "*" +:+ "}").

Definition getObjectAction (policyStr : string) : bool :=
  Contains policyStr (quoted "s3:GetObject")
  || Contains policyStr (quoted "s3:Get*").

(** The identifiers the driver probes: the trimmed ones that are not
    empty. *)
Definition probed (bucketNames : list string) : list string :=
  List.filter (fun b => negb (String.eqb b EmptyString))
         (map TrimSpace bucketNames).

(** The simpler check of the refinement claim: it looks only at whether
    each call of the run succeeded, never at an error text. *)
Definition succeeded (ev : Event) : bool :=
  match ev with
  | EvCombinedOutput _ _ (Some _) => false
  | EvRun _ (Some _) => false
  | EvWriteFile _ _ _ (Some _) => false
  | EvRemove _ (Some _) => false
  | _ => true
  end.

Definition simple_verdict (tr : list Event) : string :=
  if forallb succeeded tr then "OK" else "DENIED".

(** The calls whose outcome the source drops: [cmd.Run()] of a cleanup
    command and the deferred [os.Remove]. *)
Definition outcome_dropped (ev : Event) : bool :=
  match ev with
  | EvRun _ _ => true
  | EvRemove _ _ => true
  | _ => false
  end.

Definition tested (tr : list Event) : list Event :=
  List.filter (fun ev => negb (outcome_dropped ev)) tr.

(** ** Worlds to run the checks in *)

(** A world that answers from a fixed script: every command line has its
    answer, and so have the file system and the two SDK operations; its
    state is the clock, which advances with every reading. *)
Record Script : Type := {
  exec : list string -> string * error;
  writeFile : error;
  removeFile : error;
  publicAccessBlock : GetPublicAccessBlockOutput * error;
  bucketPolicy : GetBucketPolicyOutput * error
}.

Definition scripted (s : Script) : World :=
  {| state := Z;
     handle := fun X c t =>
       match c in Call X return X * Z with
       | Now => (t, (t + 1)%Z)
       | CombinedOutput argv => (exec s argv, t)
       | Run argv => (snd (exec s argv), t)
       | WriteFile _ _ _ => (writeFile s, t)
       | Remove _ => (removeFile s, t)
       | GetPublicAccessBlock _ => (publicAccessBlock s, t)
       | GetBucketPolicy _ => (bucketPolicy s, t)
       | Sleep _ => (tt, t)
       | Callback _ => (tt, t)
       end |}.

Definition noConfiguration : GetPublicAccessBlockOutput :=
  {| PublicAccessBlockConfiguration := None |}.

(** Every command fails with the same text and so do the SDK operations;
    only the temporary file can be written. *)
Definition failing (text : string) : Script :=
  {| exec := fun _ => (text, Some "exit status 255");
     writeFile := None;
     removeFile := None;
     publicAccessBlock := (noConfiguration, Some text);
     bucketPolicy := ({| Policy := EmptyString |}, Some text) |}.

(** Every command succeeds and prints nothing. *)
Definition permissive : Script :=
  {| exec := fun _ => (EmptyString, None);
     writeFile := None;
     removeFile := None;
     publicAccessBlock := (noConfiguration, None);
     bucketPolicy := ({| Policy := EmptyString |}, None) |}.

(** The operations listed answer as given, every other command succeeds
    and prints nothing. *)
Fixpoint answer_of (answers : list (string * (string * error)))
    (argv : list string) : string * error :=
  match answers with
  | [] => (EmptyString, None)
  | (op, answer) :: rest =>
      if operation op argv then answer else answer_of rest argv
  end.

Definition answering (answers : list (string * (string * error)))
    : Script :=
  {| exec := answer_of answers;
     writeFile := None;
     removeFile := None;
     publicAccessBlock := (noConfiguration, None);
     bucketPolicy := ({| Policy := EmptyString |}, None) |}.

(** What [aws s3api get-public-access-block] prints for a bucket with
    public access blocked through ACLs. *)
Definition blockedOutput : string :=
  "{ " +:+ quoted "PublicAccessBlockConfiguration" +:+ ": { "
  +:+ quoted "BlockPublicAcls" +:+ ": true, "
  +:+ quoted "IgnorePublicAcls" +:+ ": false, "
  +:+ quoted "BlockPublicPolicy" +:+ ": false, "
  +:+ quoted "RestrictPublicBuckets" +:+ ": false } }".

(** A policy that lets everyone read the objects. *)
Definition publicReadPolicy : string :=
  "{" +:+ quoted "Statement" +:+ ":[{" +:+ quoted "Effect" +:+ ":"
  +:+ quoted "Allow" +:+ "," +:+ quoted "Principal" +:+ ":" +:+ quoted "*"
  +:+ "," +:+ quoted "Action" +:+ ":" +:+ quoted "s3:GetObject" +:+ "}]}".

Definition exitStatus : error := Some "exit status 254".

Definition notFoundText : string :=
  "An error occurred (404) when calling the HeadObject operation: Not Found".

Definition forbiddenText : string :=
  "An error occurred (403) when calling the HeadObject operation: Forbidden".

Definition unreachableText : string :=
  "Could not connect to the endpoint URL".

(** A denial whose text also holds the digits 404, here in the line that
    follows the error message. *)
Definition forbiddenText404 : string :=
  forbiddenText +:+ newline +:+ "request id 7E404A2C".

Definition deleteDeniedText : string :=
  "An error occurred (AccessDenied) when calling the DeleteObject operation: Access Denied".

(** The clock of every example starts here. *)
Definition epoch : Z := 0.

(** The bucket has public access blocked; everything else succeeds. *)
Definition blockedWorld : World :=
  scripted (answering [("get-public-access-block", (blockedOutput, None))]).

(** Reading an object is forbidden; everything else succeeds. *)
Definition forbiddenWorld : World :=
  scripted (answering [("head-object", (forbiddenText, exitStatus))]).

(** Reading an object is forbidden, in a text that holds 404 as well. *)
Definition forbidden404World : World :=
  scripted (answering [("head-object", (forbiddenText404, exitStatus))]).

(** The object read does not get through; the policy lets everyone read. *)
Definition fallbackWorld : World :=
  scripted (answering [("head-object", (unreachableText, exitStatus));
                       ("get-bucket-policy", (publicReadPolicy, None))]).

(** Deleting an object is denied, with or without credentials; everything
    else succeeds. *)
Definition deleteDeniedWorld : World :=
  scripted (answering [("delete-object", (deleteDeniedText, exitStatus))]).

(** Nothing gets through. *)
Definition unreachableWorld : World := scripted (failing unreachableText).

(** Everything succeeds. *)
Definition permissiveWorld : World := scripted permissive.

Definition quietly : Checker := {| verbose := false |}.
Definition verbosely : Checker := {| verbose := true |}.

(** ** Properties of programs that hold whatever the world answers *)

(** What the world may answer to a call. *)
Definition Answers : Type := forall X : Type, Call X -> X -> Prop.

(** No restriction: any answer to any call. *)
Definition any_answer : Answers := fun _ _ _ => True.

(** The world [W] only gives answers that [Ans] allows. *)
Definition answers_within (W : World) (Ans : Answers) : Prop :=
  forall (X : Type) (c : Call X) (w : state W), Ans X c (fst (handle W X c w)).

(** Nothing gets through: every command that is run fails, with a text
    that carries no not-found signal, and so does every SDK operation. *)
Definition unreachable : Answers :=
  fun X c =>
    match c in Call X return X -> Prop with
    | CombinedOutput _ => fun r => snd r <> None /\ notFoundSignal (fst r) = false
    | Run _ => fun e => e <> None
    | GetPublicAccessBlock _ => fun r => snd r <> None
    | GetBucketPolicy _ => fun r => snd r <> None
    | _ => fun _ => True
    end.

(** [always Ans p Q]: on every path through [p], whatever each call is
    answered within [Ans], the calls made and the value returned satisfy
    [Q]. *)
Fixpoint always {A : Type} (Ans : Answers) (p : Prog A)
    (Q : list Event -> A -> Prop) : Prop :=
  match p with
  | Ret a => Q [] a
  | Vis c k =>
      forall x, Ans _ c x ->
      always Ans (k x) (fun tr a => Q (event_of c x :: tr) a)
  | Fprintf_Stderr msg k =>
      always Ans k (fun tr a => Q (EvStderr msg :: tr) a)
  end.

(** [safe Ans P R p]: every call [p] can make, and every line it can
    write, satisfies [P], and every value it can return satisfies [R]. *)
Fixpoint safe {A : Type} (Ans : Answers) (P : Event -> Prop)
    (R : A -> Prop) (p : Prog A) : Prop :=
  match p with
  | Ret a => R a
  | Vis c k => forall x, Ans _ c x -> P (event_of c x) /\ safe Ans P R (k x)
  | Fprintf_Stderr msg k => P (EvStderr msg) /\ safe Ans P R k
  end.

(** [same_calls p q]: [p] and [q] make the same calls and return the same
    values; they may differ in what they write to standard error. *)
Inductive same_calls {A : Type} : Prog A -> Prog A -> Prop :=
| same_ret (a : A) : same_calls (Ret a) (Ret a)
| same_vis {X : Type} (c : Call X) (k1 k2 : X -> Prog A) :
    (forall x, same_calls (k1 x) (k2 x)) ->
    same_calls (Vis c k1) (Vis c k2)
| same_stderr_l (msg : string) (k p : Prog A) :
    same_calls k p -> same_calls (Fprintf_Stderr msg k) p
| same_stderr_r (msg : string) (p k : Prog A) :
    same_calls p k -> same_calls p (Fprintf_Stderr msg k).

(** ** The invariant of the goroutine pool *)

(** The field names of the eight goroutines, in the order of the pool. *)
Definition fields : list string :=
  ["GetACL"; "PutACL"; "AnonGet"; "AuthGet"; "AnonWrite"; "AuthWrite";
   "AnonDel"; "AuthDel"].

(** The field of a result by the name the goroutines use for it. *)
Definition get (f : string) (r : BucketResult) : string :=
  if String.eqb f "GetACL" then GetACL r
  else if String.eqb f "PutACL" then PutACL r
  else if String.eqb f "AnonGet" then AnonGet r
  else if String.eqb f "AuthGet" then AuthGet r
  else if String.eqb f "AnonWrite" then AnonWrite r
  else if String.eqb f "AuthWrite" then AuthWrite r
  else if String.eqb f "AnonDel" then AnonDel r
  else if String.eqb f "AuthDel" then AuthDel r
  else EmptyString.

(** What a goroutine may send for the field [f], its value being within
    [R]. *)
Definition sends (R : string -> Prop) (f : string) (m : Cli.checkResult)
    : Prop :=
  Cli.field m = f /\ R (Cli.value m).

(** The goroutine of field [f] is either still running, and then it makes
    only calls of a check and can only send a value within [R] for [f], or
    it is done and its result is on the channel. *)
Definition slot_ok (Ans : Answers) (R : string -> Prop)
    (chan : list Cli.checkResult) (f : string)
    (t : option (Prog Cli.checkResult)) : Prop :=
  match t with
  | Some t => safe Ans probe_event (sends R f) t
  | None => exists m, In m chan /\ Cli.field m = f
  end.

Definition chan_ok (R : string -> Prop) (chan : list Cli.checkResult)
    : Prop :=
  Forall (fun m => R (Cli.value m)) chan.

Definition pool_ok {W : World} (Ans : Answers) (R : string -> Prop)
    (fs : list string) (p : Cli.Pool W) : Prop :=
  Forall2 (slot_ok Ans R (Cli.resultsChan p)) fs (Cli.threads p)
  /\ chan_ok R (Cli.resultsChan p)
  /\ Forall probe_event (Cli.events p).

(** Every field of [fs] has a result on the channel. *)
Definition all_sent (fs : list string) (chan : list Cli.checkResult) : Prop :=
  Forall (fun f => exists m, In m chan /\ Cli.field m = f) fs.

(** All eight fields of a result are within [R]. *)
Definition all_within (R : string -> Prop) (r : BucketResult) : Prop :=
  R (GetACL r) /\ R (PutACL r) /\ R (AnonGet r) /\ R (AuthGet r)
  /\ R (AnonWrite r) /\ R (AuthWrite r) /\ R (AnonDel r) /\ R (AuthDel r).

Definition denied (s : string) : Prop := s = "DENIED".

(** The sink calls and pauses the driver is to make for the input from
    index [i] on, given the results it hands over: after each sink call a
    pause, unless the identifier was the last of the input. *)
Fixpoint paced (len i : Z) (bucketNames : list string)
    (results : list BucketResult) : list Event :=
  match bucketNames with
  | [] => []
  | bucketName :: rest =>
      if String.eqb (TrimSpace bucketName) EmptyString
      then paced len (i + 1) rest results
      else match results with
           | [] => []
           | r :: results' =>
               EvCallback r
               :: (if (i <? len - 1)%Z then [EvSleep Cli.pause] else [])
               ++ paced len (i + 1) rest results'
           end
  end.

(** ** The claims about single checks, as properties of a run *)

Definition pab_argv (b : string) : list string :=
  ["aws"; "s3api"; "get-public-access-block"; "--bucket"; b].

Definition policy_argv (b : string) : list string :=
  ["aws"; "s3api"; "get-bucket-policy"; "--bucket"; b].

Definition delete_argv (b key : string) : list string :=
  ["aws"; "s3api"; "delete-object"; "--bucket"; b; "--key"; key].

(** The public-access-block pre-check of the CLI variant: a fetch that
    succeeds and shows a flag set ends the check with DENIED and without an
    anonymous command; and the check never says OK without having made an
    anonymous command. *)
Definition short_circuits_cli (b : string) (tr : list Event) (v : string)
    : Prop :=
  (forall pabStr,
     In (EvCombinedOutput (pab_argv b) pabStr None) tr ->
     flagPrinted pabStr = true ->
     v = "DENIED" /\ existsb anonymous_attempt tr = false)
  /\ (v = "OK" -> existsb anonymous_attempt tr = true).

(** The same for the SDK variant, whose fetch yields the four flags. *)
Definition short_circuits_sdk (b : string) (tr : list Event) (v : string)
    : Prop :=
  (forall cfg,
     In (EvGetPublicAccessBlock b
           {| PublicAccessBlockConfiguration := Some cfg |} None) tr ->
     flagTrue cfg = true ->
     v = "DENIED" /\ existsb anonymous_attempt tr = false)
  /\ (v = "OK" -> existsb anonymous_attempt tr = true).

(** The probe of a GET check failed with the text [errStr]. *)
Definition probe_failed (errStr : string) (tr : list Event) : Prop :=
  exists argv e,
    In (EvCombinedOutput argv errStr (Some e)) tr
    /\ operation "head-object" argv = true.

(** The classification of a failed GET probe as the claim states it: a
    not-found signal gives OK, an authorization-denied signal DENIED. *)
Definition classifies_as_stated (tr : list Event) (v : string) : Prop :=
  forall errStr, probe_failed errStr tr ->
    (notFoundSignal errStr = true -> v = "OK")
    /\ (deniedSignal errStr = true -> v = "DENIED").

(** The classification the source makes: the not-found signal is looked
    for first. *)
Definition classifies (tr : list Event) (v : string) : Prop :=
  forall errStr, probe_failed errStr tr ->
    (notFoundSignal errStr = true -> v = "OK")
    /\ (notFoundSignal errStr = false -> deniedSignal errStr = true ->
        v = "DENIED").

(** The verdict of the bucket-policy heuristic. *)
Definition policy_verdict (policyStr : string) (err : error) : string :=
  match err with
  | Some _ => "DENIED"
  | None =>
      if wildcardPrincipal policyStr && getObjectAction policyStr
      then "OK" else "DENIED"
  end.

(** The fallback of the CLI variant: when the anonymous read failed with
    neither signal in its text, the policy is fetched with the caller's
    credentials and decides. *)
Definition falls_back_cli (b : string) (tr : list Event) (v : string)
    : Prop :=
  forall errStr, probe_failed errStr tr ->
    notFoundSignal errStr = false -> deniedSignal errStr = false ->
    anonymous (policy_argv b) = false
    /\ exists policyStr err,
         In (EvCombinedOutput (policy_argv b) policyStr err) tr
         /\ v = policy_verdict policyStr err.

Definition falls_back_sdk (b : string) (tr : list Event) (v : string)
    : Prop :=
  forall errStr, probe_failed errStr tr ->
    notFoundSignal errStr = false -> deniedSignal errStr = false ->
    exists policy err,
      In (EvGetBucketPolicy b policy err) tr
      /\ v = policy_verdict (Policy policy) err.

(** [followed ev Q tr]: the trace holds [ev] and, later, an event that
    satisfies [Q]. *)
Fixpoint followed (ev : Event) (Q : Event -> Prop) (tr : list Event)
    : Prop :=
  match tr with
  | [] => False
  | ev' :: tr' => (ev' = ev /\ Exists Q tr') \/ followed ev Q tr'
  end.

(** The two failure paths of AnonDel: a failed creation ends the check
    with DENIED and without an anonymous delete; a failed anonymous
    delete is followed by the caller's delete of the same object and ends
    the check with DENIED. *)
Definition anon_del_failures (b : string) (tr : list Event) (v : string)
    : Prop :=
  (forall argv out e,
     In (EvCombinedOutput argv out (Some e)) tr ->
     operation "put-object" argv = true ->
     v = "DENIED" /\ existsb (anonymous_run "delete-object") tr = false)
  /\ (forall key out e,
        In (EvCombinedOutput (delete_argv b key ++ ["--no-sign-request"])
              out (Some e)) tr ->
        v = "DENIED"
        /\ followed
             (EvCombinedOutput (delete_argv b key ++ ["--no-sign-request"])
                out (Some e))
             (fun ev => exists err, ev = EvRun (delete_argv b key) err) tr).

(** [verbose] does not show in what a check returns, in the calls it makes
    or in the state it leaves the world in. *)
Definition verbose_blind (check : Checker -> string -> Prog string) : Prop :=
  forall (W : World) (c : Checker) (b : string) (w : state W),
    let loud := run W (check (SetVerbose c true) b) w in
    let quiet := run W (check (SetVerbose c false) b) w in
    result_of loud = result_of quiet
    /\ snd (fst loud) = snd (fst quiet)
    /\ calls_only (trace_of loud) = calls_only (trace_of quiet).

(** The check agrees with the simpler one on all the calls of the run. *)
Definition simple_as_stated (check : Checker -> string -> Prog string)
    : Prop :=
  forall (W : World) (c : Checker) (b : string) (w : state W),
    result_of (run W (check c b) w)
    = simple_verdict (trace_of (run W (check c b) w)).

(** The check agrees with the simpler one on the calls whose outcome it
    looks at. *)
Definition simple_on_tested (check : Checker -> string -> Prog string)
    : Prop :=
  forall (W : World) (c : Checker) (b : string) (w : state W),
    result_of (run W (check c b) w)
    = simple_verdict (tested (trace_of (run W (check c b) w))).

(** ** Further properties of a run *)

(** The command line of an [aws] command of the trace, run either way. *)
Definition command_of (ev : Event) : option (list string) :=
  match ev with
  | EvCombinedOutput argv _ _ => Some argv
  | EvRun argv _ => Some argv
  | _ => None
  end.

(** The operations the checks use. *)
Definition s3api_operations : list string :=
  ["get-bucket-acl"; "put-bucket-acl"; "head-object"; "put-object";
   "delete-object"; "get-public-access-block"; "get-bucket-policy"].

(** A temporary file that was written is removed by the last call of the
    check, and no file is removed that was not written. *)
Definition tmp_file_removed (tr : list Event) : Prop :=
  (forall name data perm,
     In (EvWriteFile name data perm None) tr ->
     exists e, last tr = Some (EvRemove name e))
  /\ (forall name e,
        In (EvRemove name e) tr ->
        exists data perm, In (EvWriteFile name data perm None) tr).

(** The check touches no file. *)
Definition no_file_call (tr : list Event) : Prop :=
  forall ev, In ev tr ->
    match ev with
    | EvWriteFile _ _ _ _ | EvRemove _ _ => False
    | _ => True
    end.

Definition put_argv (b key body : string) : list string :=
  ["aws"; "s3api"; "put-object"; "--bucket"; b; "--key"; key; "--body"; body].

Definition is_delete (ev : Event) : bool :=
  match command_of ev with
  | Some argv => operation "delete-object" argv
  | None => false
  end.

(** A command that changes the bucket or its objects. *)
Definition is_mutation (ev : Event) : bool :=
  match command_of ev with
  | Some argv =>
      operation "put-object" argv || operation "delete-object" argv
      || operation "put-bucket-acl" argv
  | None => false
  end.

(** Every delete is of an object of [b] that the same check has put there
    before, successfully, with or without credentials. *)
Definition deletes_only_own (b : string) (tr : list Event) : Prop :=
  forall ev, In ev tr -> is_delete ev = true ->
    exists key body out put,
      (command_of ev = Some (delete_argv b key)
       \/ command_of ev = Some (delete_argv b key ++ ["--no-sign-request"]))
      /\ (put = put_argv b key body
          \/ put = put_argv b key body ++ ["--no-sign-request"])
      /\ followed (EvCombinedOutput put out None) (eq ev) tr.

(** Every object that was put is deleted, or at least a delete of it is
    tried, later in the same check. *)
Definition every_put_is_followed_by_delete (b : string) (tr : list Event)
    : Prop :=
  forall argv out,
    In (EvCombinedOutput argv out None) tr ->
    operation "put-object" argv = true ->
    exists key body,
      (argv = put_argv b key body
       \/ argv = put_argv b key body ++ ["--no-sign-request"])
      /\ followed (EvCombinedOutput argv out None)
           (fun ev =>
              command_of ev = Some (delete_argv b key)
              \/ command_of ev
                 = Some (delete_argv b key ++ ["--no-sign-request"])) tr.

Definition acl_argv (b : string) : list string :=
  ["aws"; "s3api"; "get-bucket-acl"; "--bucket"; b].

(** Whenever the ACL is written, what is written is the file that holds
    the very text the check has just read. *)
Definition writes_back_what_it_read (b : string) (tr : list Event) : Prop :=
  forall argv out err,
    In (EvCombinedOutput argv out err) tr ->
    operation "put-bucket-acl" argv = true ->
    exists acl tmpFile,
      argv = ["aws"; "s3api"; "put-bucket-acl"; "--bucket"; b;
              "--access-control-policy"; "file://" +:+ tmpFile]
      /\ followed (EvCombinedOutput (acl_argv b) acl None)
           (eq (EvWriteFile tmpFile acl 420 None)) tr
      /\ followed (EvWriteFile tmpFile acl 420 None)
           (eq (EvCombinedOutput argv out err)) tr.

(** Which commands go without credentials: exactly those [f] says. *)
Definition credentials_by (f : list string -> bool) (tr : list Event)
    : Prop :=
  forall ev argv, In ev tr -> command_of ev = Some argv ->
    anonymous argv = f argv.

(** In AnonDel only deletes go without credentials, and the test object is
    put with credentials. *)
Definition anon_del_credentials (tr : list Event) : Prop :=
  forall ev argv, In ev tr -> command_of ev = Some argv ->
    (anonymous argv = true -> operation "delete-object" argv = true)
    /\ (operation "put-object" argv = true -> anonymous argv = false).

(** A call that came back with an error. *)
Definition call_failed (ev : Event) : bool :=
  match ev with
  | EvCombinedOutput _ _ (Some _) => true
  | EvRun _ (Some _) => true
  | EvWriteFile _ _ _ (Some _) => true
  | EvRemove _ (Some _) => true
  | EvGetPublicAccessBlock _ _ (Some _) => true
  | EvGetBucketPolicy _ _ (Some _) => true
  | _ => false
  end.

(** Nothing was written to standard error. *)
Definition silent (tr : list Event) : Prop := calls_only tr = tr.

(** The trace without the sink calls. *)
Fixpoint without_sink (tr : list Event) : list Event :=
  match tr with
  | [] => []
  | EvCallback _ :: tr' => without_sink tr'
  | ev :: tr' => ev :: without_sink tr'
  end.

(** The sink leaves the world as it is. *)
Definition sink_is_inert (W : World) : Prop :=
  forall (r : BucketResult) (w : state W),
    snd (handle W unit (Callback r) w) = w.

(** An identifier the stream driver takes as it is. *)
Definition clean (b : string) : Prop :=
  TrimSpace b = b /\ b <> EmptyString.

(** What the batch driver returns when it started with [results], given
    that its checks return values within [R]: no error, and [results]
    with one result for each identifier appended, under the name as
    given. *)
Definition batch_ok (R : string -> Prop) (bucketNames : list string)
    (results : list BucketResult) (tr : list Event)
    (res : list BucketResult * error) : Prop :=
  snd res = None
  /\ Forall probe_event tr
  /\ exists new,
       fst res = results ++ new
       /\ map BucketName new = bucketNames
       /\ Forall (all_within R) new.

(** The run [b] of the batch driver, started with [results], hands back
    what the run [s] of the stream driver gives to the sink, makes the same
    calls and ends in the same state. *)
Definition batch_of_stream {St : Type} (results : list BucketResult)
    (s : error * St * list Event)
    (b : list BucketResult * error * St * list Event) : Prop :=
  fst (result_of b) = results ++ sink_calls (trace_of s)
  /\ snd (result_of b) = result_of s
  /\ trace_of b = without_sink (trace_of s)
  /\ snd (fst b) = snd (fst s).

(** [in_every_run check Q]: in every world, with [verbose] on or off and
    for every bucket [b], the calls the check makes and the verdict it
    returns satisfy [Q b]. *)
Definition in_every_run (check : Checker -> string -> Prog string)
    (Q : string -> list Event -> string -> Prop) : Prop :=
  forall (W : World) (c : Checker) (b : string) (w : state W),
    observed W (check c b) w (Q b).

(** With [verbose] off the check writes nothing to standard error. *)
Definition quiet_is_silent (check : Checker -> string -> Prog string)
    : Prop :=
  forall (W : World) (c : Checker) (b : string) (w : state W),
    silent (trace_of (run W (check (SetVerbose c false) b) w)).

(** The seven staging checks and the four that touch no file, of either
    variant. *)
Definition staging_checks : list (Checker -> string -> Prog string) :=
  [checkPutACLWithContext; checkAuthWrite; checkAuthDel; Cli.checkAnonWrite;
   Cli.checkAnonDel; Sdk.checkAnonWrite; Sdk.checkAnonDel].

Definition read_checks : list (Checker -> string -> Prog string) :=
  [checkGetACLWithContext; checkAuthGet; Cli.checkAnonGet; Sdk.checkAnonGet].

Definition all_checks : list (Checker -> string -> Prog string) :=
  read_checks ++ staging_checks.

(** The checks that use the caller's credentials throughout. *)
Definition authenticated_checks
    : list (Checker -> string -> Prog string) :=
  [checkGetACLWithContext; checkPutACLWithContext; checkAuthGet;
   checkAuthWrite; checkAuthDel].

(** A run in which no call failed wrote nothing to standard error. *)
Definition silent_unless_failed (tr : list Event) : Prop :=
  existsb call_failed tr = false -> silent tr.

(** ** The command *)

(** What [calculateMaxBucketWidth] returns for [buckets]: the greatest
    length in bytes among the word BUCKET and the identifiers. *)
Definition greatest_width (buckets : list string) (w : Z) : Prop :=
  (len "BUCKET" <= w)%Z
  /\ Forall (fun b => (len b <= w)%Z) buckets
  /\ (w = len "BUCKET" \/ Exists (fun b => w = len b) buckets).

(** The process after the calls of a trace, the sink being [printResult]:
    every sink call has written its row. *)
Definition printed (tr : list Event) (p : Cmd.Process) : Cmd.Process :=
  fold_left (fun p r => Cmd.printResult r p) (sink_calls tr) p.

(** *** The table on the terminal *)

(** The text as a terminal shows it: every colour sequence, from the
    escape byte to the letter m that ends it, is left out. *)
Fixpoint shown (inColour : bool) (s : string) : string :=
  match s with
  | EmptyString => EmptyString
  | String c s' =>
      if inColour then shown (negb (Ascii.eqb c "m")) s'
      else if Ascii.eqb c (ascii_of_nat 27) then shown true s'
      else String c (shown false s')
  end.

Definition visible (s : string) : string := shown false s.

(** A column mark: the bar of the header and of the rows, the plus of the
    separator. *)
Definition mark (c : ascii) : bool := Ascii.eqb c "|" || Ascii.eqb c "+".

(** The lines of a text (what follows the last line feed is the last
    line), each as the list that tells, byte by byte, where it has a
    column mark. *)
Fixpoint line_marks (s : string) : list (list bool) :=
  match s with
  | EmptyString => [[]]
  | String c s' =>
      if Ascii.eqb c (ascii_of_nat 10) then [] :: line_marks s'
      else match line_marks s' with
           | l :: ls => (mark c :: l) :: ls
           | [] => [[mark c]]
           end
  end.

(** The marks of a line of the table whose first column is [w] wide. *)
Definition layout (w : Z) : list bool :=
  replicate (Z.to_nat w) false
  ++ concat (map (fun n => [false; true; false] ++ replicate n false)
               [8; 8; 9; 9; 10; 10; 9; 9]).

(** A byte of plain ASCII that is no mark, escape or line feed. *)
Definition plain_byte (c : ascii) : bool :=
  Nat.ltb (nat_of_ascii c) 128 && negb (mark c)
  && negb (Ascii.eqb c (ascii_of_nat 27))
  && negb (Ascii.eqb c (ascii_of_nat 10)).

Definition plain (s : string) : Prop :=
  forallb plain_byte (list_ascii_of_string s) = true.

(** A result that fits a table whose first column is [w] wide. *)
Definition fits (w : Z) (r : BucketResult) : Prop :=
  all_verdicts r /\ plain (BucketName r) /\ (len (BucketName r) <= w)%Z.

(** What [printHeader] and then [printResult], once for each row, write
    when [maxBucketWidth] is [w]. *)
Definition table (w : Z) (rows : list BucketResult) : string :=
  Cmd.stdout
    (fold_left (fun p r => Cmd.printResult r p) rows
       (Cmd.printHeader
          {| Cmd.maxBucketWidth := w; Cmd.stdout := EmptyString |})).

(** The table is an empty line, the header, the separator and the rows,
    and all of them have their column marks in the same places. *)
Definition aligned (w : Z) (rows : list BucketResult) : Prop :=
  line_marks (visible (table w rows))
  = [] :: layout w :: layout w :: map (fun _ => layout w) rows ++ [[]].

(** *** Where the identifiers come from *)

Definition list_buckets_argv : list string :=
  ["aws"; "s3api"; "list-buckets"; "--query"; "Buckets[].Name"; "--output";
   "text"].

(** The identifiers the command checks, by the priority of [runCheck]:
    the flag for the standard input, the file, the arguments, a piped
    standard input, the listing (the first call of the trace). *)
Inductive chosen (fl : Cmd.Flags) (args : list string) (os : Cmd.Os)
    (tr : list Event) : list string -> Prop :=
| chosen_stdin_flag :
    Cmd.fromStdin fl = true ->
    chosen fl args os tr (fst (Cmd.readFromStdin os))
| chosen_file :
    Cmd.fromStdin fl = false -> Cmd.fromFile fl <> EmptyString ->
    chosen fl args os tr (fst (Cmd.readFromFile os (Cmd.fromFile fl)))
| chosen_args :
    Cmd.fromStdin fl = false -> Cmd.fromFile fl = EmptyString ->
    args <> [] ->
    chosen fl args os tr args
| chosen_pipe :
    Cmd.fromStdin fl = false -> Cmd.fromFile fl = EmptyString ->
    args = [] -> Cmd.isStdinPipe os = true ->
    chosen fl args os tr (fst (Cmd.readFromStdin os))
| chosen_listing (output : string) (rest : list Event) :
    Cmd.fromStdin fl = false -> Cmd.fromFile fl = EmptyString ->
    args = [] -> Cmd.isStdinPipe os = false ->
    tr = EvCombinedOutput list_buckets_argv output None :: rest ->
    chosen fl args os tr (Fields output).

(** A run of the command that ends with an error: the process is as it
    was (nothing written, the width not set), no bucket was probed, and
    the only call, if any, is the listing. *)
Definition ended_early {St : Type} (p0 : Cmd.Process)
    (r : error * (St * Cmd.Process) * list Event) : Prop :=
  snd (snd (fst r)) = p0
  /\ (trace_of r = []
      \/ exists output err,
           trace_of r = [EvCombinedOutput list_buckets_argv output err]).

(** A run of the command that ends without one: for the identifiers
    chosen, which are not none, it has set the width to the greatest
    length, written the header, a row for each sink call and the legend;
    the rows are for the identifiers that are not blank, trimmed, in
    order; each holds eight verdicts and a name no longer than the
    width. *)
Definition table_printed {St : Type} (fl : Cmd.Flags) (args : list string)
    (os : Cmd.Os) (p0 : Cmd.Process)
    (r : error * (St * Cmd.Process) * list Event) : Prop :=
  exists buckets,
    chosen fl args os (trace_of r) buckets
    /\ buckets <> []
    /\ snd (snd (fst r))
       = Cmd.printLegend
           (printed (trace_of r)
              (Cmd.printHeader
                 (Cmd.set_maxBucketWidth
                    (Cmd.calculateMaxBucketWidth buckets) p0)))
    /\ map BucketName (sink_calls (trace_of r)) = probed buckets
    /\ Forall all_verdicts (sink_calls (trace_of r))
    /\ Forall (fun res =>
                 (len (BucketName res)
                  <= Cmd.calculateMaxBucketWidth buckets)%Z)
         (sink_calls (trace_of r)).

Definition runCheck_outcome {St : Type} (fl : Cmd.Flags)
    (args : list string) (os : Cmd.Os) (p0 : Cmd.Process)
    (r : error * (St * Cmd.Process) * list Event) : Prop :=
  match result_of r with
  | Some _ => ended_early p0 r
  | None => table_printed fl args os p0 r
  end.

(** What a reader returns for what its scanner gives. *)
Definition reads (scanner : Cmd.Scanner) (r : list string * error) : Prop :=
  fst r = probed (Cmd.Text scanner)
  /\ snd r = Cmd.Err scanner
  /\ Forall clean (fst r).

(** What [ListAllBuckets] of the CLI source does: one listing command;
    on an error no identifier, else identifiers that are all clean. *)
Definition lists (tr : list Event) (r : list string * error) : Prop :=
  exists output err,
    tr = [EvCombinedOutput list_buckets_argv output err]
    /\ match err with
       | Some e => r = ([], Some ("error listing buckets: " +:+ e))
       | None => r = (Fields output, None) /\ Forall clean (Fields output)
       end.

(** What the command has done when it was given [args] and nothing else,
    and started with nothing written: it returns [nil]; the rows are for
    the arguments that are not blank, trimmed and in order; it has written
    the table for them and then the legend; and the table lines up. *)
Definition arguments_table {St : Type} (args : list string)
    (r : error * (St * Cmd.Process) * list Event) : Prop :=
  let rows := sink_calls (trace_of r) in
  let w := Cmd.calculateMaxBucketWidth args in
  result_of r = None
  /\ map BucketName rows = probed args
  /\ snd (snd (fst r))
     = Cmd.printLegend
         {| Cmd.maxBucketWidth := w; Cmd.stdout := table w rows |}
  /\ aligned w rows.

(** No flag set. *)
Definition noFlags : Cmd.Flags :=
  {| Cmd.fromFile := EmptyString; Cmd.fromStdin := false;
     Cmd.verbose := false |}.

(** A terminal for standard input, nothing to read and no file to open. *)
Definition atTerminal : Cmd.Os :=
  {| Cmd.Stdin := {| Cmd.Text := []; Cmd.Err := None |};
     Cmd.Stdin_Stat := (Cmd.ModeCharDevice, None);
     Cmd.Open := fun _ => ({| Cmd.Text := []; Cmd.Err := None |},
                           Some "no such file or directory") |}.

(** ** What the drivers touch *)

(** The call is about one of the buckets [names]: a command is
    [aws s3api <op> --bucket b ...] for one of the seven operations and
    such a bucket, an SDK operation names such a bucket.  The clock, the
    temporary file, the pause, the sink and standard error are about no
    bucket. *)
Definition about (names : list string) (ev : Event) : Prop :=
  match ev with
  | EvCombinedOutput argv _ _ | EvRun argv _ =>
      exists op b rest,
        argv = "aws" :: "s3api" :: op :: "--bucket" :: b :: rest
        /\ In op s3api_operations /\ In b names
  | EvGetPublicAccessBlock b _ _ | EvGetBucketPolicy b _ _ => In b names
  | _ => True
  end.

(** Every goroutine still running makes only calls within [P]. *)
Definition threads_safe {A : Type} (P : Event -> Prop)
    (ts : list (option (Prog A))) : Prop :=
  Forall (fun t => match t with
                   | Some p => safe any_answer P (fun _ => True) p
                   | None => True
                   end) ts.

(** * Proofs *)

(** ** The embedding on concrete inputs *)

Example Contains_examples :
  Contains "An error occurred (404)" "404" = true
  /\ Contains "Forbidden" "403" = false
  /\ Contains "abc" EmptyString = true
  /\ Contains "ab" "abc" = false.
Proof. repeat split; reflexivity. Qed.

Example TrimSpace_examples :
  TrimSpace "  bucket-a " = "bucket-a"
  /\ TrimSpace "  " = EmptyString
  /\ TrimSpace ("a b" +:+ newline) = "a b"
  /\ TrimSpace (String (ascii_of_nat 194) (String (ascii_of_nat 160) "x"))
     = "x".
Proof. repeat split; reflexivity. Qed.

Example itoa_examples :
  itoa 1730555404123456789 = "1730555404123456789" /\ itoa 0 = "0".
Proof. split; reflexivity. Qed.

Example anonymous_examples :
  anonymous ["aws"; "s3api"; "head-object"; "--bucket"; "b"; "--key"; "k";
             "--no-sign-request"] = true
  /\ anonymous ["aws"; "s3api"; "get-bucket-acl"; "--bucket";
                "--no-sign-request"] = false.
Proof. split; reflexivity. Qed.

(** AuthGet in a world that forbids the read, with [verbose] on. *)
Example checkAuthGet_forbidden :
  run forbiddenWorld (checkAuthGet verbosely "bucket-a") epoch
  = ("DENIED", 1%Z,
     [EvNow 0;
      EvCombinedOutput
        ["aws"; "s3api"; "head-object"; "--bucket"; "bucket-a"; "--key";
         "test-0"] forbiddenText exitStatus;
      EvStderr ("[AUTH-GET] bucket-a: " +:+ forbiddenText +:+ newline)]).
Proof. reflexivity. Qed.

(** The eight goroutines in a world where everything succeeds: the results
    arrive in the order the schedule lets the goroutines finish. *)
Example parallel_arrival_order :
  map Cli.field
    (fst (fst (Cli.parallel permissiveWorld [7; 7; 7; 0; 7; 7; 7; 7; 0]
                 (Cli.goroutines quietly "bucket-a") epoch)))
  = ["AuthDel"; "GetACL"; "PutACL"; "AnonGet"; "AuthGet"; "AnonWrite";
     "AuthWrite"; "AnonDel"].
Proof. vm_compute. reflexivity. Qed.

(** The goroutine driver on three identifiers, the second blank: two
    results, a pause after the first only. *)
Example Cli_driver_example :
  pacing
    (trace_of
       (Cli.CheckBucketsStream permissiveWorld quietly [" a "; " "; "b"]
          [[7; 7; 7; 0; 0]] epoch))
  = [EvCallback
       {| BucketName := "a"; GetACL := "OK"; PutACL := "OK";
          AnonGet := "OK"; AuthGet := "OK"; AnonWrite := "OK";
          AuthWrite := "OK"; AnonDel := "OK"; AuthDel := "OK" |};
     EvSleep 100000000;
     EvCallback
       {| BucketName := "b"; GetACL := "OK"; PutACL := "OK";
          AnonGet := "OK"; AuthGet := "OK"; AnonWrite := "OK";
          AuthWrite := "OK"; AnonDel := "OK"; AuthDel := "OK" |}].
Proof. vm_compute. reflexivity. Qed.

(** The pause goes by the index in the input: with a blank identifier at
    the end, the goroutine driver also pauses after the last bucket it
    probes. *)
Example Cli_driver_trailing_blank :
  map is_sleep
    (pacing
       (trace_of
          (Cli.CheckBucketsStream permissiveWorld quietly ["b"; " "] []
             epoch)))
  = [false; true].
Proof. vm_compute. reflexivity. Qed.

(** The sequential driver on the same input: the same two results and no
    pause. *)
Example Sdk_driver_example :
  pacing
    (trace_of
       (run permissiveWorld
          (Sdk.CheckBucketsStream quietly [" a "; " "; "b"]) epoch))
  = [EvCallback
       {| BucketName := "a"; GetACL := "OK"; PutACL := "OK";
          AnonGet := "OK"; AuthGet := "OK"; AnonWrite := "OK";
          AuthWrite := "OK"; AnonDel := "OK"; AuthDel := "OK" |};
     EvCallback
       {| BucketName := "b"; GetACL := "OK"; PutACL := "OK";
          AnonGet := "OK"; AuthGet := "OK"; AnonWrite := "OK";
          AuthWrite := "OK"; AnonDel := "OK"; AuthDel := "OK" |}].
Proof. vm_compute. reflexivity. Qed.


(** ** Programs against worlds *)

Lemma any_answer_within (W : World) : answers_within W any_answer.
Proof. intros X c w. exact I. Qed.

Lemma always_mono {A : Type} (Ans : Answers) (p : Prog A) :
  forall Q Q' : list Event -> A -> Prop,
  (forall tr a, Q tr a -> Q' tr a) -> always Ans p Q -> always Ans p Q'.
Proof.
  induction p as [a | X c k IH | msg k IH]; simpl; intros Q Q' HQ Hp.
  - auto.
  - intros x Hx. eapply IH; [| apply Hp, Hx]. simpl. auto.
  - eapply IH; [| apply Hp]. simpl. auto.
Qed.

Lemma always_bind {A B : Type} (Ans : Answers) (p : Prog A)
    (f : A -> Prog B) :
  forall Q : list Event -> B -> Prop,
  always Ans p (fun tr a => always Ans (f a) (fun tr' b => Q (tr ++ tr') b)) ->
  always Ans (bind p f) Q.
Proof.
  induction p as [a | X c k IH | msg k IH]; simpl; intros Q Hp.
  - exact Hp.
  - intros x Hx. apply IH. eapply always_mono; [| apply Hp, Hx].
    simpl. auto.
  - apply IH. eapply always_mono; [| apply Hp]. simpl. auto.
Qed.

(** What holds on every path holds of the run in any world that answers
    within [Ans]. *)
Lemma run_always (W : World) (Ans : Answers) {A : Type} (p : Prog A) :
  answers_within W Ans ->
  forall (Q : list Event -> A -> Prop) (w : state W),
  always Ans p Q -> Q (trace_of (run W p w)) (result_of (run W p w)).
Proof.
  intros HW.
  induction p as [a | X c k IH | msg k IH]; simpl; intros Q w Hp.
  - exact Hp.
  - pose proof (HW X c w) as Hx.
    destruct (handle W X c w) as [x w1]. simpl in Hx.
    specialize (IH x _ w1 (Hp x Hx)).
    destruct (run W (k x) w1) as [[a w2] tr]. exact IH.
  - specialize (IH _ w Hp).
    destruct (run W k w) as [[a w2] tr]. exact IH.
Qed.

Lemma run_always_any (W : World) {A : Type} (p : Prog A)
    (Q : list Event -> A -> Prop) (w : state W) :
  always any_answer p Q -> Q (trace_of (run W p w)) (result_of (run W p w)).
Proof. apply run_always, any_answer_within. Qed.

Lemma observed_always (W : World) {A : Type} (p : Prog A)
    (Q : list Event -> A -> Prop) (w : state W) :
  always any_answer p Q -> observed W p w Q.
Proof. apply run_always_any. Qed.

Lemma safe_bind {A B : Type} (Ans : Answers) (P : Event -> Prop)
    (R : A -> Prop) (R' : B -> Prop) (p : Prog A) (f : A -> Prog B) :
  safe Ans P R p -> (forall a, R a -> safe Ans P R' (f a)) ->
  safe Ans P R' (bind p f).
Proof.
  intros Hp Hf. induction p as [a | X c k IH | msg k IH]; simpl in *.
  - auto.
  - intros x Hx. destruct (Hp x Hx). split; auto.
  - destruct Hp. split; auto.
Qed.

Lemma safe_always {A : Type} (Ans : Answers) (P : Event -> Prop)
    (R : A -> Prop) (p : Prog A) :
  safe Ans P R p -> always Ans p (fun tr a => Forall P tr /\ R a).
Proof.
  induction p as [a | X c k IH | msg k IH]; simpl.
  - auto.
  - intros Hp x Hx. destruct (Hp x Hx) as [H1 H2].
    eapply always_mono; [| apply (IH x H2)].
    simpl. intros tr a [? ?]. split; auto.
  - intros [H1 H2]. eapply always_mono; [| apply (IH H2)].
    simpl. intros tr a [? ?]. split; auto.
Qed.

Lemma run_safe (W : World) (Ans : Answers) {A : Type} (P : Event -> Prop)
    (R : A -> Prop) (p : Prog A) (w : state W) :
  answers_within W Ans -> safe Ans P R p ->
  Forall P (trace_of (run W p w)) /\ R (result_of (run W p w)).
Proof.
  intros HW Hp. apply (run_always W Ans p HW _ w (safe_always Ans P R p Hp)).
Qed.

Lemma same_calls_bind {A B : Type} (p q : Prog A) (f g : A -> Prog B) :
  same_calls p q -> (forall a, same_calls (f a) (g a)) ->
  same_calls (bind p f) (bind q g).
Proof.
  intros Hpq Hfg. induction Hpq; simpl.
  - auto.
  - constructor. auto.
  - apply same_stderr_l. auto.
  - apply same_stderr_r. auto.
Qed.

(** Programs that make the same calls cannot be told apart by any world:
    same value, same final state, same calls with the same answers. *)
Lemma same_calls_run (W : World) {A : Type} (p q : Prog A) :
  same_calls p q ->
  forall w : state W,
  result_of (run W p w) = result_of (run W q w)
  /\ snd (fst (run W p w)) = snd (fst (run W q w))
  /\ calls_only (trace_of (run W p w)) = calls_only (trace_of (run W q w)).
Proof.
  induction 1 as [a | X c k1 k2 _ IH | msg k p _ IH | msg p k _ IH];
    intros w; simpl.
  - auto.
  - destruct (handle W X c w) as [x w1].
    specialize (IH x w1).
    destruct (run W (k1 x) w1) as [[a1 s1] t1].
    destruct (run W (k2 x) w1) as [[a2 s2] t2].
    unfold result_of, trace_of in *; simpl in *.
    destruct IH as (? & ? & IH). repeat split; auto.
    destruct c; simpl; f_equal; exact IH.
  - specialize (IH w).
    destruct (run W k w) as [[a1 s1] t1].
    destruct (run W p w) as [[a2 s2] t2]. exact IH.
  - specialize (IH w).
    destruct (run W p w) as [[a1 s1] t1].
    destruct (run W k w) as [[a2 s2] t2]. exact IH.
Qed.

(** ** The checks, whatever the world answers *)

(** Case analysis over the answers a check can get. *)
Ltac case_answer :=
  match goal with
  | |- context [match ?x with _ => _ end] => is_var x; destruct x
  | |- context [PublicAccessBlockConfiguration ?x] => is_var x; destruct x
  | |- context [if ?b then _ else _] => destruct b eqn:?
  end.

(** An answer is taken as it comes. *)
Ltac take_answer :=
  match goal with
  | |- forall x, any_answer _ _ x -> _ => intros ? _
  end.

Ltac explore :=
  repeat first [ progress cbn | take_answer | progress intros | case_answer ].

Ltac explore_safe :=
  repeat first
    [ progress cbn | take_answer | progress intros | split | case_answer ];
  try (unfold verdict; auto).

Ltac explore_same :=
  repeat first
    [ progress cbn
    | apply same_ret
    | apply same_stderr_l
    | apply same_vis; intros
    | case_answer ].

Lemma verdict_OK : verdict "OK".
Proof. left. reflexivity. Qed.

Lemma verdict_DENIED : verdict "DENIED".
Proof. right. reflexivity. Qed.

Create HintDb checks.

#[local] Hint Resolve verdict_OK verdict_DENIED : checks.

(** Every check makes only calls of its own and returns a verdict. *)
Lemma checkGetACLWithContext_safe c b :
  safe any_answer probe_event verdict (checkGetACLWithContext c b).
Proof. destruct c as [[|]]; unfold checkGetACLWithContext; explore_safe. Qed.

Lemma checkPutACLWithContext_safe c b :
  safe any_answer probe_event verdict (checkPutACLWithContext c b).
Proof. destruct c as [[|]]; unfold checkPutACLWithContext; explore_safe. Qed.

Lemma checkAuthGet_safe c b : safe any_answer probe_event verdict (checkAuthGet c b).
Proof. destruct c as [[|]]; unfold checkAuthGet; explore_safe. Qed.

Lemma checkAuthWrite_safe c b : safe any_answer probe_event verdict (checkAuthWrite c b).
Proof. destruct c as [[|]]; unfold checkAuthWrite; explore_safe. Qed.

Lemma checkAuthDel_safe c b : safe any_answer probe_event verdict (checkAuthDel c b).
Proof. destruct c as [[|]]; unfold checkAuthDel; explore_safe. Qed.

Lemma Cli_checkAnonGet_safe c b :
  safe any_answer probe_event verdict (Cli.checkAnonGet c b).
Proof.
  destruct c as [[|]];
    unfold Cli.checkAnonGet, Cli.checkBucketPolicyForAnonGet; explore_safe.
Qed.

Lemma Cli_checkAnonWrite_safe c b :
  safe any_answer probe_event verdict (Cli.checkAnonWrite c b).
Proof. destruct c as [[|]]; unfold Cli.checkAnonWrite; explore_safe. Qed.

Lemma Cli_checkAnonDel_safe c b :
  safe any_answer probe_event verdict (Cli.checkAnonDel c b).
Proof. destruct c as [[|]]; unfold Cli.checkAnonDel; explore_safe. Qed.

Lemma Sdk_checkAnonGet_safe c b :
  safe any_answer probe_event verdict (Sdk.checkAnonGet c b).
Proof.
  destruct c as [[|]];
    unfold Sdk.checkAnonGet, Sdk.checkBucketPolicyForAnonGet; explore_safe.
Qed.

Lemma Sdk_checkAnonWrite_safe c b :
  safe any_answer probe_event verdict (Sdk.checkAnonWrite c b).
Proof. destruct c as [[|]]; unfold Sdk.checkAnonWrite; explore_safe. Qed.

Lemma Sdk_checkAnonDel_safe c b :
  safe any_answer probe_event verdict (Sdk.checkAnonDel c b).
Proof. destruct c as [[|]]; unfold Sdk.checkAnonDel; explore_safe. Qed.

#[local] Hint Resolve checkGetACLWithContext_safe checkPutACLWithContext_safe
  checkAuthGet_safe checkAuthWrite_safe checkAuthDel_safe
  Cli_checkAnonGet_safe Cli_checkAnonWrite_safe Cli_checkAnonDel_safe
  Sdk_checkAnonGet_safe Sdk_checkAnonWrite_safe Sdk_checkAnonDel_safe
  : checks.

(** With and without [verbose], a check makes the same calls and returns
    the same value. *)
Lemma checkGetACLWithContext_same b :
  same_calls (checkGetACLWithContext verbosely b)
             (checkGetACLWithContext quietly b).
Proof. unfold checkGetACLWithContext; explore_same. Qed.

Lemma checkPutACLWithContext_same b :
  same_calls (checkPutACLWithContext verbosely b)
             (checkPutACLWithContext quietly b).
Proof. unfold checkPutACLWithContext; explore_same. Qed.

Lemma checkAuthGet_same b :
  same_calls (checkAuthGet verbosely b) (checkAuthGet quietly b).
Proof. unfold checkAuthGet; explore_same. Qed.

Lemma checkAuthWrite_same b :
  same_calls (checkAuthWrite verbosely b) (checkAuthWrite quietly b).
Proof. unfold checkAuthWrite; explore_same. Qed.

Lemma checkAuthDel_same b :
  same_calls (checkAuthDel verbosely b) (checkAuthDel quietly b).
Proof. unfold checkAuthDel; explore_same. Qed.

Lemma Cli_checkAnonGet_same b :
  same_calls (Cli.checkAnonGet verbosely b) (Cli.checkAnonGet quietly b).
Proof.
  unfold Cli.checkAnonGet, Cli.checkBucketPolicyForAnonGet; explore_same.
Qed.

Lemma Cli_checkAnonWrite_same b :
  same_calls (Cli.checkAnonWrite verbosely b) (Cli.checkAnonWrite quietly b).
Proof. unfold Cli.checkAnonWrite; explore_same. Qed.

Lemma Cli_checkAnonDel_same b :
  same_calls (Cli.checkAnonDel verbosely b) (Cli.checkAnonDel quietly b).
Proof. unfold Cli.checkAnonDel; explore_same. Qed.

Lemma Sdk_checkAnonGet_same b :
  same_calls (Sdk.checkAnonGet verbosely b) (Sdk.checkAnonGet quietly b).
Proof.
  unfold Sdk.checkAnonGet, Sdk.checkBucketPolicyForAnonGet; explore_same.
Qed.

Lemma Sdk_checkAnonWrite_same b :
  same_calls (Sdk.checkAnonWrite verbosely b) (Sdk.checkAnonWrite quietly b).
Proof. unfold Sdk.checkAnonWrite; explore_same. Qed.

Lemma Sdk_checkAnonDel_same b :
  same_calls (Sdk.checkAnonDel verbosely b) (Sdk.checkAnonDel quietly b).
Proof. unfold Sdk.checkAnonDel; explore_same. Qed.

(** When nothing gets through, every check returns DENIED. *)
Ltac explore_unreachable :=
  repeat first
    [ progress cbn in *
    | progress intros
    | match goal with
      | H : _ /\ _ |- _ => destruct H
      | H : None <> None |- _ => contradiction H; reflexivity
      | H : notFoundSignal ?s = false |- _ =>
          unfold notFoundSignal in H; rewrite H
      | |- _ /\ _ => split
      | |- denied _ => reflexivity
      | |- True => exact I
      end
    | case_answer ].

Lemma checkGetACLWithContext_unreachable c b :
  safe unreachable probe_event denied (checkGetACLWithContext c b).
Proof.
  destruct c as [[|]]; unfold checkGetACLWithContext; explore_unreachable.
Qed.

Lemma checkPutACLWithContext_unreachable c b :
  safe unreachable probe_event denied (checkPutACLWithContext c b).
Proof.
  destruct c as [[|]]; unfold checkPutACLWithContext; explore_unreachable.
Qed.

Lemma checkAuthGet_unreachable c b :
  safe unreachable probe_event denied (checkAuthGet c b).
Proof. destruct c as [[|]]; unfold checkAuthGet; explore_unreachable. Qed.

Lemma checkAuthWrite_unreachable c b :
  safe unreachable probe_event denied (checkAuthWrite c b).
Proof. destruct c as [[|]]; unfold checkAuthWrite; explore_unreachable. Qed.

Lemma checkAuthDel_unreachable c b :
  safe unreachable probe_event denied (checkAuthDel c b).
Proof. destruct c as [[|]]; unfold checkAuthDel; explore_unreachable. Qed.

Lemma Cli_checkAnonGet_unreachable c b :
  safe unreachable probe_event denied (Cli.checkAnonGet c b).
Proof.
  destruct c as [[|]];
    unfold Cli.checkAnonGet, Cli.checkBucketPolicyForAnonGet;
    explore_unreachable.
Qed.

Lemma Cli_checkAnonWrite_unreachable c b :
  safe unreachable probe_event denied (Cli.checkAnonWrite c b).
Proof. destruct c as [[|]]; unfold Cli.checkAnonWrite; explore_unreachable. Qed.

Lemma Cli_checkAnonDel_unreachable c b :
  safe unreachable probe_event denied (Cli.checkAnonDel c b).
Proof. destruct c as [[|]]; unfold Cli.checkAnonDel; explore_unreachable. Qed.

Lemma Sdk_checkAnonGet_unreachable c b :
  safe unreachable probe_event denied (Sdk.checkAnonGet c b).
Proof.
  destruct c as [[|]];
    unfold Sdk.checkAnonGet, Sdk.checkBucketPolicyForAnonGet;
    explore_unreachable.
Qed.

Lemma Sdk_checkAnonWrite_unreachable c b :
  safe unreachable probe_event denied (Sdk.checkAnonWrite c b).
Proof. destruct c as [[|]]; unfold Sdk.checkAnonWrite; explore_unreachable. Qed.

Lemma Sdk_checkAnonDel_unreachable c b :
  safe unreachable probe_event denied (Sdk.checkAnonDel c b).
Proof. destruct c as [[|]]; unfold Sdk.checkAnonDel; explore_unreachable. Qed.

#[local] Hint Resolve checkGetACLWithContext_unreachable
  checkPutACLWithContext_unreachable checkAuthGet_unreachable
  checkAuthWrite_unreachable checkAuthDel_unreachable
  Cli_checkAnonGet_unreachable Cli_checkAnonWrite_unreachable
  Cli_checkAnonDel_unreachable Sdk_checkAnonGet_unreachable
  Sdk_checkAnonWrite_unreachable Sdk_checkAnonDel_unreachable : checks.

(** ** Traces *)

Lemma sink_calls_app tr1 tr2 :
  sink_calls (tr1 ++ tr2) = sink_calls tr1 ++ sink_calls tr2.
Proof.
  induction tr1 as [| ev tr1 IH]; simpl; [reflexivity |].
  destruct ev; simpl; rewrite ?IH; reflexivity.
Qed.

Lemma pacing_app tr1 tr2 : pacing (tr1 ++ tr2) = pacing tr1 ++ pacing tr2.
Proof.
  induction tr1 as [| ev tr1 IH]; simpl; [reflexivity |].
  destruct ev; simpl; rewrite ?IH; reflexivity.
Qed.

Lemma probe_events_no_sink tr : Forall probe_event tr -> sink_calls tr = [].
Proof.
  induction 1 as [| ev tr Hev _ IH]; simpl; [reflexivity |].
  destruct ev; simpl in *; auto; contradiction.
Qed.

Lemma probe_events_no_pacing tr : Forall probe_event tr -> pacing tr = [].
Proof.
  induction 1 as [| ev tr Hev _ IH]; simpl; [reflexivity |].
  destruct ev; simpl in *; auto; contradiction.
Qed.

Lemma probe_events_no_sleep tr :
  Forall probe_event tr -> existsb is_sleep tr = false.
Proof.
  induction 1 as [| ev tr Hev _ IH]; simpl; [reflexivity |].
  destruct ev; simpl in *; auto; contradiction.
Qed.

(** ** The goroutines of one bucket *)

Section Pool.

Variable W : World.
Variable Ans : Answers.
Variable R : string -> Prop.
Hypothesis W_within : answers_within W Ans.

Lemma goroutine_safe f check :
  safe Ans probe_event R check ->
  safe Ans probe_event (sends R f) (Cli.goroutine f check).
Proof.
  intros H. unfold Cli.goroutine. eapply safe_bind; [exact H |].
  intros v Hv. simpl. split; [reflexivity | exact Hv].
Qed.

Lemma slot_ok_mono chan chan' f t :
  incl chan chan' -> slot_ok Ans R chan f t -> slot_ok Ans R chan' f t.
Proof.
  intros Hincl. destruct t as [t |]; simpl; [auto |].
  intros (m & Hm & Hf). exists m. split; auto.
Qed.

Lemma slots_ok_mono chan chan' fs ts :
  incl chan chan' ->
  Forall2 (slot_ok Ans R chan) fs ts -> Forall2 (slot_ok Ans R chan') fs ts.
Proof.
  intros Hincl H. eapply Forall2_impl; [exact H |].
  intros f t. apply slot_ok_mono, Hincl.
Qed.

Lemma slots_ok_insert chan fs ts i f t :
  fs !! i = Some f -> slot_ok Ans R chan f t ->
  Forall2 (slot_ok Ans R chan) fs ts ->
  Forall2 (slot_ok Ans R chan) fs (<[i := t]> ts).
Proof.
  intros Hf Ht H.
  rewrite <- (list_insert_id fs i f Hf).
  apply Forall2_insert; assumption.
Qed.

(** One step of any goroutine keeps the pool in order. *)
Lemma step_ok fs (p : Cli.Pool W) i :
  pool_ok Ans R fs p -> pool_ok Ans R fs (Cli.step W p i).
Proof.
  intros (Hts & Hchan & Hev). unfold Cli.step.
  destruct (Cli.threads p !! i) as [[[m | X c k | msg k] |] |] eqn:Hi;
    try (split; [| split]; assumption).
  - destruct (Forall2_lookup_r _ _ _ _ _ Hts Hi) as (f & Hf & [Hfm Hvm]).
    split; [| split]; simpl.
    + apply slots_ok_insert with (f := f); [exact Hf | |].
      * exists m. split; [| exact Hfm].
        apply in_or_app. right. left. reflexivity.
      * apply slots_ok_mono with (chan := Cli.resultsChan p); [| exact Hts].
        apply incl_appl, incl_refl.
    + apply Forall_app. split; [exact Hchan |]. constructor; [exact Hvm |].
      constructor.
    + exact Hev.
  - destruct (Forall2_lookup_r _ _ _ _ _ Hts Hi) as (f & Hf & Hsafe).
    simpl in Hsafe.
    pose proof (W_within X c (Cli.world p)) as Hx.
    destruct (handle W X c (Cli.world p)) as [x w1]. simpl in Hx.
    destruct (Hsafe x Hx) as [Hev' Hk].
    split; [| split]; simpl.
    + apply slots_ok_insert with (f := f); assumption.
    + exact Hchan.
    + apply Forall_app. split; [exact Hev |]. constructor; [exact Hev' |].
      constructor.
  - destruct (Forall2_lookup_r _ _ _ _ _ Hts Hi) as (f & Hf & [Hmsg Hk]).
    split; [| split]; simpl.
    + apply slots_ok_insert with (f := f); assumption.
    + exact Hchan.
    + apply Forall_app. split; [exact Hev |]. constructor; [exact Hmsg |].
      constructor.
Qed.

Lemma schedule_ok fs sched :
  forall p : Cli.Pool W,
  pool_ok Ans R fs p -> pool_ok Ans R fs (fold_left (Cli.step W) sched p).
Proof.
  induction sched as [| i sched IH]; simpl; intros p Hp; [exact Hp |].
  apply IH, step_ok, Hp.
Qed.

(** Waiting for the goroutines still running leaves a result for every
    field on the channel. *)
Lemma wait_ok :
  forall fs ts chan (w : state W) tr,
  Forall2 (slot_ok Ans R chan) fs ts -> chan_ok R chan ->
  Forall probe_event tr ->
  let r := Cli.wait W ts chan w tr in
  all_sent fs (fst (fst r)) /\ chan_ok R (fst (fst r))
  /\ Forall probe_event (snd r) /\ incl chan (fst (fst r)).
Proof.
  intros fs ts. revert fs.
  induction ts as [| t ts IH]; intros fs chan w tr Hts Hchan Htr.
  - inversion Hts; subst. simpl. repeat split; auto.
    + constructor.
    + apply incl_refl.
  - inversion Hts as [| f t' fs' ts' Hft Hrest]; subst.
    destruct t as [t |]; simpl.
    + destruct (run_safe W Ans probe_event (sends R f) t w W_within Hft)
        as [Htr1 [Hf Hv]].
      destruct (run W t w) as [[m w1] tr1].
      unfold result_of, trace_of in *; simpl in *.
      specialize (IH fs' (chan ++ [m]) w1 (tr ++ tr1)).
      destruct IH as (Hsent & Hchan' & Htr' & Hincl).
      * apply slots_ok_mono with (chan := chan); [| exact Hrest].
        apply incl_appl, incl_refl.
      * apply Forall_app. split; [exact Hchan |]. constructor; [exact Hv |].
        constructor.
      * apply Forall_app. split; assumption.
      * repeat split; auto.
        -- constructor; [| exact Hsent]. exists m. split; [| exact Hf].
           apply Hincl, in_or_app. right. left. reflexivity.
        -- intros x Hx. apply Hincl, in_or_app. left. exact Hx.
    + destruct (IH fs' chan w tr Hrest Hchan Htr)
        as (Hsent & Hchan' & Htr' & Hincl).
      repeat split; auto.
      constructor; [| exact Hsent].
      destruct Hft as (m & Hm & Hf). exists m. split; auto.
Qed.

(** However the goroutines of a bucket are interleaved, each sends a value
    within [R] for its field and only calls of checks are made. *)
Lemma parallel_ok sched fs ts (w : state W) :
  (forall chan, Forall2 (slot_ok Ans R chan) fs ts) ->
  let r := Cli.parallel W sched ts w in
  all_sent fs (fst (fst r)) /\ chan_ok R (fst (fst r))
  /\ Forall probe_event (snd r).
Proof.
  intros Hts0. unfold Cli.parallel.
  set (p0 := {| Cli.threads := ts; Cli.resultsChan := [];
                Cli.world := w; Cli.events := [] |}).
  assert (H0 : pool_ok Ans R fs p0).
  { split; [| split]; simpl.
    - apply Hts0.
    - constructor.
    - constructor. }
  destruct (schedule_ok fs sched p0 H0) as (Hts & Hchan & Hev).
  destruct (wait_ok _ _ _ (Cli.world (fold_left (Cli.step W) sched p0))
              _ Hts Hchan Hev) as (H1 & H2 & H3 & _).
  auto.
Qed.

(** ** Collecting the results *)

Lemma get_store f r m :
  In f fields -> R (Cli.value m) ->
  R (get f r) \/ Cli.field m = f ->
  R (get f (Cli.store r m)).
Proof.
  intros Hf Hv H. destruct m as [fm vm]. simpl in *.
  unfold Cli.store. simpl.
  destruct Hf as [<- | [<- | [<- | [<- | [<- | [<- | [<- | [<- | []]]]]]]]];
    (destruct H as [H | ->]; [| simpl; exact Hv]);
    repeat (match goal with
            | |- context [String.eqb fm ?s] => destruct (String.eqb fm s)
            end; simpl); auto.
Qed.

Lemma get_collect f chan :
  In f fields -> chan_ok R chan ->
  forall r,
  R (get f r) \/ (exists m, In m chan /\ Cli.field m = f) ->
  R (get f (Cli.collect chan r)).
Proof.
  intros Hf. unfold Cli.collect.
  induction 1 as [| m chan Hm _ IH]; simpl; intros r H.
  - destruct H as [H | (m & [] & _)]. exact H.
  - apply IH. destruct H as [H | (m' & [-> | Hin] & Hfm)].
    + left. apply get_store; auto.
    + left. apply get_store; auto.
    + right. exists m'. auto.
Qed.

(** Once every goroutine has sent, each of the eight fields of the
    collected result holds what was sent for it, in whatever order the
    results arrived. *)
Lemma collect_all_within chan r :
  all_sent fields chan -> chan_ok R chan ->
  all_within R (Cli.collect chan r).
Proof.
  intros Hsent Hchan.
  assert (H : forall f, In f fields -> R (get f (Cli.collect chan r))).
  { intros f Hf. apply get_collect; auto. right.
    unfold all_sent in Hsent. rewrite Forall_forall in Hsent.
    apply Hsent. apply list_elem_of_In. exact Hf. }
  unfold all_within.
  repeat split;
    first [ apply (H "GetACL") | apply (H "PutACL") | apply (H "AnonGet")
          | apply (H "AuthGet") | apply (H "AnonWrite")
          | apply (H "AuthWrite") | apply (H "AnonDel")
          | apply (H "AuthDel") ]; simpl; tauto.
Qed.

End Pool.

Lemma BucketName_store r m : BucketName (Cli.store r m) = BucketName r.
Proof.
  unfold Cli.store.
  repeat (match goal with
          | |- context [String.eqb ?a ?s] => destruct (String.eqb a s)
          end; simpl); reflexivity.
Qed.

Lemma BucketName_collect chan :
  forall r, BucketName (Cli.collect chan r) = BucketName r.
Proof.
  unfold Cli.collect. induction chan as [| m chan IH]; simpl; intros r.
  - reflexivity.
  - rewrite IH. apply BucketName_store.
Qed.

Lemma goroutines_ok (Ans : Answers) (R : string -> Prop) c b :
  (forall check, In check
     [checkGetACLWithContext c b; checkPutACLWithContext c b;
      Cli.checkAnonGet c b; checkAuthGet c b; Cli.checkAnonWrite c b;
      checkAuthWrite c b; Cli.checkAnonDel c b; checkAuthDel c b] ->
     safe Ans probe_event R check) ->
  forall chan, Forall2 (slot_ok Ans R chan) fields (Cli.goroutines c b).
Proof.
  intros H chan. unfold fields, Cli.goroutines.
  repeat (constructor; [apply goroutine_safe, H; simpl; tauto |]).
  constructor.
Qed.

Lemma goroutines_verdict c b chan :
  Forall2 (slot_ok any_answer verdict chan) fields (Cli.goroutines c b).
Proof.
  apply goroutines_ok. simpl.
  intros check [<- | [<- | [<- | [<- | [<- | [<- | [<- | [<- | []]]]]]]]];
    auto with checks.
Qed.

Lemma goroutines_denied c b chan :
  Forall2 (slot_ok unreachable denied chan) fields (Cli.goroutines c b).
Proof.
  apply goroutines_ok. simpl.
  intros check [<- | [<- | [<- | [<- | [<- | [<- | [<- | [<- | []]]]]]]]];
    auto with checks.
Qed.

(** ** The two drivers *)

Lemma probed_skip b rest :
  String.eqb (TrimSpace b) EmptyString = true ->
  probed (b :: rest) = probed rest.
Proof. intros H. unfold probed. simpl. rewrite H. reflexivity. Qed.

Lemma probed_keep b rest :
  String.eqb (TrimSpace b) EmptyString = false ->
  probed (b :: rest) = TrimSpace b :: probed rest.
Proof. intros H. unfold probed. simpl. rewrite H. reflexivity. Qed.

(** The goroutine driver, from any index on and under any schedules:
    it returns [nil], hands over one complete result for each identifier
    it probes, in order, and paces itself as [paced] says. *)
Lemma Cli_driver (W : World) (Ans : Answers) (R : string -> Prop) c len :
  answers_within W Ans ->
  (forall b chan, Forall2 (slot_ok Ans R chan) fields (Cli.goroutines c b)) ->
  forall names i scheds (w : state W),
  let r := Cli.CheckBucketsStream_from W c len i names scheds w in
  fst (fst r) = None
  /\ Forall (all_within R) (sink_calls (snd r))
  /\ map BucketName (sink_calls (snd r)) = probed names
  /\ pacing (snd r) = paced len i names (sink_calls (snd r)).
Proof.
  intros HW Hgo.
  induction names as [| b rest IH]; intros i scheds w.
  - simpl. repeat split; constructor.
  - cbn [Cli.CheckBucketsStream_from paced].
    destruct (String.eqb (TrimSpace b) EmptyString) eqn:Hb.
    + rewrite (probed_skip _ _ Hb). apply IH.
    + rewrite (probed_keep _ _ Hb).
      pose proof (parallel_ok W Ans R HW (hd [] scheds) fields
                    (Cli.goroutines c (TrimSpace b)) w (Hgo (TrimSpace b)))
        as Hpar.
      destruct (Cli.parallel W (hd [] scheds)
                  (Cli.goroutines c (TrimSpace b)) w) as [[chan w1] tr1].
      simpl in Hpar. destruct Hpar as (Hsent & Hchan & Htr1).
      match goal with
      | |- context [handle W unit (Callback ?res) w1] => set (result := res)
      end.
      destruct (handle W unit (Callback result) w1) as [[] w2].
      assert (Hres : all_within R result)
        by (apply collect_all_within; assumption).
      assert (Hname : BucketName result = TrimSpace b)
        by (unfold result; rewrite BucketName_collect; reflexivity).
      destruct (i <? len - 1)%Z.
      * destruct (handle W unit (Sleep Cli.pause) w2) as [[] w3].
        specialize (IH (i + 1)%Z (tl scheds) w3).
        destruct (Cli.CheckBucketsStream_from W c len (i + 1) rest
                    (tl scheds) w3) as [[e w4] tr4].
        simpl in IH. destruct IH as (He & Hall & Hnames & Hpace).
        cbn [fst snd].
        rewrite sink_calls_app, pacing_app.
        rewrite (probe_events_no_sink _ Htr1), (probe_events_no_pacing _ Htr1).
        simpl. repeat split.
        -- exact He.
        -- constructor; assumption.
        -- rewrite Hname, Hnames. reflexivity.
        -- rewrite Hpace. reflexivity.
      * specialize (IH (i + 1)%Z (tl scheds) w2).
        destruct (Cli.CheckBucketsStream_from W c len (i + 1) rest
                    (tl scheds) w2) as [[e w4] tr4].
        simpl in IH. destruct IH as (He & Hall & Hnames & Hpace).
        cbn [fst snd].
        rewrite sink_calls_app, pacing_app.
        rewrite (probe_events_no_sink _ Htr1), (probe_events_no_pacing _ Htr1).
        simpl. repeat split.
        -- exact He.
        -- constructor; assumption.
        -- rewrite Hname, Hnames. reflexivity.
        -- rewrite Hpace. reflexivity.
Qed.

(** One check of the sequential driver: it adds calls of its own to the
    trace and yields a value within [R]. *)
Lemma always_check {B : Type} (Ans : Answers) (R : string -> Prop)
    (check : Prog string) (f : string -> Prog B)
    (Q : list Event -> B -> Prop) :
  safe Ans probe_event R check ->
  (forall tr v, Forall probe_event tr -> R v ->
     always Ans (f v) (fun tr' b => Q (tr ++ tr') b)) ->
  always Ans (bind check f) Q.
Proof.
  intros Hsafe Hf. apply always_bind.
  eapply always_mono; [| apply (safe_always _ _ _ _ Hsafe)].
  simpl. intros tr v [Htr Hv]. auto.
Qed.

(** The sequential driver: it returns [nil], hands over one complete
    result for each identifier it probes, in order, and never pauses. *)
Lemma Sdk_driver (Ans : Answers) (R : string -> Prop) c :
  (forall b check, In check
     [checkGetACLWithContext c b; checkPutACLWithContext c b;
      Sdk.checkAnonGet c b; checkAuthGet c b; Sdk.checkAnonWrite c b;
      checkAuthWrite c b; Sdk.checkAnonDel c b; checkAuthDel c b] ->
     safe Ans probe_event R check) ->
  forall names,
  always Ans (Sdk.CheckBucketsStream c names) (fun tr e =>
    e = None
    /\ Forall (all_within R) (sink_calls tr)
    /\ map BucketName (sink_calls tr) = probed names
    /\ existsb is_sleep tr = false).
Proof.
  intros Hchecks.
  induction names as [| b rest IH].
  - simpl. repeat split; constructor.
  - cbn [Sdk.CheckBucketsStream].
    destruct (String.eqb (TrimSpace b) EmptyString) eqn:Hb.
    + rewrite (probed_skip _ _ Hb). exact IH.
    + rewrite (probed_keep _ _ Hb).
      pose proof (Hchecks (TrimSpace b)) as Hc. simpl in Hc.
      apply (always_check Ans R); [apply Hc; tauto |]. intros tr1 v1 Ht1 Hv1.
      apply (always_check Ans R); [apply Hc; tauto |]. intros tr2 v2 Ht2 Hv2.
      apply (always_check Ans R); [apply Hc; tauto |]. intros tr3 v3 Ht3 Hv3.
      apply (always_check Ans R); [apply Hc; tauto |]. intros tr4 v4 Ht4 Hv4.
      apply (always_check Ans R); [apply Hc; tauto |]. intros tr5 v5 Ht5 Hv5.
      apply (always_check Ans R); [apply Hc; tauto |]. intros tr6 v6 Ht6 Hv6.
      apply (always_check Ans R); [apply Hc; tauto |]. intros tr7 v7 Ht7 Hv7.
      apply (always_check Ans R); [apply Hc; tauto |]. intros tr8 v8 Ht8 Hv8.
      cbn. intros [] _.
      eapply always_mono; [| exact IH].
      simpl. intros tr e (He & Hall & Hnames & Hsleep).
      rewrite !sink_calls_app, !existsb_app.
      rewrite !probe_events_no_sink, !probe_events_no_sleep by assumption.
      simpl. repeat split.
      * exact He.
      * constructor; [| exact Hall]. unfold all_within. simpl. tauto.
      * rewrite Hnames. reflexivity.
      * exact Hsleep.
Qed.

Lemma Sdk_checks_verdict c b check :
  In check
     [checkGetACLWithContext c b; checkPutACLWithContext c b;
      Sdk.checkAnonGet c b; checkAuthGet c b; Sdk.checkAnonWrite c b;
      checkAuthWrite c b; Sdk.checkAnonDel c b; checkAuthDel c b] ->
  safe any_answer probe_event verdict check.
Proof.
  simpl.
  intros [<- | [<- | [<- | [<- | [<- | [<- | [<- | [<- | []]]]]]]]];
    auto with checks.
Qed.

Lemma Sdk_checks_denied c b check :
  In check
     [checkGetACLWithContext c b; checkPutACLWithContext c b;
      Sdk.checkAnonGet c b; checkAuthGet c b; Sdk.checkAnonWrite c b;
      checkAuthWrite c b; Sdk.checkAnonDel c b; checkAuthDel c b] ->
  safe unreachable probe_event denied check.
Proof.
  simpl.
  intros [<- | [<- | [<- | [<- | [<- | [<- | [<- | [<- | []]]]]]]]];
    auto with checks.
Qed.

(** ** Single checks *)

(** A membership in a trace that is known event by event: one goal for
    each event it can be. *)
Ltac in_trace H :=
  unfold pab_argv, policy_argv, delete_argv in H; simpl in H;
  repeat match type of H with
         | _ \/ _ => destruct H as [H | H]
         end;
  try discriminate H; try contradiction H;
  try (injection H as ?; subst).

(** The tests a run went through decide the ones a claim speaks of. *)
Ltac by_tests :=
  unfold flagPrinted, flagTrue, notFoundSignal, deniedSignal,
    policy_verdict, wildcardPrincipal, getObjectAction in *;
  cbn in *;
  repeat match goal with
         | H : ?b = ?b |- _ => clear H
         | H : ?b = true |- context [?b] => rewrite H
         | H : ?b = false |- context [?b] => rewrite H
         | H : ?b = false, H' : context [?b || _] |- _ => rewrite H in H'
         | H : ?b = false, H' : context [_ || ?b] |- _ => rewrite H in H'
         end;
  cbn in *;
  first [ reflexivity | congruence ].

Ltac short_circuit :=
  explore;
  (split;
   [ let Hin := fresh "Hin" in
     let Hflag := fresh "Hflag" in
     intros ? Hin Hflag; in_trace Hin;
     first [ split; reflexivity | by_tests ]
   | let Hv := fresh "Hv" in
     intros Hv; first [ discriminate Hv | reflexivity ] ]).

Lemma Cli_checkAnonGet_short_circuits c b :
  always any_answer (Cli.checkAnonGet c b) (short_circuits_cli b).
Proof.
  destruct c as [[|]];
    unfold Cli.checkAnonGet, Cli.checkBucketPolicyForAnonGet; short_circuit.
Qed.

Lemma Cli_checkAnonWrite_short_circuits c b :
  always any_answer (Cli.checkAnonWrite c b) (short_circuits_cli b).
Proof. destruct c as [[|]]; unfold Cli.checkAnonWrite; short_circuit. Qed.

Lemma Cli_checkAnonDel_short_circuits c b :
  always any_answer (Cli.checkAnonDel c b) (short_circuits_cli b).
Proof. destruct c as [[|]]; unfold Cli.checkAnonDel; short_circuit. Qed.

Lemma Sdk_checkAnonGet_short_circuits c b :
  always any_answer (Sdk.checkAnonGet c b) (short_circuits_sdk b).
Proof.
  destruct c as [[|]];
    unfold Sdk.checkAnonGet, Sdk.checkBucketPolicyForAnonGet; short_circuit.
Qed.

Lemma Sdk_checkAnonWrite_short_circuits c b :
  always any_answer (Sdk.checkAnonWrite c b) (short_circuits_sdk b).
Proof. destruct c as [[|]]; unfold Sdk.checkAnonWrite; short_circuit. Qed.

Lemma Sdk_checkAnonDel_short_circuits c b :
  always any_answer (Sdk.checkAnonDel c b) (short_circuits_sdk b).
Proof. destruct c as [[|]]; unfold Sdk.checkAnonDel; short_circuit. Qed.

(** The classification of a failed GET probe. *)
Ltac classify :=
  explore;
  let Hin := fresh "Hin" in
  let Hop := fresh "Hop" in
  intros ? (? & ? & Hin & Hop);
  in_trace Hin; simpl in Hop; try discriminate Hop;
  (split; intros); by_tests.

Lemma checkAuthGet_classifies c b :
  always any_answer (checkAuthGet c b) classifies.
Proof. destruct c as [[|]]; unfold checkAuthGet; classify. Qed.

Lemma Cli_checkAnonGet_classifies c b :
  always any_answer (Cli.checkAnonGet c b) classifies.
Proof.
  destruct c as [[|]];
    unfold Cli.checkAnonGet, Cli.checkBucketPolicyForAnonGet; classify.
Qed.

Lemma Sdk_checkAnonGet_classifies c b :
  always any_answer (Sdk.checkAnonGet c b) classifies.
Proof.
  destruct c as [[|]];
    unfold Sdk.checkAnonGet, Sdk.checkBucketPolicyForAnonGet; classify.
Qed.

(** The bucket-policy fallback. *)
Ltac fall_back :=
  explore;
  let Hin := fresh "Hin" in
  let Hop := fresh "Hop" in
  intros ? (? & ? & Hin & Hop) ? ?;
  in_trace Hin; simpl in Hop; try discriminate Hop;
  try (exfalso; by_tests);
  try (split; [reflexivity |]);
  eexists; eexists;
  (split; [solve [repeat first [left; reflexivity | right]] | by_tests]).

Lemma Cli_checkAnonGet_falls_back c b :
  always any_answer (Cli.checkAnonGet c b) (falls_back_cli b).
Proof.
  destruct c as [[|]];
    unfold Cli.checkAnonGet, Cli.checkBucketPolicyForAnonGet; fall_back.
Qed.

Lemma Sdk_checkAnonGet_falls_back c b :
  always any_answer (Sdk.checkAnonGet c b) (falls_back_sdk b).
Proof.
  destruct c as [[|]];
    unfold Sdk.checkAnonGet, Sdk.checkBucketPolicyForAnonGet; fall_back.
Qed.

(** The failure paths of AnonDel. *)
Ltac after_failure :=
  explore;
  let Hin := fresh "Hin" in
  let Hop := fresh "Hop" in
  (split; [intros ? ? ? Hin Hop | intros ? ? ? Hin]);
  in_trace Hin;
  try match goal with
      | H : operation _ _ = true |- _ => simpl in H; discriminate H
      end;
  (split; [reflexivity |]);
  first
    [ reflexivity
    | cbn [followed app delete_argv];
      repeat first
        [ left; split;
          [ reflexivity
          | solve [repeat first [ apply Exists_cons_hd; eexists; reflexivity
                                | apply Exists_cons_tl ]] ]
        | right ] ].

Lemma Cli_checkAnonDel_failures c b :
  always any_answer (Cli.checkAnonDel c b) (anon_del_failures b).
Proof. destruct c as [[|]]; unfold Cli.checkAnonDel; after_failure. Qed.

Lemma Sdk_checkAnonDel_failures c b :
  always any_answer (Sdk.checkAnonDel c b) (anon_del_failures b).
Proof. destruct c as [[|]]; unfold Sdk.checkAnonDel; after_failure. Qed.

(** The checks without a not-found case against the simpler check. *)
Lemma checkGetACLWithContext_simple c b :
  always any_answer (checkGetACLWithContext c b)
    (fun tr v => v = simple_verdict (tested tr)).
Proof.
  destruct c as [[|]]; unfold checkGetACLWithContext; explore; reflexivity.
Qed.

Lemma checkPutACLWithContext_simple c b :
  always any_answer (checkPutACLWithContext c b)
    (fun tr v => v = simple_verdict (tested tr)).
Proof.
  destruct c as [[|]]; unfold checkPutACLWithContext; explore; reflexivity.
Qed.

Lemma checkAuthWrite_simple c b :
  always any_answer (checkAuthWrite c b)
    (fun tr v => v = simple_verdict (tested tr)).
Proof. destruct c as [[|]]; unfold checkAuthWrite; explore; reflexivity. Qed.

Lemma checkAuthDel_simple c b :
  always any_answer (checkAuthDel c b)
    (fun tr v => v = simple_verdict (tested tr)).
Proof. destruct c as [[|]]; unfold checkAuthDel; explore; reflexivity. Qed.

(** From the two trees to the two runs. *)
Lemma same_calls_blind (check : Checker -> string -> Prog string) :
  (forall b, same_calls (check verbosely b) (check quietly b)) ->
  verbose_blind check.
Proof.
  intros H W c b w. apply (same_calls_run W _ _ (H b) w).
Qed.

(** ** The claims *)

(** C1. Every result the driver hands to the sink has its eight fields
    set, each to OK or to DENIED: under every interleaving of the eight
    goroutines of the CLI variant, and in the sequential SDK variant, in
    every world and for every input. *)
Theorem C1_sink_gets_eight_verdicts :
  (forall (W : World) (c : Checker) (bucketNames : list string)
          (scheds : list (list nat)) (w : state W),
     Forall all_verdicts
       (sink_calls
          (trace_of (Cli.CheckBucketsStream W c bucketNames scheds w))))
  /\ (forall (W : World) (c : Checker) (bucketNames : list string)
             (w : state W),
        Forall all_verdicts
          (sink_calls
             (trace_of (run W (Sdk.CheckBucketsStream c bucketNames) w)))).
Proof.
  split.
  - intros W c names scheds w.
    apply (Cli_driver W any_answer verdict c _ (any_answer_within W)
             (goroutines_verdict c)).
  - intros W c names w.
    apply (run_always_any W _ _ w
             (Sdk_driver any_answer verdict c (Sdk_checks_verdict c) names)).
Qed.












Lemma unreachableWorld_unreachable :
  answers_within unreachableWorld unreachable.
Proof.
  intros X c w. destruct c; simpl; try exact I;
    try (split; [discriminate | reflexivity]); discriminate.
Defined.


Lemma existsb_is_sleep_pacing tr :
  existsb is_sleep (pacing tr) = existsb is_sleep tr.
Proof.
  induction tr as [| ev tr IH]; simpl; [reflexivity |].
  destruct ev; simpl; rewrite ?IH; reflexivity.
Qed.

(** The goroutine driver paces itself as the claim says: after each sink
    call a pause of 100 ms, except when the identifier was the last of the
    input ([i < len(bucketNames)-1], blank identifiers counted). *)
Lemma Cli_CheckBucketsStream_paces (W : World) (c : Checker)
    (bucketNames : list string) (scheds : list (list nat)) (w : state W) :
  let tr := trace_of (Cli.CheckBucketsStream W c bucketNames scheds w) in
  pacing tr
  = paced (Z.of_nat (length bucketNames)) 0 bucketNames (sink_calls tr).
Proof.
  apply (Cli_driver W any_answer verdict c _ (any_answer_within W)
           (goroutines_verdict c)).
Qed.

(** C8. The sequential driver never pauses: in every world and for every
    input its trace holds no [time.Sleep].  On ["bucket-a"; "bucket-b"] it
    calls the sink for both buckets with nothing in between, where the
    claim has a pause after the first. *)
Theorem C8_sequential_driver_never_pauses :
  (forall (W : World) (c : Checker) (bucketNames : list string)
          (w : state W),
     existsb is_sleep
       (trace_of (run W (Sdk.CheckBucketsStream c bucketNames) w)) = false)
  /\ (forall (W : World) (c : Checker) (w : state W),
        let bucketNames := ["bucket-a"; "bucket-b"] in
        let tr := trace_of (run W (Sdk.CheckBucketsStream c bucketNames) w) in
        map BucketName (sink_calls tr) = ["bucket-a"; "bucket-b"]
        /\ pacing tr = map EvCallback (sink_calls tr)
        /\ pacing tr
           <> paced (Z.of_nat (length bucketNames)) 0 bucketNames
                (sink_calls tr)).
Proof.
  assert (Hno : forall (W : World) c names (w : state W),
             existsb is_sleep
               (trace_of (run W (Sdk.CheckBucketsStream c names) w)) = false).
  { intros W c names w.
    apply (run_always_any W _ _ w
             (Sdk_driver any_answer verdict c (Sdk_checks_verdict c) names)). }
  split; [exact Hno |].
  intros W c w names tr.
  assert (Hnames : map BucketName (sink_calls tr) = ["bucket-a"; "bucket-b"]).
  { apply (run_always_any W _ _ w
             (Sdk_driver any_answer verdict c (Sdk_checks_verdict c) names)). }
  pose proof (Hno W c names w) as Hsleep. fold tr in Hsleep.
  rewrite <- existsb_is_sleep_pacing in Hsleep.
  split; [exact Hnames |]. split.
  - clear Hnames. induction tr as [| ev tr' IH]; simpl; [reflexivity |].
    destruct ev; simpl in *; try (apply IH; assumption);
      try discriminate Hsleep.
    f_equal. apply IH. exact Hsleep.
  - intros Heq. rewrite Heq in Hsleep.
    destruct (sink_calls tr) as [| r1 [| r2 rs]]; try discriminate Hnames.
    discriminate Hsleep.
Qed.

(** C9. [verbose] never changes a verdict: each of the eight checks, in
    either variant, returns the same value with [verbose] on and off in
    every world, makes the same calls with the same answers and leaves the
    world in the same state; only the lines on standard error differ. *)
Theorem C9_verbose_changes_no_verdict :
  verbose_blind checkGetACLWithContext
  /\ verbose_blind checkPutACLWithContext
  /\ verbose_blind checkAuthGet
  /\ verbose_blind checkAuthWrite
  /\ verbose_blind checkAuthDel
  /\ verbose_blind Cli.checkAnonGet
  /\ verbose_blind Cli.checkAnonWrite
  /\ verbose_blind Cli.checkAnonDel
  /\ verbose_blind Sdk.checkAnonGet
  /\ verbose_blind Sdk.checkAnonWrite
  /\ verbose_blind Sdk.checkAnonDel.
Proof.
  repeat apply conj; apply same_calls_blind;
    auto using checkGetACLWithContext_same, checkPutACLWithContext_same,
      checkAuthGet_same, checkAuthWrite_same, checkAuthDel_same,
      Cli_checkAnonGet_same, Cli_checkAnonWrite_same, Cli_checkAnonDel_same,
      Sdk_checkAnonGet_same, Sdk_checkAnonWrite_same, Sdk_checkAnonDel_same.
Qed.

(** C10, as stated: each of the four checks is the simpler check that
    returns OK exactly when every command of the run succeeded.  It fails
    for AuthWrite: the delete that cleans up the test object may fail and
    the check still returns OK. *)
Lemma C10_counterexample : ~ simple_as_stated checkAuthWrite.
Proof.
  intros H.
  specialize (H deleteDeniedWorld quietly "bucket-a" epoch).
  vm_compute in H. discriminate H.
Qed.

(** C10, amended. In GetAcl, PutAcl, AuthWrite and AuthDel the test of
    the error text decides nothing: each check returns OK exactly when
    every call whose outcome it looks at succeeded (the commands it runs
    with their output collected and the staging of the temporary file),
    and DENIED otherwise, whatever the error texts.  The outcome of the
    cleanup (AuthWrite's delete of the test object, the removal of the
    temporary file) is not looked at. *)
Theorem C10_error_text_test_is_redundant :
  simple_on_tested checkGetACLWithContext
  /\ simple_on_tested checkPutACLWithContext
  /\ simple_on_tested checkAuthWrite
  /\ simple_on_tested checkAuthDel.
Proof.
  repeat apply conj; intros W c b w;
    apply (run_always_any W _
             (fun tr v => v = simple_verdict (tested tr)) w);
    auto using checkGetACLWithContext_simple, checkPutACLWithContext_simple,
      checkAuthWrite_simple, checkAuthDel_simple.
Qed.

(** * Further properties of the code *)

(** ** The batch driver *)

Lemma run_bind (W : World) {A B : Type} (p : Prog A) (f : A -> Prog B) :
  forall w : state W,
  run W (bind p f) w
  = let '(a, w1, tr1) := run W p w in
    let '(b, w2, tr2) := run W (f a) w1 in
    (b, w2, tr1 ++ tr2).
Proof.
  induction p as [a | X c k IH | msg k IH]; intros w; simpl.
  - destruct (run W (f a) w) as [[b w2] tr2]. reflexivity.
  - destruct (handle W X c w) as [x w1]. rewrite IH.
    destruct (run W (k x) w1) as [[a w2] tr1].
    destruct (run W (f a) w2) as [[b w3] tr2]. reflexivity.
  - rewrite IH.
    destruct (run W k w) as [[a w2] tr1].
    destruct (run W (f a) w2) as [[b w3] tr2]. reflexivity.
Qed.


Lemma always_ret {A : Type} (Ans : Answers) (a : A)
    (Q : list Event -> A -> Prop) :
  Q [] a -> always Ans (mret a) Q.
Proof. intros H. exact H. Qed.

Lemma Cli_CheckBuckets_from_ok (Ans : Answers) (R : string -> Prop) c :
  (forall b check, In check
     [checkGetACLWithContext c b; checkPutACLWithContext c b;
      Cli.checkAnonGet c b; checkAuthGet c b; Cli.checkAnonWrite c b;
      checkAuthWrite c b; Cli.checkAnonDel c b; checkAuthDel c b] ->
     safe Ans probe_event R check) ->
  forall names results,
  always Ans (Cli.CheckBuckets_from c names results)
    (batch_ok R names results).
Proof.
  intros Hchecks.
  induction names as [| b rest IH]; intros results.
  - simpl. split; [reflexivity |]. split; [constructor |].
    exists []. rewrite app_nil_r. repeat split; constructor.
  - cbn [Cli.CheckBuckets_from].
    pose proof (Hchecks b) as Hc. simpl in Hc.
    apply (always_check Ans R); [apply Hc; tauto |]. intros tr1 v1 Ht1 Hv1.
    apply (always_check Ans R); [apply Hc; tauto |]. intros tr2 v2 Ht2 Hv2.
    apply (always_check Ans R); [apply Hc; tauto |]. intros tr3 v3 Ht3 Hv3.
    apply (always_check Ans R); [apply Hc; tauto |]. intros tr4 v4 Ht4 Hv4.
    apply (always_check Ans R); [apply Hc; tauto |]. intros tr5 v5 Ht5 Hv5.
    apply (always_check Ans R); [apply Hc; tauto |]. intros tr6 v6 Ht6 Hv6.
    apply (always_check Ans R); [apply Hc; tauto |]. intros tr7 v7 Ht7 Hv7.
    apply (always_check Ans R); [apply Hc; tauto |]. intros tr8 v8 Ht8 Hv8.
    eapply always_mono; [| apply IH].
    simpl. intros tr res (He & Htr & new & Hres & Hnames & Hall).
    split; [exact He |]. split.
    + repeat (apply Forall_app; split; [assumption |]). exact Htr.
    + eexists (_ :: new). rewrite Hres, <- app_assoc. simpl.
      split; [reflexivity |]. split; [rewrite Hnames; reflexivity |].
      constructor; [| exact Hall]. unfold all_within. simpl. tauto.
Qed.

Lemma Sdk_CheckBuckets_from_ok (Ans : Answers) (R : string -> Prop) c :
  (forall b check, In check
     [checkGetACLWithContext c b; checkPutACLWithContext c b;
      Sdk.checkAnonGet c b; checkAuthGet c b; Sdk.checkAnonWrite c b;
      checkAuthWrite c b; Sdk.checkAnonDel c b; checkAuthDel c b] ->
     safe Ans probe_event R check) ->
  forall names results,
  always Ans (Sdk.CheckBuckets_from c names results)
    (batch_ok R names results).
Proof.
  intros Hchecks.
  induction names as [| b rest IH]; intros results.
  - simpl. split; [reflexivity |]. split; [constructor |].
    exists []. rewrite app_nil_r. repeat split; constructor.
  - cbn [Sdk.CheckBuckets_from].
    pose proof (Hchecks b) as Hc. simpl in Hc.
    apply (always_check Ans R); [apply Hc; tauto |]. intros tr1 v1 Ht1 Hv1.
    apply (always_check Ans R); [apply Hc; tauto |]. intros tr2 v2 Ht2 Hv2.
    apply (always_check Ans R); [apply Hc; tauto |]. intros tr3 v3 Ht3 Hv3.
    apply (always_check Ans R); [apply Hc; tauto |]. intros tr4 v4 Ht4 Hv4.
    apply (always_check Ans R); [apply Hc; tauto |]. intros tr5 v5 Ht5 Hv5.
    apply (always_check Ans R); [apply Hc; tauto |]. intros tr6 v6 Ht6 Hv6.
    apply (always_check Ans R); [apply Hc; tauto |]. intros tr7 v7 Ht7 Hv7.
    apply (always_check Ans R); [apply Hc; tauto |]. intros tr8 v8 Ht8 Hv8.
    eapply always_mono; [| apply IH].
    simpl. intros tr res (He & Htr & new & Hres & Hnames & Hall).
    split; [exact He |]. split.
    + repeat (apply Forall_app; split; [assumption |]). exact Htr.
    + eexists (_ :: new). rewrite Hres, <- app_assoc. simpl.
      split; [reflexivity |]. split; [rewrite Hnames; reflexivity |].
      constructor; [| exact Hall]. unfold all_within. simpl. tauto.
Qed.

Lemma Cli_checks_verdict c b check :
  In check
     [checkGetACLWithContext c b; checkPutACLWithContext c b;
      Cli.checkAnonGet c b; checkAuthGet c b; Cli.checkAnonWrite c b;
      checkAuthWrite c b; Cli.checkAnonDel c b; checkAuthDel c b] ->
  safe any_answer probe_event verdict check.
Proof.
  simpl.
  intros [<- | [<- | [<- | [<- | [<- | [<- | [<- | [<- | []]]]]]]]];
    auto using checkGetACLWithContext_safe, checkPutACLWithContext_safe,
      checkAuthGet_safe, checkAuthWrite_safe, checkAuthDel_safe,
      Cli_checkAnonGet_safe, Cli_checkAnonWrite_safe, Cli_checkAnonDel_safe.
Qed.


(** ** The sequential stream driver against the batch driver *)

Lemma without_sink_app tr1 tr2 :
  without_sink (tr1 ++ tr2) = without_sink tr1 ++ without_sink tr2.
Proof.
  induction tr1 as [| ev tr1 IH]; simpl; [reflexivity |].
  destruct ev; simpl; rewrite ?IH; reflexivity.
Qed.

Lemma without_sink_probes tr : Forall probe_event tr -> without_sink tr = tr.
Proof.
  induction 1 as [| ev tr Hev _ IH]; simpl; [reflexivity |].
  destruct ev; simpl in *; rewrite ?IH; try reflexivity; contradiction.
Qed.

(** A check at the head of both drivers does not tell them apart. *)
Lemma batch_of_stream_check (W : World) (check : Prog string)
    (f : string -> Prog error)
    (g : string -> Prog (list BucketResult * error))
    (results : list BucketResult) (w : state W) :
  safe any_answer probe_event verdict check ->
  (forall v w1, batch_of_stream results (run W (f v) w1) (run W (g v) w1)) ->
  batch_of_stream results (run W (bind check f) w) (run W (bind check g) w).
Proof.
  intros Hsafe H. rewrite !run_bind.
  destruct (run_safe W any_answer probe_event verdict check w
              (any_answer_within W) Hsafe) as [Htr _].
  destruct (run W check w) as [[v w1] tr1].
  specialize (H v w1).
  destruct (run W (f v) w1) as [[e ws] ts].
  destruct (run W (g v) w1) as [[res wb] tb].
  unfold batch_of_stream, result_of, trace_of in *. simpl in *.
  destruct H as (H1 & H2 & H3 & H4).
  rewrite sink_calls_app, without_sink_app.
  rewrite (probe_events_no_sink _ Htr), (without_sink_probes _ Htr).
  simpl. repeat split; congruence.
Qed.

Lemma Sdk_stream_is_batch (W : World) (c : Checker) :
  sink_is_inert W ->
  forall names results (w : state W),
  Forall clean names ->
  batch_of_stream results
    (run W (Sdk.CheckBucketsStream c names) w)
    (run W (Sdk.CheckBuckets_from c names results) w).
Proof.
  intros Hinert.
  induction names as [| b rest IH]; intros results w Hclean.
  - unfold batch_of_stream. simpl. rewrite app_nil_r.
    repeat split; reflexivity.
  - inversion Hclean as [| b' rest' [Htrim Hne] Hrest]; subst.
    cbn [Sdk.CheckBucketsStream Sdk.CheckBuckets_from].
    rewrite Htrim.
    destruct (String.eqb b EmptyString) eqn:Hb;
      [apply String.eqb_eq in Hb; contradiction |].
    unfold checkGetACL, checkPutACL, mbind, Prog_bind.
    apply batch_of_stream_check;
      [apply checkGetACLWithContext_safe | intros v1 w1].
    apply batch_of_stream_check;
      [apply checkPutACLWithContext_safe | intros v2 w2].
    apply batch_of_stream_check;
      [apply Sdk_checkAnonGet_safe | intros v3 w3].
    apply batch_of_stream_check; [apply checkAuthGet_safe | intros v4 w4].
    apply batch_of_stream_check;
      [apply Sdk_checkAnonWrite_safe | intros v5 w5].
    apply batch_of_stream_check; [apply checkAuthWrite_safe | intros v6 w6].
    apply batch_of_stream_check;
      [apply Sdk_checkAnonDel_safe | intros v7 w7].
    apply batch_of_stream_check; [apply checkAuthDel_safe | intros v8 w8].
    match goal with
    | |- context [Callback ?res] => set (r := res)
    end.
    specialize (IH (results ++ [r]) w8 Hrest).
    pose proof (Hinert r w8) as Hw.
    simpl. destruct (handle W unit (Callback r) w8) as [[] w9].
    simpl in Hw. subst w9.
    destruct (run W (Sdk.CheckBucketsStream c rest) w8) as [[e ws] ts].
    destruct (run W (Sdk.CheckBuckets_from c rest (results ++ [r])) w8)
      as [[res wb] tb].
    unfold batch_of_stream, result_of, trace_of in *. simpl in *.
    destruct IH as (H1 & H2 & H3 & H4).
    rewrite H1, <- app_assoc. simpl. repeat split; assumption.
Qed.


Lemma scripted_sink_is_inert (s : Script) : sink_is_inert (scripted s).
Proof. intros r w. reflexivity. Defined.


(** ** What the checks do to the bucket and to the file system *)

Lemma in_every_run_always (check : Checker -> string -> Prog string)
    (Q : string -> list Event -> string -> Prop) :
  (forall c b, always any_answer (check c b) (Q b)) -> in_every_run check Q.
Proof. intros H W c b w. apply observed_always, H. Qed.

(** One of the events of a trace that is known event by event. *)
Ltac pick_event := solve [repeat first [left; reflexivity | right]].

(** Every path of one of the eleven checks, one goal for each. *)
Ltac every_path :=
  apply in_every_run_always;
  let c := fresh "c" in
  intros c ?; destruct c as [[|]];
  unfold checkGetACLWithContext, checkPutACLWithContext, checkAuthGet,
    checkAuthWrite, checkAuthDel, Cli.checkAnonGet, Cli.checkAnonWrite,
    Cli.checkAnonDel, Cli.checkBucketPolicyForAnonGet, Sdk.checkAnonGet,
    Sdk.checkAnonWrite, Sdk.checkAnonDel, Sdk.checkBucketPolicyForAnonGet;
  explore.

Ltac for_each_check tac :=
  repeat (apply List.Forall_cons; [tac |]); apply List.Forall_nil.

Ltac either := first [left; reflexivity | right; reflexivity].

(** [followed ev Q tr] on a trace that is known event by event. *)
Ltac is_followed :=
  cbn [followed];
  repeat first
    [ left; split;
      [ reflexivity
      | solve [repeat first
                 [ apply Exists_cons_hd; first [reflexivity | either]
                 | apply Exists_cons_tl ]] ]
    | right ].

Ltac tmp_removed :=
  every_path;
  (split;
   [ let Hin := fresh "Hin" in
     intros ? ? ? Hin; in_trace Hin; eexists; reflexivity
   | let Hin := fresh "Hin" in
     intros ? ? Hin; in_trace Hin; eexists; eexists; pick_event ]).

Ltac no_files :=
  every_path;
  let Hin := fresh "Hin" in
  intros ? Hin; in_trace Hin; subst; exact I.

Ltac own_deletes :=
  every_path;
  let Hin := fresh "Hin" in
  let Hd := fresh "Hd" in
  intros ? Hin Hd; in_trace Hin; subst; simpl in Hd; try discriminate Hd;
  first
    [ solve [ do 4 eexists;
              (split; [either | split; [left; reflexivity |]]);
              is_followed ]
    | solve [ do 4 eexists;
              (split; [either | split; [right; reflexivity |]]);
              is_followed ] ].

Ltac put_then_delete :=
  every_path;
  let Hin := fresh "Hin" in
  let Hop := fresh "Hop" in
  intros ? ? Hin Hop; in_trace Hin; simpl in Hop; try discriminate Hop;
  do 2 eexists; (split; [either |]); is_followed.

Ltac credentials :=
  every_path;
  let Hin := fresh "Hin" in
  let Hc := fresh "Hc" in
  intros ? ? Hin Hc; in_trace Hin; subst; simpl in Hc;
  try discriminate Hc; injection Hc as <-;
  first [ reflexivity
        | split; intros; first [reflexivity | discriminate] ].

Ltac stderr_on_failure :=
  every_path; unfold silent_unless_failed; explore;
  first [ reflexivity
        | match goal with H : true = false |- _ => discriminate H end ].

Ltac read_only := every_path; reflexivity.

Ltac acl_written_back :=
  every_path;
  let Hin := fresh "Hin" in
  let Hop := fresh "Hop" in
  intros ? ? ? Hin Hop; in_trace Hin; simpl in Hop; try discriminate Hop;
  do 2 eexists;
  (split; [reflexivity | split]); is_followed.

Lemma quiet_is_silent_always (check : Checker -> string -> Prog string) :
  (forall b, always any_answer (check quietly b) (fun tr _ => silent tr)) ->
  quiet_is_silent check.
Proof.
  intros H W c b w.
  apply (run_always_any W _ (fun tr _ => silent tr) w (H b)).
Qed.

Ltac quiet :=
  apply quiet_is_silent_always; intros ?;
  unfold checkGetACLWithContext, checkPutACLWithContext, checkAuthGet,
    checkAuthWrite, checkAuthDel, Cli.checkAnonGet, Cli.checkAnonWrite,
    Cli.checkAnonDel, Cli.checkBucketPolicyForAnonGet, Sdk.checkAnonGet,
    Sdk.checkAnonWrite, Sdk.checkAnonDel, Sdk.checkBucketPolicyForAnonGet;
  explore; reflexivity.

(** X4. A temporary file that a check has written is removed by the last
    call the check makes, on every path, and no file is removed that was
    not written; the checks that only read (GetAcl, AuthGet, AnonGet) touch
    no file at all. *)
Theorem X4_temporary_files_are_removed :
  Forall (fun check => in_every_run check (fun _ tr _ => tmp_file_removed tr))
    staging_checks
  /\ Forall (fun check => in_every_run check (fun _ tr _ => no_file_call tr))
       read_checks.
Proof.
  split; [for_each_check tmp_removed | for_each_check no_files].
Qed.

(** X5. The checks that only read (GetAcl, AuthGet and AnonGet of both
    sources) run no put-object, delete-object or put-bucket-acl command, on
    any path. *)
Theorem X5_read_checks_change_nothing :
  Forall (fun check =>
            in_every_run check
              (fun _ tr _ => existsb is_mutation tr = false))
    read_checks.
Proof. for_each_check read_only. Qed.

(** X6. No check deletes an object it has not put itself: every
    delete-object command of a run is for the bucket and the key of a
    put-object command that the same run has made before, with success. *)
Theorem X6_checks_delete_only_their_own_object :
  Forall (fun check =>
            in_every_run check (fun b tr _ => deletes_only_own b tr))
    all_checks.
Proof. for_each_check own_deletes. Qed.

(** X7. No check leaves its test object behind without trying: every
    put-object that succeeded is followed, in the same run, by a
    delete-object of the same bucket and key. *)
Theorem X7_every_test_object_gets_a_delete :
  Forall (fun check =>
            in_every_run check
              (fun b tr _ => every_put_is_followed_by_delete b tr))
    all_checks.
Proof. for_each_check put_then_delete. Qed.

(** X8. Whenever a check writes the ACL of a bucket, what it passes to
    put-bucket-acl is the temporary file the same run has written, and
    what that file holds is the text the run has just read with
    get-bucket-acl. *)
Theorem X8_acl_is_written_back_as_read :
  Forall (fun check =>
            in_every_run check
              (fun b tr _ => writes_back_what_it_read b tr))
    all_checks.
Proof. for_each_check acl_written_back. Qed.

(** X9. Which commands go out unsigned.  GetAcl, PutAcl, AuthGet, AuthWrite
    and AuthDel never pass --no-sign-request.  In AnonGet exactly the
    head-object probe is unsigned (the pre-check and the policy fallback
    use the caller's credentials); in AnonWrite the put-object and
    the cleanup delete-object both are, so the pre-check is its only signed
    command; in AnonDel only delete-object commands
    are unsigned and the test object is put with the caller's
    credentials. *)
Theorem X9_credential_discipline :
  Forall (fun check =>
            in_every_run check
              (fun _ tr _ => credentials_by (fun _ => false) tr))
    authenticated_checks
  /\ Forall (fun check =>
               in_every_run check
                 (fun _ tr _ => credentials_by (operation "head-object") tr))
       [Cli.checkAnonGet; Sdk.checkAnonGet]
  /\ Forall (fun check =>
               in_every_run check
                 (fun _ tr _ =>
                    credentials_by
                      (fun argv => operation "put-object" argv
                                   || operation "delete-object" argv) tr))
       [Cli.checkAnonWrite; Sdk.checkAnonWrite]
  /\ Forall (fun check =>
               in_every_run check (fun _ tr _ => anon_del_credentials tr))
       [Cli.checkAnonDel; Sdk.checkAnonDel].
Proof.
  split; [| split; [| split]]; for_each_check credentials.
Qed.

(** X10. What reaches standard error.  With [verbose] off no check writes
    a line; with [verbose] on a check writes only after a call has failed:
    a run in which every call succeeds is silent. *)
Theorem X10_standard_error_only_when_verbose_and_failed :
  Forall quiet_is_silent all_checks
  /\ Forall (fun check =>
               in_every_run check
                 (fun _ tr _ => silent_unless_failed tr))
       all_checks.
Proof.
  split; [for_each_check quiet | for_each_check stderr_on_failure].
Qed.

(** ** What the drivers touch *)

Lemma safe_impl {A : Type} (Ans : Answers) (P P' : Event -> Prop)
    (R R' : A -> Prop) (p : Prog A) :
  (forall ev, P ev -> P' ev) -> (forall a, R a -> R' a) ->
  safe Ans P R p -> safe Ans P' R' p.
Proof.
  intros HP HR. induction p as [a | X c k IH | msg k IH]; simpl.
  - apply HR.
  - intros H x Hx. destruct (H x Hx). split; auto.
  - intros [H1 H2]. split; auto.
Qed.

Lemma about_incl (names names' : list string) (ev : Event) :
  incl names names' -> about names ev -> about names' ev.
Proof.
  intros Hincl. destruct ev; simpl; auto.
  - intros (op & b & rest & ? & ? & ?). exists op, b, rest. auto.
  - intros (op & b & rest & ? & ? & ?). exists op, b, rest. auto.
Qed.

Ltac its_bucket :=
  repeat first
    [ progress cbn | take_answer | progress intros | split | case_answer ];
  try exact I;
  try solve [ simpl; auto ];
  try solve [ do 3 eexists;
              (split; [reflexivity | split; [simpl; pick_event |]]);
              left; reflexivity ].

Ltac about_bucket :=
  let c := fresh "c" in
  intros c ?; destruct c as [[|]];
  unfold checkGetACLWithContext, checkPutACLWithContext, checkAuthGet,
    checkAuthWrite, checkAuthDel, Cli.checkAnonGet, Cli.checkAnonWrite,
    Cli.checkAnonDel, Cli.checkBucketPolicyForAnonGet, Sdk.checkAnonGet,
    Sdk.checkAnonWrite, Sdk.checkAnonDel, Sdk.checkBucketPolicyForAnonGet;
  its_bucket.

Lemma checks_about :
  Forall (fun check : Checker -> string -> Prog string =>
            forall c b,
              safe any_answer (about [b]) (fun _ => True) (check c b))
    all_checks.
Proof. for_each_check about_bucket. Qed.

Lemma check_about (check : Checker -> string -> Prog string)
    (names : list string) c b :
  In check all_checks -> In b names ->
  safe any_answer (about names) (fun _ => True) (check c b).
Proof.
  intros Hcheck Hb.
  apply (safe_impl any_answer (about [b]) (about names)
           (fun _ => True) (fun _ => True)); [| auto |].
  - intros ev. apply about_incl. intros x [<- | []]. exact Hb.
  - exact (proj1 (List.Forall_forall _ _) checks_about check Hcheck c b).
Qed.

Ltac one_of_the_checks := simpl; tauto.

Lemma goroutines_about (names : list string) c b :
  In b names -> threads_safe (about names) (Cli.goroutines c b).
Proof.
  intros Hb. unfold threads_safe, Cli.goroutines, Cli.goroutine.
  repeat (apply List.Forall_cons;
          [ eapply safe_bind;
            [ apply check_about; [one_of_the_checks | exact Hb]
            | intros; exact I ]
          |]).
  apply List.Forall_nil.
Qed.

Section PoolCalls.

Variable W : World.
Variable P : Event -> Prop.

Lemma step_safe (p : Cli.Pool W) (i : nat) :
  threads_safe P (Cli.threads p) -> Forall P (Cli.events p) ->
  threads_safe P (Cli.threads (Cli.step W p i))
  /\ Forall P (Cli.events (Cli.step W p i)).
Proof.
  intros Hts Hev. unfold Cli.step.
  destruct (Cli.threads p !! i) as [[[m | X c k | msg k] |] |] eqn:Hi;
    try (split; assumption).
  - split; [| exact Hev]. simpl. apply Forall_insert; [exact Hts | exact I].
  - pose proof (Forall_lookup_1 _ _ _ _ Hts Hi) as Hsafe. simpl in Hsafe.
    destruct (handle W X c (Cli.world p)) as [x w1].
    destruct (Hsafe x I) as [Hx Hk]. simpl. split.
    + apply Forall_insert; [exact Hts | exact Hk].
    + apply Forall_app. split; [exact Hev |]. constructor; [exact Hx |].
      constructor.
  - pose proof (Forall_lookup_1 _ _ _ _ Hts Hi) as [Hmsg Hk]. simpl. split.
    + apply Forall_insert; [exact Hts | exact Hk].
    + apply Forall_app. split; [exact Hev |]. constructor; [exact Hmsg |].
      constructor.
Qed.

Lemma schedule_safe (sched : list nat) :
  forall p : Cli.Pool W,
  threads_safe P (Cli.threads p) -> Forall P (Cli.events p) ->
  threads_safe P (Cli.threads (fold_left (Cli.step W) sched p))
  /\ Forall P (Cli.events (fold_left (Cli.step W) sched p)).
Proof.
  induction sched as [| i sched IH]; simpl; intros p Hts Hev.
  - split; assumption.
  - destruct (step_safe p i Hts Hev). apply IH; assumption.
Qed.

Lemma wait_safe (ts : list (option (Prog Cli.checkResult))) :
  forall chan (w : state W) tr,
  threads_safe P ts -> Forall P tr ->
  Forall P (snd (Cli.wait W ts chan w tr)).
Proof.
  induction ts as [| [t |] ts IH]; intros chan w tr Hts Htr; simpl.
  - exact Htr.
  - inversion Hts as [| ? ? Ht Hrest]; subst.
    destruct (run_safe W any_answer P _ t w (any_answer_within W) Ht)
      as [Htr1 _].
    destruct (run W t w) as [[m w1] tr1]. cbn [trace_of snd] in Htr1.
    apply IH; [exact Hrest |]. apply Forall_app. split; assumption.
  - inversion Hts; subst. apply IH; assumption.
Qed.

Lemma parallel_safe sched ts (w : state W) :
  threads_safe P ts -> Forall P (snd (Cli.parallel W sched ts w)).
Proof.
  intros Hts. unfold Cli.parallel.
  destruct (schedule_safe sched
              {| Cli.threads := ts; Cli.resultsChan := []; Cli.world := w;
                 Cli.events := [] |} Hts (List.Forall_nil _)).
  apply wait_safe; assumption.
Qed.

End PoolCalls.

Lemma Cli_stream_about (W : World) c len (all : list string) names :
  forall i scheds (w : state W),
  incl (probed names) all ->
  Forall (about all)
    (snd (Cli.CheckBucketsStream_from W c len i names scheds w)).
Proof.
  induction names as [| b rest IH]; intros i scheds w Hall.
  - constructor.
  - cbn [Cli.CheckBucketsStream_from].
    destruct (String.eqb (TrimSpace b) EmptyString) eqn:Hb.
    + rewrite (probed_skip _ _ Hb) in Hall. apply IH, Hall.
    + rewrite (probed_keep _ _ Hb) in Hall.
      assert (Hin : In (TrimSpace b) all) by (apply Hall; left; reflexivity).
      assert (Hrest : incl (probed rest) all)
        by (intros x Hx; apply Hall; right; exact Hx).
      pose proof (parallel_safe W (about all) (hd [] scheds)
                    (Cli.goroutines c (TrimSpace b)) w
                    (goroutines_about all c (TrimSpace b) Hin)) as Hpar.
      destruct (Cli.parallel W (hd [] scheds)
                  (Cli.goroutines c (TrimSpace b)) w) as [[chan w1] tr1].
      cbn [snd] in Hpar.
      match goal with
      | |- context [handle W unit (Callback ?res) w1] => set (result := res)
      end.
      destruct (handle W unit (Callback result) w1) as [[] w2].
      destruct (i <? len - 1)%Z.
      * destruct (handle W unit (Sleep Cli.pause) w2) as [[] w3].
        specialize (IH (i + 1)%Z (tl scheds) w3 Hrest).
        destruct (Cli.CheckBucketsStream_from W c len (i + 1) rest
                    (tl scheds) w3) as [[e w4] tr4].
        cbn [snd] in *. apply Forall_app. split; [exact Hpar |].
        constructor; [exact I |]. constructor; [exact I | exact IH].
      * specialize (IH (i + 1)%Z (tl scheds) w2 Hrest).
        destruct (Cli.CheckBucketsStream_from W c len (i + 1) rest
                    (tl scheds) w2) as [[e w4] tr4].
        cbn [snd] in *. apply Forall_app. split; [exact Hpar |].
        constructor; [exact I | exact IH].
Qed.

Ltac next_check Hin :=
  eapply safe_bind;
  [ apply check_about; [one_of_the_checks | exact Hin] | intros ? _ ].

Lemma Sdk_stream_about c (all : list string) names :
  incl (probed names) all ->
  safe any_answer (about all) (fun _ => True)
    (Sdk.CheckBucketsStream c names).
Proof.
  induction names as [| b rest IH]; intros Hall.
  - exact I.
  - cbn [Sdk.CheckBucketsStream].
    destruct (String.eqb (TrimSpace b) EmptyString) eqn:Hb.
    + rewrite (probed_skip _ _ Hb) in Hall. apply IH, Hall.
    + rewrite (probed_keep _ _ Hb) in Hall.
      assert (Hin : In (TrimSpace b) all) by (apply Hall; left; reflexivity).
      assert (Hrest : incl (probed rest) all)
        by (intros x Hx; apply Hall; right; exact Hx).
      do 8 next_check Hin.
      cbn. intros [] _. split; [exact I |]. apply IH, Hrest.
Qed.

Lemma Cli_batch_about c (all : list string) names :
  forall results, incl names all ->
  safe any_answer (about all) (fun _ => True)
    (Cli.CheckBuckets_from c names results).
Proof.
  induction names as [| b rest IH]; intros results Hall.
  - exact I.
  - cbn [Cli.CheckBuckets_from]. unfold checkGetACL, checkPutACL.
    assert (Hin : In b all) by (apply Hall; left; reflexivity).
    do 8 next_check Hin.
    apply IH. intros x Hx. apply Hall. right. exact Hx.
Qed.

Lemma Sdk_batch_about c (all : list string) names :
  forall results, incl names all ->
  safe any_answer (about all) (fun _ => True)
    (Sdk.CheckBuckets_from c names results).
Proof.
  induction names as [| b rest IH]; intros results Hall.
  - exact I.
  - cbn [Sdk.CheckBuckets_from]. unfold checkGetACL, checkPutACL.
    assert (Hin : In b all) by (apply Hall; left; reflexivity).
    do 8 next_check Hin.
    apply IH. intros x Hx. apply Hall. right. exact Hx.
Qed.

(** X3. The checks and the drivers touch only the buckets they are given.
    In every world, on every path and under every schedule of the
    goroutines, every command that is run is [aws s3api <op> --bucket b
    ...] for one of the seven operations of the checks, and every SDK
    operation names [b], where [b] is the bucket the check was asked
    about, and for a driver one of the identifiers of its input: trimmed
    and not blank for the stream drivers, as given for the batch
    drivers. *)
Theorem X3_checks_and_drivers_touch_only_the_buckets_given :
  Forall (fun check =>
            in_every_run check (fun b tr _ => Forall (about [b]) tr))
    all_checks
  /\ (forall (W : World) c names scheds (w : state W),
        Forall (about (probed names))
          (trace_of (Cli.CheckBucketsStream W c names scheds w)))
  /\ (forall (W : World) c names (w : state W),
        Forall (about (probed names))
          (trace_of (run W (Sdk.CheckBucketsStream c names) w)))
  /\ (forall (W : World) c names (w : state W),
        Forall (about names)
          (trace_of (run W (Cli.CheckBuckets c names) w)))
  /\ (forall (W : World) c names (w : state W),
        Forall (about names)
          (trace_of (run W (Sdk.CheckBuckets c names) w))).
Proof.
  split; [| split; [| split; [| split]]].
  - apply List.Forall_forall. intros check Hcheck W c b w.
    apply (run_safe W any_answer (about [b]) (fun _ => True)
             _ w (any_answer_within W)).
    apply check_about; [exact Hcheck | left; reflexivity].
  - intros W c names scheds w. apply Cli_stream_about, incl_refl.
  - intros W c names w.
    apply (run_safe W any_answer (about (probed names)) (fun _ => True)
             _ w (any_answer_within W)).
    apply Sdk_stream_about, incl_refl.
  - intros W c names w.
    apply (run_safe W any_answer (about names) (fun _ => True)
             _ w (any_answer_within W)).
    apply Cli_batch_about, incl_refl.
  - intros W c names w.
    apply (run_safe W any_answer (about names) (fun _ => True)
             _ w (any_answer_within W)).
    apply Sdk_batch_about, incl_refl.
Qed.

(** ** The library functions *)

Lemma length_list_ascii_of_string (s : string) :
  length (list_ascii_of_string s) = String.length s.
Proof. induction s; simpl; congruence. Qed.

Lemma trimWith_suffix (width : list ascii -> nat) fuel bs :
  exists n, trimWith width fuel bs = drop n bs.
Proof.
  revert bs; induction fuel as [| fuel IH]; intros bs; simpl.
  - exists 0; reflexivity.
  - destruct (width bs) as [| w].
    + exists 0; reflexivity.
    + destruct (IH (drop (S w) bs)) as [m Hm].
      exists (S w + m). rewrite Hm. apply drop_drop.
Qed.

Lemma trimWith_fixed (width : list ascii -> nat) fuel bs :
  width [] = 0 -> length bs <= fuel -> width (trimWith width fuel bs) = 0.
Proof.
  intros Hnil; revert bs; induction fuel as [| fuel IH]; intros bs Hlen;
    simpl.
  - destruct bs; [exact Hnil | simpl in Hlen; lia].
  - destruct (width bs) as [| w] eqn:E; [exact E |].
    apply IH. rewrite length_drop. lia.
Qed.

Lemma trimWith_id (width : list ascii -> nat) fuel bs :
  width bs = 0 -> trimWith width fuel bs = bs.
Proof. intros E. destruct fuel; simpl; [| rewrite E]; reflexivity. Qed.

Lemma trimWith_length (width : list ascii -> nat) fuel bs :
  length (trimWith width fuel bs) <= length bs.
Proof.
  destruct (trimWith_suffix width fuel bs) as [n ->].
  rewrite length_drop. lia.
Qed.

Lemma leadingSpace_take n l :
  leadingSpace l = 0 -> leadingSpace (take n l) = 0.
Proof.
  destruct l as [| a [| b [| c l]]]; destruct n as [| [| [| n]]]; simpl;
    try reflexivity;
    destruct (asciiSpace a); try discriminate; try reflexivity;
    destruct (space2 a b); try discriminate; try reflexivity;
    destruct (space3 a b c); try discriminate; reflexivity.
Qed.

(** What [TrimSpace] returns has no white space at either end. *)
Lemma TrimSpace_trimmed (s : string) :
  let t := list_ascii_of_string (TrimSpace s) in
  leadingSpace t = 0 /\ trailingSpace (rev t) = 0.
Proof.
  unfold TrimSpace; cbv zeta.
  rewrite list_ascii_of_string_of_list_ascii.
  set (bs := list_ascii_of_string s).
  set (l := trimWith leadingSpace (length bs) bs).
  set (r := trimWith trailingSpace (length l) (rev l)).
  assert (Hl : leadingSpace l = 0)
    by (apply trimWith_fixed; [reflexivity | lia]).
  assert (Hr : trailingSpace r = 0)
    by (apply trimWith_fixed; [reflexivity | rewrite length_rev; lia]).
  split.
  - destruct (trimWith_suffix trailingSpace (length l) (rev l)) as [n Hn].
    fold r in Hn. rewrite Hn, skipn_rev, rev_involutive.
    apply leadingSpace_take, Hl.
  - rewrite rev_involutive. exact Hr.
Qed.

Lemma TrimSpace_of_trimmed (s : string) :
  leadingSpace (list_ascii_of_string s) = 0 ->
  trailingSpace (rev (list_ascii_of_string s)) = 0 ->
  TrimSpace s = s.
Proof.
  intros Hl Hr. unfold TrimSpace; cbv zeta.
  rewrite (trimWith_id leadingSpace _ _ Hl).
  rewrite (trimWith_id trailingSpace _ _ Hr).
  rewrite rev_involutive. apply string_of_list_ascii_of_string.
Qed.

Lemma TrimSpace_idempotent (s : string) :
  TrimSpace (TrimSpace s) = TrimSpace s.
Proof.
  destruct (TrimSpace_trimmed s) as [Hl Hr].
  apply TrimSpace_of_trimmed; assumption.
Qed.

Lemma TrimSpace_len (s : string) : (len (TrimSpace s) <= len s)%Z.
Proof.
  unfold len, TrimSpace; cbv zeta.
  rewrite <- !length_list_ascii_of_string.
  rewrite list_ascii_of_string_of_list_ascii, length_rev.
  pose proof (trimWith_length trailingSpace
    (length (trimWith leadingSpace (length (list_ascii_of_string s))
               (list_ascii_of_string s)))
    (rev (trimWith leadingSpace (length (list_ascii_of_string s))
            (list_ascii_of_string s)))) as H1.
  rewrite length_rev in H1.
  pose proof (trimWith_length leadingSpace
    (length (list_ascii_of_string s)) (list_ascii_of_string s)) as H2.
  lia.
Qed.

Lemma probed_clean (bucketNames : list string) :
  Forall clean (probed bucketNames).
Proof.
  unfold probed. apply List.Forall_forall. intros b Hb.
  apply List.filter_In in Hb as [Hin Hne].
  apply List.in_map_iff in Hin as [b0 [<- _]].
  split; [apply TrimSpace_idempotent |].
  intros E. rewrite E in Hne. discriminate Hne.
Qed.

Lemma probed_of_clean (bucketNames : list string) :
  Forall clean bucketNames -> probed bucketNames = bucketNames.
Proof.
  unfold probed. induction 1 as [| b l [Ht Hne] _ IH]; simpl.
  - reflexivity.
  - rewrite Ht. destruct (String.eqb_spec b EmptyString) as [E | _].
    + contradiction.
    + simpl. f_equal. exact IH.
Qed.

Lemma scan_from (lines buckets : list string) :
  fold_left
    (fun buckets text =>
       let line := TrimSpace text in
       if negb (String.eqb line EmptyString)
       then buckets ++ [line]
       else buckets)
    lines buckets
  = buckets ++ probed lines.
Proof.
  revert buckets; induction lines as [| text lines IH]; intros buckets;
    simpl.
  - symmetry; apply app_nil_r.
  - rewrite IH. unfold probed; simpl.
    destruct (String.eqb (TrimSpace text) EmptyString); simpl.
    + reflexivity.
    + rewrite <- app_assoc. reflexivity.
Qed.

Lemma scan_probed (scanner : Cmd.Scanner) :
  fst (Cmd.scan scanner) = probed (Cmd.Text scanner).
Proof. unfold Cmd.scan; simpl. apply scan_from. Qed.

(** ** The command: widths, readers and the run *)

Lemma width_from (buckets : list string) (m : Z) :
  let w := fold_left
             (fun maxWidth bucket =>
                if (len bucket >? maxWidth)%Z then len bucket else maxWidth)
             buckets m in
  (m <= w)%Z
  /\ Forall (fun b => (len b <= w)%Z) buckets
  /\ (w = m \/ Exists (fun b => w = len b) buckets).
Proof.
  revert m; induction buckets as [| b rest IH]; intros m; simpl.
  - split; [lia | split; [constructor | left; reflexivity]].
  - specialize (IH (if (len b >? m)%Z then len b else m)).
    simpl in IH. destruct IH as (Hm & Hall & Hex).
    destruct (Z.gtb_spec (len b) m) as [Hgt | Hle].
    + split; [lia | split].
      * constructor; [exact Hm | exact Hall].
      * right. destruct Hex as [-> | Hex].
        -- apply Exists_cons_hd. reflexivity.
        -- apply Exists_cons_tl. exact Hex.
    + split; [exact Hm | split].
      * constructor; [lia | exact Hall].
      * destruct Hex as [-> | Hex]; [left; reflexivity |].
        right. apply Exists_cons_tl. exact Hex.
Qed.

Lemma calculateMaxBucketWidth_greatest (buckets : list string) :
  greatest_width buckets (Cmd.calculateMaxBucketWidth buckets)
  /\ (Cmd.calculateMaxBucketWidth buckets <? len "BUCKET")%Z = false.
Proof.
  pose proof (width_from buckets (len "BUCKET")) as H.
  simpl in H. fold (Cmd.calculateMaxBucketWidth buckets) in H.
  split; [exact H |].
  apply Z.ltb_ge. apply H.
Qed.

(** X11. [calculateMaxBucketWidth] returns the greatest length in bytes
    among the word BUCKET and the identifiers: it is at least 6, no
    identifier is longer, and it is 6 or the length of one of them.  So
    the test for a minimum width that [runCheck] makes on its result never
    holds. *)
Theorem X11_width_is_the_greatest_length (buckets : list string) :
  greatest_width buckets (Cmd.calculateMaxBucketWidth buckets)
  /\ (Cmd.calculateMaxBucketWidth buckets <? len "BUCKET")%Z = false.
Proof.
  exact (calculateMaxBucketWidth_greatest buckets).
Qed.

Lemma scan_reads (scanner : Cmd.Scanner) : reads scanner (Cmd.scan scanner).
Proof.
  split; [apply scan_probed | split; [reflexivity |]].
  rewrite scan_probed. apply probed_clean.
Qed.

Lemma Cli_stream_names (W : World) c names scheds (w : state W) :
  map BucketName
    (sink_calls (trace_of (Cli.CheckBucketsStream W c names scheds w)))
  = probed names.
Proof.
  apply (Cli_driver W any_answer verdict c _ (any_answer_within W)
           (goroutines_verdict c)).
Qed.

Lemma Sdk_stream_names (W : World) c names (w : state W) :
  map BucketName
    (sink_calls (trace_of (run W (Sdk.CheckBucketsStream c names) w)))
  = probed names.
Proof.
  apply (run_always_any W _ _ w
           (Sdk_driver any_answer verdict c (Sdk_checks_verdict c) names)).
Qed.


(** *** The process while the checker runs *)

Lemma printed_app tr1 tr2 p :
  printed (tr1 ++ tr2) p = printed tr2 (printed tr1 p).
Proof. unfold printed. rewrite sink_calls_app. apply fold_left_app. Qed.

Lemma printed_probes tr p : Forall probe_event tr -> printed tr p = p.
Proof.
  intros H. unfold printed. rewrite (probe_events_no_sink _ H). reflexivity.
Qed.

Lemma terminal_handle (W : World) {X : Type} (c : Call X)
    (s : state (Cmd.terminal W)) :
  snd (snd (handle (Cmd.terminal W) X c s))
  = printed [event_of c (fst (handle (Cmd.terminal W) X c s))] (snd s).
Proof.
  destruct s as [w p].
  destruct c; simpl;
    try (destruct (handle W _ _ w); reflexivity); reflexivity.
Qed.

Lemma terminal_run (W : World) {A : Type} (prog : Prog A)
    (s : state (Cmd.terminal W)) :
  snd (snd (fst (run (Cmd.terminal W) prog s)))
  = printed (trace_of (run (Cmd.terminal W) prog s)) (snd s).
Proof.
  revert s; induction prog as [a | X c k IH | msg k IH]; intros s.
  - reflexivity.
  - cbn [run].
    pose proof (terminal_handle W c s) as Hc.
    destruct (handle (Cmd.terminal W) X c s) as [x s1].
    specialize (IH x s1).
    destruct (run (Cmd.terminal W) (k x) s1) as [[a s2] tr].
    cbn [fst snd trace_of] in *.
    change (event_of c x :: tr) with ([event_of c x] ++ tr).
    rewrite printed_app, <- Hc. exact IH.
  - cbn [run]. specialize (IH s).
    destruct (run (Cmd.terminal W) k s) as [[a s1] tr].
    cbn [fst snd trace_of] in *. exact IH.
Qed.

Lemma terminal_step (W : World) (p0 : Cmd.Process)
    (pool : Cli.Pool (Cmd.terminal W)) (i : nat) :
  snd (Cli.world pool) = printed (Cli.events pool) p0 ->
  snd (Cli.world (Cli.step (Cmd.terminal W) pool i))
  = printed (Cli.events (Cli.step (Cmd.terminal W) pool i)) p0.
Proof.
  intros H. unfold Cli.step.
  destruct (Cli.threads pool !! i) as [[[m | X c k | msg k] |] |];
    try exact H.
  - pose proof (terminal_handle W c (Cli.world pool)) as Hc.
    destruct (handle (Cmd.terminal W) X c (Cli.world pool)) as [x s1].
    cbn [Cli.world Cli.events fst snd] in *.
    rewrite printed_app, <- H. exact Hc.
  - cbn [Cli.world Cli.events]. rewrite printed_app, <- H. reflexivity.
Qed.

Lemma terminal_schedule (W : World) (p0 : Cmd.Process) (sched : list nat) :
  forall pool : Cli.Pool (Cmd.terminal W),
  snd (Cli.world pool) = printed (Cli.events pool) p0 ->
  snd (Cli.world (fold_left (Cli.step (Cmd.terminal W)) sched pool))
  = printed
      (Cli.events (fold_left (Cli.step (Cmd.terminal W)) sched pool)) p0.
Proof.
  induction sched as [| i sched IH]; intros pool H; simpl.
  - exact H.
  - apply IH, terminal_step, H.
Qed.

Lemma terminal_wait (W : World) (p0 : Cmd.Process) ts :
  forall chan (s : state (Cmd.terminal W)) tr,
  snd s = printed tr p0 ->
  snd (snd (fst (Cli.wait (Cmd.terminal W) ts chan s tr)))
  = printed (snd (Cli.wait (Cmd.terminal W) ts chan s tr)) p0.
Proof.
  induction ts as [| [t |] ts IH]; intros chan s tr H; simpl.
  - exact H.
  - pose proof (terminal_run W t s) as Ht.
    destruct (run (Cmd.terminal W) t s) as [[m s1] tr1].
    cbn [fst snd trace_of] in Ht.
    apply IH. rewrite printed_app, <- H. exact Ht.
  - apply IH, H.
Qed.

Lemma terminal_parallel (W : World) sched ts (s : state (Cmd.terminal W)) :
  snd (snd (fst (Cli.parallel (Cmd.terminal W) sched ts s)))
  = printed (snd (Cli.parallel (Cmd.terminal W) sched ts s)) (snd s).
Proof.
  unfold Cli.parallel. apply terminal_wait.
  apply terminal_schedule. reflexivity.
Qed.

(** The goroutine driver with [printResult] for its sink: the process it
    ends in is the one it started in with the rows written. *)
Lemma terminal_stream (W : World) c len names :
  forall i scheds (s : state (Cmd.terminal W)),
  snd (snd (fst (Cli.CheckBucketsStream_from (Cmd.terminal W) c len i names
                   scheds s)))
  = printed
      (snd (Cli.CheckBucketsStream_from (Cmd.terminal W) c len i names
              scheds s))
      (snd s).
Proof.
  induction names as [| b rest IH]; intros i scheds s.
  - reflexivity.
  - cbn [Cli.CheckBucketsStream_from].
    destruct (String.eqb (TrimSpace b) EmptyString); [apply IH |].
    pose proof (terminal_parallel W (hd [] scheds)
                  (Cli.goroutines c (TrimSpace b)) s) as Hpar.
    destruct (Cli.parallel (Cmd.terminal W) (hd [] scheds)
                (Cli.goroutines c (TrimSpace b)) s) as [[chan s1] tr1].
    cbn [fst snd] in Hpar.
    match goal with
    | |- context [handle _ unit (Callback ?res) s1] => set (result := res)
    end.
    pose proof (terminal_handle W (Callback result) s1) as Hcb.
    destruct (handle (Cmd.terminal W) unit (Callback result) s1)
      as [[] s2].
    cbn [fst snd event_of] in Hcb.
    destruct (i <? len - 1)%Z.
    + pose proof (terminal_handle W (Sleep Cli.pause) s2) as Hsl.
      destruct (handle (Cmd.terminal W) unit (Sleep Cli.pause) s2)
        as [[] s3].
      cbn [fst snd event_of] in Hsl.
      specialize (IH (i + 1)%Z (tl scheds) s3).
      destruct (Cli.CheckBucketsStream_from (Cmd.terminal W) c len (i + 1)
                  rest (tl scheds) s3) as [[e s4] tr4].
      cbn [fst snd] in *.
      rewrite printed_app.
      change (EvCallback result :: [EvSleep Cli.pause] ++ tr4)
        with ([EvCallback result] ++ [EvSleep Cli.pause] ++ tr4).
      rewrite !printed_app, <- Hpar, <- Hcb, <- Hsl. exact IH.
    + specialize (IH (i + 1)%Z (tl scheds) s2).
      destruct (Cli.CheckBucketsStream_from (Cmd.terminal W) c len (i + 1)
                  rest (tl scheds) s2) as [[e s4] tr4].
      cbn [fst snd] in *.
      rewrite printed_app.
      change (EvCallback result :: [] ++ tr4)
        with ([EvCallback result] ++ tr4).
      rewrite !printed_app, <- Hpar, <- Hcb. exact IH.
Qed.

(** *** The run of the command *)

Lemma probed_len (w : Z) (buckets : list string) :
  Forall (fun b => (len b <= w)%Z) buckets ->
  Forall (fun b => (len b <= w)%Z) (probed buckets).
Proof.
  intros H. unfold probed. apply List.Forall_forall. intros b Hb.
  apply List.filter_In in Hb as [Hin _].
  apply List.in_map_iff in Hin as [b0 [<- Hin]].
  pose proof (proj1 (List.Forall_forall _ _) H b0 Hin) as H0. simpl in H0.
  pose proof (TrimSpace_len b0). lia.
Qed.

(** From the identifiers on: either there are none, or the table is
    printed for them. *)
Lemma runCheck_tail (W : World) (fl : Cmd.Flags) (args : list string)
    (os : Cmd.Os) (scheds : list (list nat)) (buckets : list string)
    (w : state W) (p0 : Cmd.Process) (tr : list Event) :
  (forall tr', chosen fl args os (tr ++ tr') buckets) ->
  (tr = []
   \/ exists output err,
        tr = [EvCombinedOutput list_buckets_argv output err]) ->
  runCheck_outcome fl args os p0
    (if (Z.of_nat (length buckets) =? 0)%Z
     then (Some "no buckets to check", (w, p0), tr)
     else
       let p := Cmd.set_maxBucketWidth (Cmd.calculateMaxBucketWidth buckets)
                  p0 in
       let p := if (Cmd.maxBucketWidth p <? len "BUCKET")%Z
                then Cmd.set_maxBucketWidth (len "BUCKET") p
                else p in
       let checker := SetVerbose (fst Cli.NewChecker) (Cmd.verbose fl) in
       let p := Cmd.printHeader p in
       let '(err, s, tr') :=
         Cli.CheckBucketsStream (Cmd.terminal W) checker buckets scheds
           (w, p) in
       match err with
       | Some e => (Errorf "error checking buckets: " e, s, tr ++ tr')
       | None => (None, (fst s, Cmd.printLegend (snd s)), tr ++ tr')
       end).
Proof.
  intros Hchosen Htr.
  assert (Hquiet : sink_calls tr = [])
    by (destruct Htr as [-> | (output & err & ->)]; reflexivity).
  destruct (Z.eqb_spec (Z.of_nat (length buckets)) 0) as [Hlen | Hlen].
  - split; [reflexivity | exact Htr].
  - cbv zeta. cbn [Cmd.maxBucketWidth Cmd.set_maxBucketWidth].
    destruct (calculateMaxBucketWidth_greatest buckets) as [Hw Hguard]. rewrite Hguard.
    set (c := SetVerbose (fst Cli.NewChecker) (Cmd.verbose fl)).
    set (p := Cmd.printHeader _).
    pose proof (Cli_driver (Cmd.terminal W) any_answer verdict c
                  (Z.of_nat (length buckets))
                  (any_answer_within (Cmd.terminal W))
                  (goroutines_verdict c) buckets 0%Z scheds (w, p))
      as Hdrv.
    pose proof (terminal_stream W c (Z.of_nat (length buckets)) buckets
                  0%Z scheds (w, p)) as Hproc.
    unfold Cli.CheckBucketsStream.
    destruct (Cli.CheckBucketsStream_from (Cmd.terminal W) c
                (Z.of_nat (length buckets)) 0 buckets scheds (w, p))
      as [[e s] tr'].
    cbn [fst snd] in Hdrv, Hproc.
    destruct Hdrv as (-> & Hall & Hnames & _).
    unfold runCheck_outcome, table_printed, result_of, trace_of.
    cbn [fst snd].
    exists buckets. split; [apply Hchosen | split; [| split; [| split]]].
    + intros ->. apply Hlen. reflexivity.
    + f_equal. unfold printed. rewrite sink_calls_app, Hquiet. simpl.
      exact Hproc.
    + rewrite sink_calls_app, Hquiet. exact Hnames.
    + rewrite sink_calls_app, Hquiet. simpl. split; [exact Hall |].
      apply (Forall_map BucketName
               (fun b => (len b <= Cmd.calculateMaxBucketWidth buckets)%Z)).
      rewrite Hnames. apply probed_len. apply Hw.
Qed.

(** X15. The command from end to end, in every world, for every setting of
    the flags, arguments and standard input, and under every schedule of
    the goroutines.  If [runCheck] returns an error it has written nothing,
    probed no bucket and made no call but, at most, the listing.  If it
    returns [nil], the identifiers were chosen by the priority flag for
    standard input, file, arguments, piped standard input, listing, and
    there was at least one; the width of the first column is the greatest
    length among them and the word BUCKET; and what it has written is the
    header, one row for each identifier that is not blank, trimmed and in
    order, each row with eight verdicts and a name that fits the column,
    and the legend. *)
Theorem X15_command_prints_the_table_or_fails_early (W : World)
    (fl : Cmd.Flags) (args : list string) (os : Cmd.Os)
    (scheds : list (list nat)) (w : state W) (p0 : Cmd.Process) :
  runCheck_outcome fl args os p0
    (Cmd.runCheck W fl args os scheds (w, p0)).
Proof.
  unfold Cmd.runCheck.
  destruct (Cmd.fromStdin fl) eqn:Hstdin.
  { destruct (Cmd.readFromStdin os) as [buckets [e |]] eqn:Hread.
    - split; [reflexivity | left; reflexivity].
    - apply runCheck_tail; [| left; reflexivity].
      intros tr'.
      replace buckets with (fst (Cmd.readFromStdin os))
        by (rewrite Hread; reflexivity).
      apply chosen_stdin_flag, Hstdin. }
  destruct (String.eqb_spec (Cmd.fromFile fl) EmptyString) as [Hfile | Hfile];
    cbn [negb].
  2: { destruct (Cmd.readFromFile os (Cmd.fromFile fl))
         as [buckets [e |]] eqn:Hread.
       - split; [reflexivity | left; reflexivity].
       - apply runCheck_tail; [| left; reflexivity].
         intros tr'.
         replace buckets with (fst (Cmd.readFromFile os (Cmd.fromFile fl)))
           by (rewrite Hread; reflexivity).
         apply chosen_file; assumption. }
  destruct (Z.gtb_spec (Z.of_nat (length args)) 0) as [Hargs | Hargs].
  { apply runCheck_tail; [| left; reflexivity].
    intros tr'. apply chosen_args; try assumption.
    intros ->. simpl in Hargs. lia. }
  assert (Hnil : args = [])
    by (destruct args; [reflexivity | simpl in Hargs; lia]).
  destruct (Cmd.isStdinPipe os) eqn:Hpipe.
  { destruct (Cmd.readFromStdin os) as [buckets [e |]] eqn:Hread.
    - split; [reflexivity | left; reflexivity].
    - destruct (Z.eqb_spec (Z.of_nat (length buckets)) 0) as [Hlen | Hlen].
      + split; [reflexivity | left; reflexivity].
      + apply runCheck_tail; [| left; reflexivity].
        intros tr'.
        replace buckets with (fst (Cmd.readFromStdin os))
          by (rewrite Hread; reflexivity).
        apply chosen_pipe; assumption. }
  cbn [Cli.NewChecker Cli.ListAllBuckets run].
  unfold Cli.ListAllBuckets. cbn [mbind Prog_bind bind call run].
  fold list_buckets_argv.
  pose proof (terminal_handle W (CombinedOutput list_buckets_argv) (w, p0))
    as Hh.
  destruct (handle (Cmd.terminal W) (string * error)
              (CombinedOutput list_buckets_argv) (w, p0))
    as [[output [e |]] [w1 p1]].
  - cbn in Hh. subst p1. split; [reflexivity |].
    right. exists output, (Some e). reflexivity.
  - cbn in Hh. subst p1 args. cbn.
    apply (runCheck_tail W fl [] os scheds (Fields output) w1 p0
             [EvCombinedOutput list_buckets_argv output None]).
    + intros tr'.
      apply (chosen_listing fl [] os _ output tr'); auto.
    + right. exists output, None. reflexivity.
Qed.

(** ** The table *)

Lemma append_cons (x : ascii) (a b : string) :
  String x a +:+ b = String x (a +:+ b).
Proof. reflexivity. Qed.

Lemma append_nil_l (b : string) : EmptyString +:+ b = b.
Proof. reflexivity. Qed.

Lemma append_assoc (a b c : string) : (a +:+ b) +:+ c = a +:+ (b +:+ c).
Proof.
  induction a as [| x a IH]; rewrite ?append_nil_l, ?append_cons;
    congruence.
Qed.

Lemma append_nil_r (a : string) : a +:+ EmptyString = a.
Proof.
  induction a as [| x a IH]; rewrite ?append_nil_l, ?append_cons;
    congruence.
Qed.

Lemma length_append (a b : string) :
  String.length (a +:+ b) = String.length a + String.length b.
Proof.
  induction a as [| x a IH]; rewrite ?append_nil_l, ?append_cons; simpl;
    congruence.
Qed.

Lemma iter_append_S (c : ascii) (n : nat) :
  Nat.iter (S n) (String.append (String c EmptyString)) EmptyString
  = String c (Nat.iter n (String.append (String c EmptyString)) EmptyString).
Proof. reflexivity. Qed.

Lemma length_Repeat (c : ascii) (k : Z) :
  String.length (Repeat (String c EmptyString) k) = Z.to_nat k.
Proof.
  unfold Repeat. induction (Z.to_nat k) as [| n IH]; [reflexivity |].
  rewrite iter_append_S. simpl. rewrite IH. reflexivity.
Qed.

Lemma plain_app (a b : string) : plain a -> plain b -> plain (a +:+ b).
Proof.
  unfold plain. intros Ha Hb.
  induction a as [| x a IH]; rewrite ?append_nil_l, ?append_cons;
    simpl in *.
  - exact Hb.
  - apply andb_true_iff in Ha as [Hx Ha]. rewrite Hx. simpl. auto.
Qed.

Lemma plain_Repeat (c : ascii) (k : Z) :
  plain_byte c = true -> plain (Repeat (String c EmptyString) k).
Proof.
  intros Hc. unfold plain, Repeat.
  induction (Z.to_nat k) as [| n IH]; [reflexivity |].
  rewrite iter_append_S. simpl. rewrite Hc. exact IH.
Qed.

(** The runes of a text of plain bytes are its bytes. *)
Lemma countRunes_plain (bs : list ascii) :
  forallb plain_byte bs = true -> countRunes (length bs) bs = length bs.
Proof.
  induction bs as [| c bs IH]; simpl; intros H; [reflexivity |].
  apply andb_true_iff in H as [Hc H].
  unfold plain_byte in Hc.
  apply andb_true_iff in Hc as [Hc _].
  apply andb_true_iff in Hc as [Hc _].
  apply andb_true_iff in Hc as [Hc _].
  apply Nat.ltb_lt in Hc.
  unfold runeWidth.
  destruct (Nat.ltb_spec (nat_of_ascii c) 128) as [_ | Hge]; [| lia].
  change (drop 1 (c :: bs)) with bs. rewrite IH by exact H. reflexivity.
Qed.

Lemma RuneCountInString_plain (s : string) :
  plain s -> RuneCountInString s = len s.
Proof.
  intros H. unfold RuneCountInString, len. cbv zeta.
  rewrite countRunes_plain by exact H.
  rewrite length_list_ascii_of_string. reflexivity.
Qed.

(** The first column: a plain name no longer than the width is padded
    with blanks to the width. *)
Lemma padStar_plain (w : Z) (s : string) :
  plain s -> (0 < w <= 1000000)%Z -> (len s <= w)%Z ->
  padStar w s = s +:+ Repeat " " (w - len s)
  /\ plain (padStar w s)
  /\ String.length (padStar w s) = Z.to_nat w.
Proof.
  intros Hs Hw Hlen.
  assert (E : padStar w s = s +:+ Repeat " " (w - len s)).
  { unfold padStar, tooLarge.
    destruct (Z.gtb_spec w 1000000) as [| _]; [lia |].
    destruct (Z.ltb_spec w (-1000000)) as [| _]; [lia |].
    cbn [orb]. rewrite Z.abs_eq by lia.
    unfold padString. destruct (Z.eqb_spec w 0) as [| _]; [lia |].
    cbv zeta. rewrite (RuneCountInString_plain s Hs).
    destruct (Z.leb_spec (w - len s) 0) as [Hle | Hgt]; [| reflexivity].
    replace (w - len s)%Z with 0%Z by lia.
    symmetry. apply append_nil_r. }
  rewrite E. split; [reflexivity | split].
  - apply plain_app; [exact Hs | apply plain_Repeat; reflexivity].
  - rewrite length_append, length_Repeat. unfold len in *. lia.
Qed.

Lemma line_marks_nonempty (s : string) : line_marks s <> [].
Proof.
  induction s as [| c s IH]; simpl; [discriminate |].
  destruct (Ascii.eqb c (ascii_of_nat 10)); [discriminate |].
  destruct (line_marks s); discriminate.
Qed.

(** A plain text at the start of a line takes as many columns as it has
    bytes and holds no mark. *)
Lemma first_column (F t : string) :
  plain F ->
  line_marks (visible (F +:+ t))
  = (replicate (String.length F) false ++ hd [] (line_marks (visible t)))
    :: tl (line_marks (visible t)).
Proof.
  unfold plain, visible.
  induction F as [| c F IH]; rewrite ?append_nil_l, ?append_cons; simpl;
    intros H.
  - pose proof (line_marks_nonempty (shown false t)).
    destruct (line_marks (shown false t)); [contradiction | reflexivity].
  - apply andb_true_iff in H as [Hc H].
    unfold plain_byte in Hc.
    apply andb_true_iff in Hc as [Hc Hnl].
    apply andb_true_iff in Hc as [Hc Hesc].
    apply andb_true_iff in Hc as [_ Hmark].
    apply negb_true_iff in Hnl, Hesc, Hmark.
    rewrite Hesc. simpl. rewrite Hnl, Hmark, (IH H). reflexivity.
Qed.

(** The eight cells of a row and the end of the line. *)
Lemma cells_marks (r : BucketResult) (t : string) :
  all_verdicts r ->
  line_marks
    (visible
       (" | " +:+ Cmd.colorizeStatus (GetACL r) 8
        +:+ " | " +:+ Cmd.colorizeStatus (PutACL r) 8
        +:+ " | " +:+ Cmd.colorizeStatus (AnonGet r) 9
        +:+ " | " +:+ Cmd.colorizeStatus (AuthGet r) 9
        +:+ " | " +:+ Cmd.colorizeStatus (AnonWrite r) 10
        +:+ " | " +:+ Cmd.colorizeStatus (AuthWrite r) 10
        +:+ " | " +:+ Cmd.colorizeStatus (AnonDel r) 9
        +:+ " | " +:+ Cmd.colorizeStatus (AuthDel r) 9
        +:+ newline +:+ t))
  = concat (map (fun n => [false; true; false] ++ replicate n false)
              [8; 8; 9; 9; 10; 10; 9; 9])
    :: line_marks (visible t).
Proof.
  destruct r as [name v1 v2 v3 v4 v5 v6 v7 v8]. unfold all_verdicts, verdict.
  simpl. intros (H1 & H2 & H3 & H4 & H5 & H6 & H7 & H8).
  destruct H1 as [-> | ->], H2 as [-> | ->], H3 as [-> | ->],
    H4 as [-> | ->], H5 as [-> | ->], H6 as [-> | ->], H7 as [-> | ->],
    H8 as [-> | ->]; reflexivity.
Qed.

Lemma row_marks (w : Z) (r : BucketResult) (t : string) :
  (0 < w <= 1000000)%Z -> fits w r ->
  line_marks
    (visible
       ((padStar w (BucketName r)
         +:+ " | " +:+ Cmd.colorizeStatus (GetACL r) 8
         +:+ " | " +:+ Cmd.colorizeStatus (PutACL r) 8
         +:+ " | " +:+ Cmd.colorizeStatus (AnonGet r) 9
         +:+ " | " +:+ Cmd.colorizeStatus (AuthGet r) 9
         +:+ " | " +:+ Cmd.colorizeStatus (AnonWrite r) 10
         +:+ " | " +:+ Cmd.colorizeStatus (AuthWrite r) 10
         +:+ " | " +:+ Cmd.colorizeStatus (AnonDel r) 9
         +:+ " | " +:+ Cmd.colorizeStatus (AuthDel r) 9
         +:+ newline) +:+ t))
  = layout w :: line_marks (visible t).
Proof.
  intros Hw (Hv & Hplain & Hlen).
  destruct (padStar_plain w (BucketName r) Hplain Hw Hlen)
    as (_ & Hp & Hl).
  rewrite !append_assoc.
  rewrite (first_column _ _ Hp), (cells_marks r t Hv), Hl.
  reflexivity.
Qed.

Lemma header_cells_marks (t : string) :
  line_marks
    (visible
       (" | " +:+ padString 8 "GET-ACL" +:+ " | " +:+ padString 8 "PUT-ACL"
        +:+ " | " +:+ padString 9 "ANON-GET"
        +:+ " | " +:+ padString 9 "AUTH-GET"
        +:+ " | " +:+ padString 10 "ANON-WRITE"
        +:+ " | " +:+ padString 10 "AUTH-WRITE"
        +:+ " | " +:+ padString 9 "ANON-DEL"
        +:+ " | " +:+ padString 9 "AUTH-DEL" +:+ newline +:+ t))
  = concat (map (fun n => [false; true; false] ++ replicate n false)
              [8; 8; 9; 9; 10; 10; 9; 9])
    :: line_marks (visible t).
Proof. reflexivity. Qed.

Lemma separator_cells_marks (t : string) :
  line_marks
    (visible
       ("-+-" +:+ Repeat "-" 8 +:+ "-+-" +:+ Repeat "-" 8
        +:+ "-+-" +:+ Repeat "-" 9 +:+ "-+-" +:+ Repeat "-" 9
        +:+ "-+-" +:+ Repeat "-" 10 +:+ "-+-" +:+ Repeat "-" 10
        +:+ "-+-" +:+ Repeat "-" 9 +:+ "-+-" +:+ Repeat "-" 9
        +:+ newline +:+ t))
  = concat (map (fun n => [false; true; false] ++ replicate n false)
              [8; 8; 9; 9; 10; 10; 9; 9])
    :: line_marks (visible t).
Proof. reflexivity. Qed.

Lemma header_marks (w : Z) (t : string) :
  (6 <= w <= 1000000)%Z ->
  line_marks
    (visible
       (Cmd.stdout
          (Cmd.printHeader
             {| Cmd.maxBucketWidth := w; Cmd.stdout := EmptyString |})
        +:+ t))
  = [] :: layout w :: layout w :: line_marks (visible t).
Proof.
  intros Hw.
  assert (HB : plain "BUCKET") by reflexivity.
  destruct (padStar_plain w "BUCKET" HB ltac:(lia) ltac:(apply Hw))
    as (_ & Hp & Hl).
  unfold Cmd.printHeader, Cmd.fmt_Println, Cmd.fmt_Printf.
  cbn [Cmd.maxBucketWidth Cmd.stdout].
  rewrite !append_assoc, !append_nil_l.
  change (line_marks (visible (newline +:+ ?x)))
    with ([] :: line_marks (visible x)).
  rewrite (first_column _ _ Hp), header_cells_marks, Hl.
  cbn [hd tl].
  rewrite (first_column _ _ (plain_Repeat "-" w eq_refl)),
    separator_cells_marks, length_Repeat.
  reflexivity.
Qed.

Lemma rows_marks (w : Z) (rows : list BucketResult) :
  (0 < w <= 1000000)%Z -> Forall (fits w) rows ->
  forall p, Cmd.maxBucketWidth p = w ->
  exists text,
    Cmd.stdout (fold_left (fun p r => Cmd.printResult r p) rows p)
    = Cmd.stdout p +:+ text
    /\ forall t,
         line_marks (visible (text +:+ t))
         = map (fun _ => layout w) rows ++ line_marks (visible t).
Proof.
  intros Hw. induction 1 as [| r rows Hr _ IH]; intros p Hp.
  - exists EmptyString. split; [symmetry; apply append_nil_r | reflexivity].
  - destruct (IH (Cmd.printResult r p) Hp) as (text & Hout & Hmarks).
    eexists. split.
    + cbn [fold_left]. rewrite Hout.
      unfold Cmd.printResult at 1, Cmd.fmt_Printf. cbn [Cmd.stdout].
      rewrite Hp. apply append_assoc.
    + intros t. rewrite append_assoc, (row_marks w r _ Hw Hr), Hmarks.
      reflexivity.
Qed.

(** X14. The table lines up.  When the width is at least 6 (as
    [calculateMaxBucketWidth] makes it) and at most a million (beyond
    which [fmt] rejects a width given as an argument) and every row holds
    eight verdicts and a name of plain ASCII bytes that is no longer than
    the width, the text that [printHeader] and [printResult] write is an empty line, the
    header, the separator and one line for each row, and, the colour
    sequences of [colorizeStatus] left out, every one of these lines has
    its column marks at the same places: the bars of the header and the
    rows stand under each other and over the pluses of the separator. *)
Theorem X14_table_lines_up (w : Z) (rows : list BucketResult) :
  (6 <= w <= 1000000)%Z -> Forall (fits w) rows -> aligned w rows.
Proof.
  intros Hw Hrows. unfold aligned, table.
  destruct (rows_marks w rows ltac:(lia) Hrows
              (Cmd.printHeader
                 {| Cmd.maxBucketWidth := w; Cmd.stdout := EmptyString |})
              eq_refl) as (text & -> & Hmarks).
  rewrite <- (append_nil_r text), (header_marks w _ Hw), Hmarks.
  reflexivity.
Qed.

Lemma X14_witness :
  aligned 8
    [{| BucketName := "bucket-a"; GetACL := "OK"; PutACL := "DENIED";
        AnonGet := "DENIED"; AuthGet := "OK"; AnonWrite := "DENIED";
        AuthWrite := "OK"; AnonDel := "DENIED"; AuthDel := "OK" |}].
Proof.
  apply X14_table_lines_up; [lia |].
  constructor; [| constructor].
  split; [| split].
  - unfold all_verdicts, verdict; simpl.
    repeat split; first [left; reflexivity | right; reflexivity].
  - reflexivity.
  - vm_compute. discriminate.
Defined.

(** ** The command on arguments *)

Lemma in_drop {A : Type} (n : nat) (l : list A) (x : A) :
  In x (drop n l) -> In x l.
Proof.
  revert l; induction n as [| n IH]; intros [| y l]; simpl; auto.
Qed.

Lemma plain_TrimSpace (s : string) : plain s -> plain (TrimSpace s).
Proof.
  unfold plain, TrimSpace. cbv zeta. intros H.
  rewrite list_ascii_of_string_of_list_ascii.
  rewrite forallb_forall in H |- *. intros x Hx. apply H.
  apply in_rev in Hx.
  destruct (trimWith_suffix trailingSpace
              (length (trimWith leadingSpace
                         (length (list_ascii_of_string s))
                         (list_ascii_of_string s)))
              (rev (trimWith leadingSpace
                      (length (list_ascii_of_string s))
                      (list_ascii_of_string s)))) as [n Hn].
  rewrite Hn in Hx. apply in_drop, in_rev in Hx.
  destruct (trimWith_suffix leadingSpace (length (list_ascii_of_string s))
              (list_ascii_of_string s)) as [m Hm].
  rewrite Hm in Hx. apply in_drop in Hx. exact Hx.
Qed.

Lemma probed_plain (buckets : list string) :
  Forall plain buckets -> Forall plain (probed buckets).
Proof.
  intros H. unfold probed. apply List.Forall_forall. intros b Hb.
  apply List.filter_In in Hb as [Hin _].
  apply List.in_map_iff in Hin as [b0 [<- Hin]].
  apply plain_TrimSpace.
  exact (proj1 (List.Forall_forall _ _) H b0 Hin).
Qed.

Lemma printResult_width (rows : list BucketResult) (p : Cmd.Process) :
  Cmd.maxBucketWidth (fold_left (fun p r => Cmd.printResult r p) rows p)
  = Cmd.maxBucketWidth p.
Proof.
  revert p; induction rows as [| r rows IH]; intros p; simpl;
    [| rewrite IH]; reflexivity.
Qed.

(** With identifiers to check the command does not fail. *)
Lemma runCheck_tail_result (W : World) (fl : Cmd.Flags)
    (scheds : list (list nat)) (buckets : list string)
    (w : state W) (p0 : Cmd.Process) (tr : list Event) :
  buckets <> [] ->
  result_of
    (if (Z.of_nat (length buckets) =? 0)%Z
     then (Some "no buckets to check", (w, p0), tr)
     else
       let p := Cmd.set_maxBucketWidth (Cmd.calculateMaxBucketWidth buckets)
                  p0 in
       let p := if (Cmd.maxBucketWidth p <? len "BUCKET")%Z
                then Cmd.set_maxBucketWidth (len "BUCKET") p
                else p in
       let checker := SetVerbose (fst Cli.NewChecker) (Cmd.verbose fl) in
       let p := Cmd.printHeader p in
       let '(err, s, tr') :=
         Cli.CheckBucketsStream (Cmd.terminal W) checker buckets scheds
           (w, p) in
       match err with
       | Some e => (Errorf "error checking buckets: " e, s, tr ++ tr')
       | None => (None, (fst s, Cmd.printLegend (snd s)), tr ++ tr')
       end)
  = None.
Proof.
  intros Hne.
  destruct (Z.eqb_spec (Z.of_nat (length buckets)) 0) as [Hlen | _].
  - destruct buckets; [contradiction | simpl in Hlen; lia].
  - cbv zeta.
    match goal with
    | |- context [Cli.CheckBucketsStream ?W' ?c ?bs ?sc ?s] =>
        pose proof (Cli_driver W' any_answer verdict c
                      (Z.of_nat (length bs)) (any_answer_within W')
                      (goroutines_verdict c) bs 0%Z sc s) as Hdrv;
        unfold Cli.CheckBucketsStream;
        destruct (Cli.CheckBucketsStream_from W' c (Z.of_nat (length bs)) 0
                    bs sc s) as [[e s1] tr']
    end.
    cbn [fst snd] in Hdrv. destruct Hdrv as (-> & _). reflexivity.
Qed.

Lemma runCheck_outcome_nil {St : Type} (fl : Cmd.Flags)
    (args : list string) (os : Cmd.Os) (p0 : Cmd.Process)
    (r : error * (St * Cmd.Process) * list Event) :
  result_of r = None ->
  runCheck_outcome fl args os p0 r -> table_printed fl args os p0 r.
Proof. unfold runCheck_outcome. intros ->. auto. Qed.

(** X16. The command on arguments.  With neither flag set, at least one
    argument and arguments of plain ASCII bytes, none longer than a
    million, in every world and under
    every schedule [runCheck] returns [nil], and what it has written,
    starting from nothing, is the table for the arguments that are not
    blank, trimmed and in order, and then the legend; the first column is
    as wide as the longest argument (at least 6) and the table lines
    up. *)
Theorem X16_arguments_give_an_aligned_table (W : World) (fl : Cmd.Flags)
    (args : list string) (os : Cmd.Os) (scheds : list (list nat))
    (w0 : state W) (width0 : Z) :
  Cmd.fromStdin fl = false -> Cmd.fromFile fl = EmptyString ->
  args <> [] -> Forall plain args ->
  Forall (fun a => (len a <= 1000000)%Z) args ->
  arguments_table args
    (Cmd.runCheck W fl args os scheds
       (w0, {| Cmd.maxBucketWidth := width0; Cmd.stdout := EmptyString |})).
Proof.
  intros Hstdin Hfile Hargs Hplain Hshort.
  set (p0 := {| Cmd.maxBucketWidth := width0; Cmd.stdout := EmptyString |}).
  assert (Hgt : (Z.of_nat (length args) >? 0)%Z = true).
  { destruct args; [contradiction | reflexivity]. }
  assert (Hc : forall tr', chosen fl args os ([] ++ tr') args)
    by (intros tr'; apply chosen_args; assumption).
  pose proof (runCheck_tail W fl args os scheds args w0 p0 [] Hc
                (or_introl eq_refl)) as Hout.
  pose proof (runCheck_tail_result W fl scheds args w0 p0 [] Hargs) as Hres.
  match type of Hres with
  | result_of ?t = None => set (run := t) in Hres
  end.
  change (runCheck_outcome fl args os p0 run) in Hout.
  assert (Hrun : Cmd.runCheck W fl args os scheds (w0, p0) = run).
  { unfold Cmd.runCheck. rewrite Hstdin, Hfile, Hgt. reflexivity. }
  rewrite Hrun.
  apply (runCheck_outcome_nil _ _ _ _ _ Hres) in Hout.
  destruct Hout as (buckets & Hchosen & _ & Hproc & Hnames & Hall & Hlen).
  assert (buckets = args) as ->.
  { destruct Hchosen; try reflexivity; congruence. }
  destruct (calculateMaxBucketWidth_greatest args) as [(Hw & _ & Hmax) _].
  change (len "BUCKET") with 6%Z in Hw, Hmax.
  assert (Hw' : (Cmd.calculateMaxBucketWidth args <= 1000000)%Z).
  { destruct Hmax as [-> | Hex]; [lia |].
    apply List.Exists_exists in Hex as (a & Ha & ->).
    exact (proj1 (List.Forall_forall _ _) Hshort a Ha). }
  assert (Hfits : Forall (fits (Cmd.calculateMaxBucketWidth args))
                    (sink_calls (trace_of run))).
  { apply List.Forall_forall. intros r Hr. split; [| split].
    - exact (proj1 (List.Forall_forall _ _) Hall r Hr).
    - pose proof (probed_plain args Hplain) as Hp.
      rewrite <- Hnames in Hp.
      apply (proj1 (List.Forall_forall _ _) Hp). apply in_map, Hr.
    - exact (proj1 (List.Forall_forall _ _) Hlen r Hr). }
  unfold arguments_table. cbv zeta.
  split; [exact Hres | split; [exact Hnames | split]].
  - rewrite Hproc. f_equal. unfold printed, table.
    change (Cmd.set_maxBucketWidth (Cmd.calculateMaxBucketWidth args) p0)
      with {| Cmd.maxBucketWidth := Cmd.calculateMaxBucketWidth args;
              Cmd.stdout := EmptyString |}.
    match goal with
    | |- ?p = _ =>
        assert (Hwd : Cmd.maxBucketWidth p = Cmd.calculateMaxBucketWidth args)
          by (rewrite printResult_width; reflexivity);
        destruct p as [wd out] eqn:Hp
    end.
    cbn [Cmd.maxBucketWidth Cmd.stdout] in *. subst wd. reflexivity.
  - unfold aligned, table.
    match goal with
    | |- context [fold_left _ ?l _] => set (rows := l) in *
    end.
    destruct (rows_marks (Cmd.calculateMaxBucketWidth args)
                rows ltac:(lia) Hfits
                (Cmd.printHeader
                   {| Cmd.maxBucketWidth :=
                        Cmd.calculateMaxBucketWidth args;
                      Cmd.stdout := EmptyString |})
                eq_refl) as (text & -> & Hmarks).
    rewrite <- (append_nil_r text), (header_marks _ _ (conj Hw Hw')), Hmarks.
    reflexivity.
Qed.

Lemma X16_witness :
  arguments_table ["bucket-a"; "logs.example.org"]
    (Cmd.runCheck permissiveWorld noFlags ["bucket-a"; "logs.example.org"]
       atTerminal [] (epoch,
         {| Cmd.maxBucketWidth := 0; Cmd.stdout := EmptyString |})).
Proof.
  apply X16_arguments_give_an_aligned_table;
    [reflexivity | reflexivity | discriminate | |].
  - repeat constructor.
  - repeat constructor; vm_compute; discriminate.
Defined.

(** ** The listing *)

(** A white-space rune at the end of a text starts at one of its last
    three bytes. *)
Lemma trailingSpace_starts (f : list ascii) :
  trailingSpace (rev f) <> 0 ->
  exists p q, f = p ++ q /\ q <> []
              /\ forall bs, leadingSpace (q ++ bs) <> 0.
Proof.
  intros H.
  destruct (rev f) as [| c [| b [| a r]]] eqn:E; simpl in H.
  - contradiction.
  - apply (f_equal (@rev ascii)) in E. rewrite rev_involutive in E.
    simpl in E. subst f.
    exists [], [c]. split; [reflexivity | split; [discriminate |]].
    intros bs. simpl. destruct (asciiSpace c); [discriminate | contradiction].
  - apply (f_equal (@rev ascii)) in E. rewrite rev_involutive in E.
    simpl in E. subst f.
    destruct (asciiSpace c) eqn:Hc.
    + exists [b], [c]. split; [reflexivity | split; [discriminate |]].
      intros bs. simpl. rewrite Hc. discriminate.
    + exists [], [b; c]. split; [reflexivity | split; [discriminate |]].
      intros bs. simpl.
      destruct (asciiSpace b); [discriminate |].
      destruct (space2 b c); [discriminate | contradiction].
  - apply (f_equal (@rev ascii)) in E. rewrite rev_involutive in E.
    simpl in E. subst f.
    destruct (asciiSpace c) eqn:Hc.
    + exists (rev r ++ [a; b]), [c].
      split; [rewrite <- !app_assoc; reflexivity | split; [discriminate |]].
      intros bs. simpl. rewrite Hc. discriminate.
    + destruct (space2 b c) eqn:Hbc.
      * exists (rev r ++ [a]), [b; c].
        split; [rewrite <- !app_assoc; reflexivity | split; [discriminate |]].
        intros bs. simpl.
        destruct (asciiSpace b); [discriminate |].
        rewrite Hbc. discriminate.
      * exists (rev r), [a; b; c].
        split; [rewrite <- !app_assoc; reflexivity | split; [discriminate |]].
        intros bs. simpl.
        destruct (asciiSpace a); [discriminate |].
        destruct (space2 a b); [discriminate |].
        destruct (space3 a b c); [discriminate | contradiction].
Qed.

(** A field that holds no start of a white-space rune, whatever follows
    it, is trimmed. *)
Lemma field_trimmed (field bs : list ascii) :
  field <> [] ->
  (forall p q, field = p ++ q -> q <> [] -> leadingSpace (q ++ bs) = 0) ->
  TrimSpace (string_of_list_ascii field) = string_of_list_ascii field
  /\ string_of_list_ascii field <> EmptyString.
Proof.
  intros Hne Hinv. split.
  - apply TrimSpace_of_trimmed;
      rewrite list_ascii_of_string_of_list_ascii.
    + pose proof (Hinv [] field eq_refl Hne) as H.
      apply (leadingSpace_take (length field)) in H.
      rewrite take_app_length in H. exact H.
    + destruct (Nat.eq_dec (trailingSpace (rev field)) 0) as [E | E];
        [exact E |].
      destruct (trailingSpace_starts field E) as (p & q & Hf & Hq & Hs).
      destruct (Hs bs). apply (Hinv p q Hf Hq).
  - intros E. apply (f_equal list_ascii_of_string) in E.
    rewrite list_ascii_of_string_of_list_ascii in E. simpl in E.
    contradiction.
Qed.

Lemma fieldsFrom_clean fuel :
  forall bs field,
  (forall p q, field = p ++ q -> q <> [] -> leadingSpace (q ++ bs) = 0) ->
  Forall (fun f => clean (string_of_list_ascii f))
    (fieldsFrom fuel bs field).
Proof.
  assert (Hflush : forall bs field,
    (forall p q, field = p ++ q -> q <> [] -> leadingSpace (q ++ bs) = 0) ->
    Forall (fun f => clean (string_of_list_ascii f))
      match field with
      | [] => []
      | _ :: _ => [field]
      end).
  { intros bs field Hinv. destruct field as [| x field]; constructor.
    - apply (field_trimmed _ bs); [discriminate | exact Hinv].
    - constructor. }
  induction fuel as [| fuel IH]; intros bs field Hinv; simpl.
  - apply (Hflush bs), Hinv.
  - destruct bs as [| c rest]; [apply (Hflush []), Hinv |].
    destruct (leadingSpace (c :: rest)) as [| w] eqn:Hsp.
    + apply IH. intros p q Hf Hq.
      destruct (exists_last Hq) as (q' & x & ->).
      rewrite app_assoc in Hf. apply app_inj_tail in Hf as [Hf <-].
      rewrite <- app_assoc. simpl.
      destruct q' as [| y q'].
      * exact Hsp.
      * apply (Hinv p (y :: q') Hf). discriminate.
    + apply Forall_app. split.
      * apply (Hflush (c :: rest)), Hinv.
      * apply IH. intros p q Hf Hq.
        destruct p; [| discriminate]. simpl in Hf. subst q. contradiction.
Qed.

Lemma Fields_clean (s : string) : Forall clean (Fields s).
Proof.
  unfold Fields. cbv zeta. apply Forall_map.
  apply fieldsFrom_clean.
  intros p q Hf Hq. destruct p; [| discriminate]. simpl in Hf. subst q.
  contradiction.
Qed.

(** X13. The listing of the CLI source.  [ListAllBuckets] runs one
    command, [aws s3api list-buckets]; when it fails the result holds no
    identifier and the error with the prefix for a failed listing; when it
    succeeds every identifier it returns, a field of the output, is clean:
    not empty and with no white space at either end.  So the goroutine
    driver reports every listed bucket, under the very name and in
    order. *)
Theorem X13_listing_returns_clean_identifiers :
  (forall (W : World) (c : Checker) (w : state W),
     lists (trace_of (run W (Cli.ListAllBuckets c) w))
       (result_of (run W (Cli.ListAllBuckets c) w)))
  /\ (forall (output : string) (W : World) (c : Checker)
             (scheds : list (list nat)) (w : state W),
        map BucketName
          (sink_calls
             (trace_of
                (Cli.CheckBucketsStream W c (Fields output) scheds w)))
        = Fields output).
Proof.
  split.
  - intros W c w. unfold Cli.ListAllBuckets, lists.
    cbn [mbind Prog_bind bind call run]. fold list_buckets_argv.
    destruct (handle W (string * error) (CombinedOutput list_buckets_argv) w)
      as [[output [e |]] w1]; cbn.
    + exists output, (Some e). split; reflexivity.
    + exists output, None.
      split; [reflexivity | split; [reflexivity | apply Fields_clean]].
  - intros output W c scheds w. rewrite Cli_stream_names.
    apply probed_of_clean, Fields_clean.
Qed.

(** ** The command on examples *)

Example Fields_examples :
  Fields (" a  b" +:+ newline +:+ "c ") = ["a"; "b"; "c"]
  /\ Fields "   " = []
  /\ Fields EmptyString = []
  /\ Fields ("x" +:+ String (ascii_of_nat 194)
                       (String (ascii_of_nat 160) "y")) = ["x"; "y"].
Proof. repeat split; reflexivity. Qed.

Example fmt_examples :
  padString 8 "GET-ACL" = "GET-ACL "
  /\ padString 3 "GET-ACL" = "GET-ACL"
  /\ padStar 4 "ab" = "ab  "
  /\ padStar (-4) "ab" = "ab  "
  /\ padStar 2000000 "ab" = "%!(BADWIDTH)ab"
  /\ RuneCountInString
       (String (ascii_of_nat 195) (String (ascii_of_nat 169) "a")) = 2%Z
  /\ Repeat "-" 3 = "---".
Proof. repeat split; reflexivity. Qed.

Example colorizeStatus_examples :
  Cmd.colorizeStatus "OK" 8 = Cmd.colorGreen +:+ "OK      " +:+ Cmd.colorReset
  /\ Cmd.colorizeStatus "DENIED" 8
     = Cmd.colorRed +:+ "DENIED  " +:+ Cmd.colorReset
  /\ Cmd.colorizeStatus "DENIED" 4
     = Cmd.colorRed +:+ "DENIED" +:+ Cmd.colorReset.
Proof. repeat split; reflexivity. Qed.

Example isStdinPipe_examples :
  Cmd.isStdinPipe atTerminal = false
  /\ Cmd.isStdinPipe
       {| Cmd.Stdin := {| Cmd.Text := ["bucket-a"]; Cmd.Err := None |};
          Cmd.Stdin_Stat := (Z.shiftl 1 25, None);
          Cmd.Open := Cmd.Open atTerminal |} = true
  /\ Cmd.isStdinPipe
       {| Cmd.Stdin := {| Cmd.Text := []; Cmd.Err := None |};
          Cmd.Stdin_Stat := (0%Z, Some "bad file descriptor");
          Cmd.Open := Cmd.Open atTerminal |} = false.
Proof. repeat split; reflexivity. Qed.

(** The command on one bucket whose public access is blocked. *)
Example runCheck_example :
  let r := Cmd.runCheck blockedWorld noFlags ["bucket-a"] atTerminal []
             (epoch,
              {| Cmd.maxBucketWidth := 0; Cmd.stdout := EmptyString |}) in
  result_of r = None
  /\ visible (Cmd.stdout (snd (snd (fst r))))
     = newline
       +:+ "BUCKET   | GET-ACL  | PUT-ACL  | ANON-GET  | AUTH-GET  | "
       +:+ "ANON-WRITE | AUTH-WRITE | ANON-DEL  | AUTH-DEL " +:+ newline
       +:+ "---------+----------+----------+-----------+-----------+-"
       +:+ "-----------+------------+-----------+----------" +:+ newline
       +:+ "bucket-a | OK       | OK       | DENIED    | OK        | "
       +:+ "DENIED     | OK         | DENIED    | OK       " +:+ newline
       +:+ newline
       +:+ "Legend:" +:+ newline
       +:+ "  ANON - Anonymous (unauthenticated) access" +:+ newline
       +:+ "  AUTH - Authenticated access" +:+ newline
       +:+ newline.
Proof. split; vm_compute; reflexivity. Qed.

(** A piped standard input with blank lines only, and no input at all
    with an empty listing. *)
Example runCheck_nothing_to_check :
  result_of
    (Cmd.runCheck permissiveWorld noFlags []
       {| Cmd.Stdin := {| Cmd.Text := ["  "; EmptyString]; Cmd.Err := None |};
          Cmd.Stdin_Stat := (0%Z, None);
          Cmd.Open := Cmd.Open atTerminal |} []
       (epoch, {| Cmd.maxBucketWidth := 0; Cmd.stdout := EmptyString |}))
  = Some "no buckets provided via stdin"
  /\ result_of
       (Cmd.runCheck unreachableWorld noFlags [] atTerminal []
          (epoch, {| Cmd.maxBucketWidth := 0; Cmd.stdout := EmptyString |}))
     = Some ("error listing buckets: error listing buckets: exit status 255").
Proof. split; vm_compute; reflexivity. Qed.
